(** * SmoothMovementManager: the animation scheduling and interpolation engine

    A shallow embedding of [src/electron/SmoothMovementManager.ts].

    The engine is single-threaded and timer-driven.  It is modelled as a
    transition system:
    - the state holds the window objects, the private fields of the manager
      ([isAnimating], [animationTimers]), the host's table of pending
      [setTimeout] callbacks, the clock read by [Date.now()], and a trace of
      the observable effects (setter calls and [onComplete] invocations);
    - the three [step] closures of the source are defunctionalised: a pending
      callback is the record of the variables its closure captured;
    - an event is a call of a public method, the firing of a due timer by the
      event loop, the passing of time, or the destruction of a window;
      [animateLayout] is a loop, and is a run of such events (see
      [animateLayout_run]).

    Numbers.  The bounds of a window are integers (an Electron [Rectangle]
    must hold integers) and [Date.now()] is an integer number of
    milliseconds: both are [Z].  Durations, opacities and the target
    coordinates of [animateWindow] are numbers, modelled as rationals.  The
    special values that [fade] can produce by dividing by a zero duration
    (NaN, the infinities) are modelled, see [jsnum].

    Arithmetic.  The transition system computes on rationals without
    rounding.  What depends on the values that the interpolation computes
    is stated for the [step] closures taken with the arithmetic of the host
    as a parameter ([Arith], [run_closureA]): each operation is followed by
    a rounding.  [exact] does not round, and gives back the closures of the
    transition system; [binary64] rounds to the nearest IEEE double, ties
    to even.  Overflow, subnormal numbers and negative zero are left out.

    Callbacks.  An [onComplete] continuation is an opaque label; invoking it
    appends to the trace and does not re-enter the engine.

    Sessions.  Each call of a public method is given a name, the next free
    natural number, which tags what the call and its steps add to the trace.
    The names are ghost state: the code has none. *)

From Stdlib Require Import ZArith QArith Qround Qminmax Qpower Lqa Lia.
From stdpp Require Import gmap list strings.

Local Open Scope Z_scope.

(** ** Numbers *)

(** [Math.round]: the nearest integer, halves rounded towards +infinity. *)
Definition Math_round (q : Q) : Z := Qfloor (q + (1 # 2))%Q.

(** The ease-out-cubic curve [1 - Math.pow(1 - p, 3)]. *)
Definition easeOutCubic (p : Q) : Q := (1 - (1 - p) ^ 3)%Q.

(** [Math.round(s + (t - s) * eased)] on integer end points. *)
Definition lerp_round (s t : Z) (eased : Q) : Z :=
  Math_round (inject_Z s + (inject_Z t - inject_Z s) * eased)%Q.

(** The same towards a target that need not be an integer: the [targetX]
    and [targetY] of [animateWindow] are numbers. *)
Definition lerp_round_to (s : Z) (t : Q) (eased : Q) : Z :=
  Math_round (inject_Z s + (t - inject_Z s) * eased)%Q.

(** A JavaScript number as [fade] sees it: a finite value, or one of the
    special values of a division by zero. *)
Inductive jsnum :=
| JNum (q : Q)
| JPosInf
| JNegInf
| JNaN.

Definition js_neg (a : jsnum) : jsnum :=
  match a with
  | JNum q => JNum (- q)%Q
  | JPosInf => JNegInf
  | JNegInf => JPosInf
  | JNaN => JNaN
  end.

Definition js_add (a b : jsnum) : jsnum :=
  match a, b with
  | JNaN, _ | _, JNaN => JNaN
  | JPosInf, JNegInf | JNegInf, JPosInf => JNaN
  | JPosInf, _ | _, JPosInf => JPosInf
  | JNegInf, _ | _, JNegInf => JNegInf
  | JNum p, JNum q => JNum (p + q)%Q
  end.

Definition js_sub (a b : jsnum) : jsnum := js_add a (js_neg b).

(** The sign of a finite value, as a [comparison] with zero. *)
Definition Qsign (q : Q) : comparison := (q ?= 0)%Q.

Definition js_inf_of (c : comparison) : jsnum :=
  match c with
  | Gt => JPosInf
  | Lt => JNegInf
  | Eq => JNaN
  end.

Definition js_sign (a : jsnum) : comparison :=
  match a with
  | JNum q => Qsign q
  | JPosInf => Gt
  | JNegInf => Lt
  | JNaN => Eq
  end.

Definition comparison_mul (c d : comparison) : comparison :=
  match c, d with
  | Eq, _ | _, Eq => Eq
  | Gt, Gt | Lt, Lt => Gt
  | Gt, Lt | Lt, Gt => Lt
  end.

Definition js_mul (a b : jsnum) : jsnum :=
  match a, b with
  | JNaN, _ | _, JNaN => JNaN
  | JNum p, JNum q => JNum (p * q)%Q
  | _, _ => js_inf_of (comparison_mul (js_sign a) (js_sign b))
  end.

(** Division: a finite non-zero value over zero is an infinity, [0 / 0] is
    NaN (zero is taken as positive zero). *)
Definition js_div (a b : jsnum) : jsnum :=
  match a, b with
  | JNaN, _ | _, JNaN => JNaN
  | JNum p, JNum q =>
      if Qeq_bool q 0 then js_inf_of (Qsign p) else JNum (p / q)%Q
  | JNum _, _ => JNum 0
  | _, JNum q =>
      if Qeq_bool q 0 then a else js_inf_of (comparison_mul (js_sign a) (Qsign q))
  | _, _ => JNaN
  end.

(** [Math.pow(a, 3)]. *)
Definition js_pow3 (a : jsnum) : jsnum :=
  match a with
  | JNum q => JNum (q ^ 3)%Q
  | other => other
  end.

(** [Math.min(a, b)]: NaN if either argument is NaN. *)
Definition js_min (a b : jsnum) : jsnum :=
  match a, b with
  | JNaN, _ | _, JNaN => JNaN
  | JNegInf, _ | _, JNegInf => JNegInf
  | JPosInf, other | other, JPosInf => other
  | JNum p, JNum q => JNum (Qmin p q)
  end.

(** [a < b]: false as soon as one side is NaN. *)
Definition js_ltb (a b : jsnum) : bool :=
  match a, b with
  | JNaN, _ | _, JNaN => false
  | JNum p, JNum q => if Qlt_le_dec p q then true else false
  | JNegInf, JNegInf => false
  | JNegInf, _ => true
  | _, JPosInf => match a with JPosInf => false | _ => true end
  | _, _ => false
  end.

(** ** The arithmetic of the host *)

(** The numbers of the interpolation are IEEE doubles.  An arithmetic gives
    the rounding [rnd] applied to the exact result of each operation, and
    [pow3], the function [Math.pow(x, 3)], whose accuracy the language
    leaves to the host. *)
Record Arith := mkArith { rnd : Q → Q; pow3 : Q → Q }.

(** Arithmetic without rounding. *)
Definition exact : Arith := mkArith (λ q, q) (λ q, (q ^ 3)%Q).

(** The nearest integer, ties to the even one. *)
Definition round_half_even (q : Q) : Z :=
  let f := Qfloor q in
  match (q - inject_Z f ?= 1 # 2)%Q with
  | Lt => f
  | Gt => f + 1
  | Eq => if Z.even f then f else f + 1
  end.

(** [floor (log2 q)] for a positive [q]. *)
Definition binade (q : Q) : Z :=
  let k := Z.log2 (Qnum q) - Z.log2 (Zpos (Qden q)) in
  if Qle_bool (2 ^ k) q then k else k - 1.

(** The nearest double of a positive rational: 53 significant bits, ties to
    even.  The exponent is not bounded: overflow to an infinity and the
    subnormal numbers are left out. *)
Definition round_pos (q : Q) : Q :=
  let e := binade q - 52 in
  (inject_Z (round_half_even (q / 2 ^ e)) * 2 ^ e)%Q.

Definition round_binary64 (q : Q) : Q :=
  match (q ?= 0)%Q with
  | Eq => 0%Q
  | Gt => round_pos q
  | Lt => (- round_pos (- q))%Q
  end.

(** IEEE 754 double precision, round to nearest, with [Math.pow(x, 3)]
    computed as [x * x * x]. *)
Definition binary64 : Arith :=
  mkArith round_binary64
    (λ x, round_binary64 (round_binary64 (x * x) * x)).

(** What the theorems ask of an arithmetic: rounding is compatible with
    the equality of rationals, never reverses an order, and leaves
    unchanged the integers up to [2 ^ 53]; on non-negative numbers
    [Math.pow(x, 3)] never reverses an order, and it is exact at 0 and 1.
    Both [exact] and [binary64] are such, see [exact_ok] and
    [binary64_ok]. *)
Record ArithOK (A : Arith) : Prop := mkArithOK {
  rnd_comp : ∀ p q, (p == q)%Q → (rnd A p == rnd A q)%Q;
  rnd_mono : ∀ p q, (p <= q)%Q → (rnd A p <= rnd A q)%Q;
  rnd_int : ∀ z, Z.abs z ≤ 2 ^ 53 → (rnd A (inject_Z z) == inject_Z z)%Q;
  pow3_comp : ∀ p q, (p == q)%Q → (pow3 A p == pow3 A q)%Q;
  pow3_mono : ∀ p q, (0 <= p)%Q → (p <= q)%Q → (pow3 A p <= pow3 A q)%Q;
  pow3_0 : (pow3 A 0 == 0)%Q;
  pow3_1 : (pow3 A 1 == 1)%Q
}.

(** An integer coordinate small enough for a double to hold exactly its
    difference with any other such coordinate. *)
Definition safe (z : Z) : Prop := Z.abs z ≤ 2 ^ 52.

(** [Math.min(1, elapsed / duration)] *)
Definition progressA (A : Arith) (elapsed : Z) (duration : Q) : Q :=
  Qmin 1 (rnd A (inject_Z elapsed / duration)).

(** [1 - Math.pow(1 - p, 3)] *)
Definition easedA (A : Arith) (p : Q) : Q :=
  rnd A (1 - pow3 A (rnd A (1 - p))).

(** [Math.round(start + (target - start) * eased)] *)
Definition coordA (A : Arith) (start : Z) (target : Q) (eased : Q) : Z :=
  Math_round
    (rnd A (inject_Z start + rnd A (rnd A (target - inject_Z start) * eased))).

(** [startOpacity + (to - startOpacity) * eased] on finite numbers. *)
Definition opacityA (A : Arith) (startOpacity to eased : Q) : Q :=
  rnd A (startOpacity + rnd A (rnd A (to - startOpacity) * eased)).

(** The same operations on the numbers of [fade]. *)
Definition js_rnd (A : Arith) (a : jsnum) : jsnum :=
  match a with
  | JNum q => JNum (rnd A q)
  | other => other
  end.

Definition js_pow3A (A : Arith) (a : jsnum) : jsnum :=
  match a with
  | JNum q => JNum (pow3 A q)
  | other => other
  end.

(** ** Data model *)

Module Rectangle.
Record t := mk { x : Z; y : Z; width : Z; height : Z }.
End Rectangle.
Abbreviation Rectangle := Rectangle.t.

(** [Partial<Rectangle>]: [None] is an absent property. *)
Module PartialRectangle.
Record t := mk { x : option Z; y : option Z;
                 width : option Z; height : option Z }.
End PartialRectangle.
Abbreviation PartialRectangle := PartialRectangle.t.

(** The object spread [{ ...base, ...part }]. *)
Definition spread (base : Rectangle) (part : PartialRectangle) : Rectangle :=
  Rectangle.mk
    (default (Rectangle.x base) (PartialRectangle.x part))
    (default (Rectangle.y base) (PartialRectangle.y part))
    (default (Rectangle.width base) (PartialRectangle.width part))
    (default (Rectangle.height base) (PartialRectangle.height part)).

(** A complete rectangle passed where a partial one is expected. *)
Definition as_partial (r : Rectangle) : PartialRectangle :=
  PartialRectangle.mk (Some (Rectangle.x r)) (Some (Rectangle.y r))
    (Some (Rectangle.width r)) (Some (Rectangle.height r)).

(** The spread [{ ...base, ...targetPosition }] of a [{ x?, y? }] object. *)
Definition spread_position (base : Rectangle) (tx ty : option Z) : Rectangle :=
  spread base (PartialRectangle.mk tx ty None None).

(** A [BrowserWindow] object: registers holding what the setters were last
    given, and the flag read by [isDestroyed()]. *)
Record Window := mkWindow {
  bounds : Rectangle;
  opacity : jsnum;
  destroyed : bool
}.

(** A window handle is the identity of a [BrowserWindow] object; a
    [BrowserWindow | null | undefined] argument is an [option handle]. *)
Abbreviation handle := nat (only parsing).

(** What a session's closure captured.  [sid] is a ghost name given to the
    session when the public method is called; the code has no such field. *)
Record WindowEnv := mkWindowEnv {
  w_sid : nat;
  w_win : handle;
  w_start : Rectangle;
  w_startTime : Z;
  w_duration : Q;
  w_targetX : Q;
  w_targetY : Q;
  w_width : Z;
  w_height : Z;
  w_onComplete : option nat
}.

Record FadeEnv := mkFadeEnv {
  f_sid : nat;
  f_win : handle;
  f_startOpacity : jsnum;
  f_startTime : Z;
  f_duration : Q;
  f_to : Q;
  f_onComplete : option nat
}.

Record BoundsEnv := mkBoundsEnv {
  b_sid : nat;
  b_win : handle;
  b_startBounds : Rectangle;
  b_finalTargetBounds : Rectangle;
  b_startTime : Z;
  b_duration : Q;
  b_onComplete : option nat
}.

(** The [step] closure of [animateWindow], of [fade], of
    [animateWindowBounds]. *)
Inductive closure :=
| StepWindow (e : WindowEnv)
| StepFade (e : FadeEnv)
| StepBounds (e : BoundsEnv).

(** The session and the window of a callback. *)
Definition closure_sid (c : closure) : nat :=
  match c with
  | StepWindow e => w_sid e
  | StepFade e => f_sid e
  | StepBounds e => b_sid e
  end.

Definition closure_win (c : closure) : handle :=
  match c with
  | StepWindow e => w_win e
  | StepFade e => f_win e
  | StepBounds e => b_win e
  end.

(** Observable effects, tagged with the session that caused them. *)
Inductive obs :=
| SetBounds (sid : nat) (win : handle) (r : Rectangle)
| SetOpacity (sid : nat) (win : handle) (o : jsnum)
| Completed (sid : nat) (cb : nat).

(** The whole state: the windows, the fields [isAnimating] and
    [animationTimers] of the manager, the pending timers of the host with
    their due times, the next free timer id and session name, the clock, and
    the trace, newest effect first.  The fields [stepSize] and
    [headerPosition] of the class are never read and are left out;
    [windowPool] is read only by [animateLayout] and is its parameter. *)
Record State := mkState {
  windows : gmap nat Window;
  isAnimating : bool;
  animationTimers : gmap nat nat;
  timers : gmap nat (Z * closure);
  nextTimer : nat;
  nextSession : nat;
  now : Z;
  trace : list obs
}.

(** [this.animationDuration], set to 300 by the constructor and never
    written again. *)
Definition animationDuration : Q := 300.

(** The state built by the constructor, over a given set of windows. *)
Definition init (ws : gmap nat Window) (t0 : Z) : State :=
  mkState ws false ∅ ∅ 0 0 t0 [].

(** ** Field updates of the state record *)

Definition set_windows (f : gmap nat Window → gmap nat Window) (s : State) : State :=
  mkState (f (windows s)) (isAnimating s) (animationTimers s) (timers s)
    (nextTimer s) (nextSession s) (now s) (trace s).

Definition set_isAnimating (b : bool) (s : State) : State :=
  mkState (windows s) b (animationTimers s) (timers s)
    (nextTimer s) (nextSession s) (now s) (trace s).

Definition set_animationTimers (f : gmap nat nat → gmap nat nat) (s : State) : State :=
  mkState (windows s) (isAnimating s) (f (animationTimers s)) (timers s)
    (nextTimer s) (nextSession s) (now s) (trace s).

Definition set_timers (f : gmap nat (Z * closure) → gmap nat (Z * closure))
    (s : State) : State :=
  mkState (windows s) (isAnimating s) (animationTimers s) (f (timers s))
    (nextTimer s) (nextSession s) (now s) (trace s).

Definition set_now (t : Z) (s : State) : State :=
  mkState (windows s) (isAnimating s) (animationTimers s) (timers s)
    (nextTimer s) (nextSession s) t (trace s).

Definition emit (o : obs) (s : State) : State :=
  mkState (windows s) (isAnimating s) (animationTimers s) (timers s)
    (nextTimer s) (nextSession s) (now s) (o :: trace s).

(** A public method names the session it starts with the next free name. *)
Definition new_session (s : State) : nat * State :=
  (nextSession s,
   mkState (windows s) (isAnimating s) (animationTimers s) (timers s)
     (nextTimer s) (S (nextSession s)) (now s) (trace s)).

(** ** Primitives of the host *)

(** [win.isDestroyed()]; a handle with no object behind it counts as
    destroyed. *)
Definition isDestroyed (w : handle) (s : State) : bool :=
  match windows s !! w with
  | Some W => destroyed W
  | None => true
  end.

(** [win.getBounds()] and [win.getOpacity()].  The engine calls them on
    windows it has just found valid; the value for a missing object is a
    placeholder. *)
Definition getBounds (w : handle) (s : State) : Rectangle :=
  match windows s !! w with
  | Some W => bounds W
  | None => Rectangle.mk 0 0 0 0
  end.

Definition getOpacity (w : handle) (s : State) : jsnum :=
  match windows s !! w with
  | Some W => opacity W
  | None => JNum 1
  end.

(** [win.setBounds(r)] and [win.setOpacity(o)], called by session [sid]. *)
Definition setBounds (sid : nat) (w : handle) (r : Rectangle) (s : State) : State :=
  emit (SetBounds sid w r)
    (set_windows (alter (λ W, mkWindow r (opacity W) (destroyed W)) w) s).

Definition setOpacity (sid : nat) (w : handle) (o : jsnum) (s : State) : State :=
  emit (SetOpacity sid w o)
    (set_windows (alter (λ W, mkWindow (bounds W) o (destroyed W)) w) s).

(** [setTimeout(c, delay)]: a new timer id, due [delay] ms from now. *)
Definition setTimeout (c : closure) (delay : Z) (s : State) : nat * State :=
  (nextTimer s,
   mkState (windows s) (isAnimating s) (animationTimers s)
     (<[nextTimer s := (now s + delay, c)]> (timers s))
     (S (nextTimer s)) (nextSession s) (now s) (trace s)).

(** [clearTimeout(tid)]. *)
Definition clearTimeout (tid : nat) (s : State) : State :=
  set_timers (delete tid) s.

(** [if (onComplete) onComplete()]. *)
Definition invoke (sid : nat) (onComplete : option nat) (s : State) : State :=
  match onComplete with
  | Some cb => emit (Completed sid cb) s
  | None => s
  end.

(** [a || b] on an optional number: [undefined], and [0], are falsy. *)
Definition or_else (a : option Q) (b : Q) : Q :=
  match a with
  | Some q => if Qeq_bool q 0 then b else q
  | None => b
  end.

(** ** The manager *)

(** [_isWindowValid(win)]: false for a missing or destroyed window, whose
    pending timer, if [animationTimers] has one, is cleared and forgotten. *)
Definition _isWindowValid (win : option handle) (s : State) : bool * State :=
  match win with
  | None => (false, s)
  | Some w =>
      if isDestroyed w s then
        (false,
         match animationTimers s !! w with
         | Some tid => set_animationTimers (delete w) (clearTimeout tid s)
         | None => s
         end)
      else (true, s)
  end.

(** [Math.min((Date.now() - startTime) / duration, 1)] in [animateWindow]. *)
Definition window_progress (e : WindowEnv) (t : Z) : Q :=
  Qmin (inject_Z (t - w_startTime e) / w_duration e) 1.

(** The rectangle that the [step] of [animateWindow] writes at time [t]. *)
Definition windowBounds (e : WindowEnv) (t : Z) : Rectangle :=
  let eased := easeOutCubic (window_progress e t) in
  Rectangle.mk
    (lerp_round_to (Rectangle.x (w_start e)) (w_targetX e) eased)
    (lerp_round_to (Rectangle.y (w_start e)) (w_targetY e) eased)
    (w_width e) (w_height e).

(** The [step] closure of [animateWindow]. *)
Definition stepWindow (e : WindowEnv) (s : State) : State :=
  let '(valid, s) := _isWindowValid (Some (w_win e)) s in
  if negb valid then invoke (w_sid e) (w_onComplete e) s
  else
    let p := window_progress e (now s) in
    let s := setBounds (w_sid e) (w_win e) (windowBounds e (now s)) s in
    if Qlt_le_dec p 1 then snd (setTimeout (StepWindow e) 8 s)
    else invoke (w_sid e) (w_onComplete e) s.

(** [Math.min(1, (Date.now() - startTime) / duration)] in [fade]. *)
Definition fade_progress (e : FadeEnv) (t : Z) : jsnum :=
  js_min (JNum 1)
    (js_div (JNum (inject_Z (t - f_startTime e))) (JNum (f_duration e))).

(** [1 - Math.pow(1 - progress, 3)] and
    [startOpacity + (to - startOpacity) * eased] in [fade]. *)
Definition fade_eased (progress : jsnum) : jsnum :=
  js_sub (JNum 1) (js_pow3 (js_sub (JNum 1) progress)).

Definition fade_value (e : FadeEnv) (eased : jsnum) : jsnum :=
  js_add (f_startOpacity e)
    (js_mul (js_sub (JNum (f_to e)) (f_startOpacity e)) eased).

(** The [step] closure of [fade]. *)
Definition stepFade (e : FadeEnv) (s : State) : State :=
  let '(valid, s) := _isWindowValid (Some (f_win e)) s in
  if negb valid then invoke (f_sid e) (f_onComplete e) s
  else
    let progress := fade_progress e (now s) in
    let eased := fade_eased progress in
    let s := setOpacity (f_sid e) (f_win e) (fade_value e eased) s in
    if js_ltb progress (JNum 1) then snd (setTimeout (StepFade e) 8 s)
    else
      let s := setOpacity (f_sid e) (f_win e) (JNum (f_to e)) s in
      invoke (f_sid e) (f_onComplete e) s.

(** [Math.min(1, elapsed / duration)].  The division is that of [Q], total
    with [x / 0 = 0]; the durations that [animateWindow] and
    [animateWindowBounds] divide by are never zero, see [or_else_nonzero]. *)
Definition progress_at (elapsed : Z) (duration : Q) : Q :=
  Qmin 1 (inject_Z elapsed / duration).

(** [Math.min(1, (Date.now() - startTime) / duration)] in
    [animateWindowBounds], and the rectangle [newBounds] that its [step]
    computes at time [t]. *)
Definition bounds_progress (e : BoundsEnv) (t : Z) : Q :=
  progress_at (t - b_startTime e) (b_duration e).

Definition newBounds (e : BoundsEnv) (t : Z) : Rectangle :=
  let eased := easeOutCubic (bounds_progress e t) in
  let s0 := b_startBounds e in
  let f := b_finalTargetBounds e in
  Rectangle.mk
    (lerp_round (Rectangle.x s0) (Rectangle.x f) eased)
    (lerp_round (Rectangle.y s0) (Rectangle.y f) eased)
    (lerp_round (Rectangle.width s0) (Rectangle.width f) eased)
    (lerp_round (Rectangle.height s0) (Rectangle.height f) eased).

(** The [step] closure of [animateWindowBounds]. *)
Definition stepBounds (e : BoundsEnv) (s : State) : State :=
  let '(valid, s) := _isWindowValid (Some (b_win e)) s in
  if negb valid then invoke (b_sid e) (b_onComplete e) s
  else
    let progress := bounds_progress e (now s) in
    let s := setBounds (b_sid e) (b_win e) (newBounds e (now s)) s in
    if Qlt_le_dec progress 1 then
      let '(timerId, s) := setTimeout (StepBounds e) 8 s in
      set_animationTimers <[b_win e := timerId]> s
    else
      let s := setBounds (b_sid e) (b_win e) (b_finalTargetBounds e) s in
      let s := set_animationTimers (delete (b_win e)) s in
      let s := if decide (size (animationTimers s) = 0%nat)
               then set_isAnimating false s else s in
      invoke (b_sid e) (b_onComplete e) s.

(** Running a callback. *)
Definition run_closure (c : closure) (s : State) : State :=
  match c with
  | StepWindow e => stepWindow e s
  | StepFade e => stepFade e s
  | StepBounds e => stepBounds e s
  end.

(** ** The steps in the arithmetic of the host *)

(** The three [step] closures once more, with the arithmetic as a
    parameter: each operation on numbers is followed by its rounding.  With
    [exact] they are the closures above, see [run_closureA_exact]; with
    [binary64] they compute what the host computes.  The transition system
    below runs the closures above. *)

Definition window_progressA (A : Arith) (e : WindowEnv) (t : Z) : Q :=
  Qmin (rnd A (inject_Z (t - w_startTime e) / w_duration e)) 1.

Definition windowBoundsA (A : Arith) (e : WindowEnv) (t : Z) : Rectangle :=
  let eased := easedA A (window_progressA A e t) in
  Rectangle.mk
    (coordA A (Rectangle.x (w_start e)) (w_targetX e) eased)
    (coordA A (Rectangle.y (w_start e)) (w_targetY e) eased)
    (w_width e) (w_height e).

Definition stepWindowA (A : Arith) (e : WindowEnv) (s : State) : State :=
  let '(valid, s) := _isWindowValid (Some (w_win e)) s in
  if negb valid then invoke (w_sid e) (w_onComplete e) s
  else
    let p := window_progressA A e (now s) in
    let s := setBounds (w_sid e) (w_win e) (windowBoundsA A e (now s)) s in
    if Qlt_le_dec p 1 then snd (setTimeout (StepWindow e) 8 s)
    else invoke (w_sid e) (w_onComplete e) s.

Definition fade_progressA (A : Arith) (e : FadeEnv) (t : Z) : jsnum :=
  js_min (JNum 1)
    (js_rnd A
       (js_div (JNum (inject_Z (t - f_startTime e))) (JNum (f_duration e)))).

Definition fade_easedA (A : Arith) (progress : jsnum) : jsnum :=
  js_rnd A
    (js_sub (JNum 1) (js_pow3A A (js_rnd A (js_sub (JNum 1) progress)))).

Definition fade_valueA (A : Arith) (e : FadeEnv) (eased : jsnum) : jsnum :=
  js_rnd A
    (js_add (f_startOpacity e)
       (js_rnd A
          (js_mul (js_rnd A (js_sub (JNum (f_to e)) (f_startOpacity e)))
             eased))).

Definition stepFadeA (A : Arith) (e : FadeEnv) (s : State) : State :=
  let '(valid, s) := _isWindowValid (Some (f_win e)) s in
  if negb valid then invoke (f_sid e) (f_onComplete e) s
  else
    let progress := fade_progressA A e (now s) in
    let eased := fade_easedA A progress in
    let s := setOpacity (f_sid e) (f_win e) (fade_valueA A e eased) s in
    if js_ltb progress (JNum 1) then snd (setTimeout (StepFade e) 8 s)
    else
      let s := setOpacity (f_sid e) (f_win e) (JNum (f_to e)) s in
      invoke (f_sid e) (f_onComplete e) s.

Definition bounds_progressA (A : Arith) (e : BoundsEnv) (t : Z) : Q :=
  progressA A (t - b_startTime e) (b_duration e).

Definition newBoundsA (A : Arith) (e : BoundsEnv) (t : Z) : Rectangle :=
  let eased := easedA A (bounds_progressA A e t) in
  let s0 := b_startBounds e in
  let f := b_finalTargetBounds e in
  Rectangle.mk
    (coordA A (Rectangle.x s0) (inject_Z (Rectangle.x f)) eased)
    (coordA A (Rectangle.y s0) (inject_Z (Rectangle.y f)) eased)
    (coordA A (Rectangle.width s0) (inject_Z (Rectangle.width f)) eased)
    (coordA A (Rectangle.height s0) (inject_Z (Rectangle.height f)) eased).

Definition stepBoundsA (A : Arith) (e : BoundsEnv) (s : State) : State :=
  let '(valid, s) := _isWindowValid (Some (b_win e)) s in
  if negb valid then invoke (b_sid e) (b_onComplete e) s
  else
    let progress := bounds_progressA A e (now s) in
    let s := setBounds (b_sid e) (b_win e) (newBoundsA A e (now s)) s in
    if Qlt_le_dec progress 1 then
      let '(timerId, s) := setTimeout (StepBounds e) 8 s in
      set_animationTimers <[b_win e := timerId]> s
    else
      let s := setBounds (b_sid e) (b_win e) (b_finalTargetBounds e) s in
      let s := set_animationTimers (delete (b_win e)) s in
      let s := if decide (size (animationTimers s) = 0%nat)
               then set_isAnimating false s else s in
      invoke (b_sid e) (b_onComplete e) s.

Definition run_closureA (A : Arith) (c : closure) (s : State) : State :=
  match c with
  | StepWindow e => stepWindowA A e s
  | StepFade e => stepFadeA A e s
  | StepBounds e => stepBoundsA A e s
  end.

(** The event loop runs the due callback [c] of the timer [tid]. *)
Definition fire (A : Arith) (tid : nat) (c : closure) (s : State) : State :=
  run_closureA A c (clearTimeout tid s).

(** ** The methods *)

(** [animateWindow(win, targetX, targetY, { sizeOverride, onComplete, duration })] *)
Definition animateWindow (win : option handle) (targetX targetY : Q)
    (sizeOverride : option (Z * Z)) (onComplete : option nat)
    (animDuration : option Q) (s : State) : State :=
  let '(sid, s) := new_session s in
  match win, _isWindowValid win s with
  | Some w, (true, s) =>
      let start := getBounds w s in
      let startTime := now s in
      let duration := or_else animDuration animationDuration in
      let '(width, height) :=
        match sizeOverride with
        | Some wh => wh
        | None => (Rectangle.width start, Rectangle.height start)
        end in
      stepWindow
        (mkWindowEnv sid w start startTime duration targetX targetY
           width height onComplete) s
  | _, (_, s) => invoke sid onComplete s
  end.

(** [fade(win, { from, to, duration = 250, onComplete })] *)
Definition fade (win : option handle) (from : option Q) (to : Q)
    (duration : option Q) (onComplete : option nat) (s : State) : State :=
  let '(sid, s) := new_session s in
  match win, _isWindowValid win s with
  | Some w, (true, s) =>
      let startOpacity :=
        match from with
        | Some o => JNum o
        | None => getOpacity w s
        end in
      let startTime := now s in
      stepFade
        (mkFadeEnv sid w startOpacity startTime (default 250%Q duration) to
           onComplete) s
  | _, (_, s) => invoke sid onComplete s
  end.

(** [animateWindowBounds(win, targetBounds, { duration, onComplete })] *)
Definition animateWindowBounds (win : option handle)
    (targetBounds : PartialRectangle) (duration : option Q)
    (onComplete : option nat) (s : State) : State :=
  let '(sid, s) := new_session s in
  let s :=
    match win ≫= (λ w, animationTimers s !! w) with
    | Some tid => clearTimeout tid s
    | None => s
    end in
  match win, _isWindowValid win s with
  | Some w, (true, s) =>
      let s := set_isAnimating true s in
      let startBounds := getBounds w s in
      let finalTargetBounds := spread startBounds targetBounds in
      let startTime := now s in
      let duration := or_else duration animationDuration in
      stepBounds
        (mkBoundsEnv sid w startBounds finalTargetBounds startTime duration
           onComplete) s
  | _, (_, s) => invoke sid onComplete s
  end.

(** [animateWindowPosition(win, { x?, y? }, { duration, onComplete })] *)
Definition animateWindowPosition (win : option handle) (tx ty : option Z)
    (duration : option Q) (onComplete : option nat) (s : State) : State :=
  match win, _isWindowValid win s with
  | Some w, (true, s) =>
      let currentBounds := getBounds w s in
      let targetBounds := spread_position currentBounds tx ty in
      animateWindowBounds win (as_partial targetBounds) duration onComplete s
  | _, (_, s) =>
      let '(sid, s) := new_session s in
      invoke sid onComplete s
  end.

(** [animationTimers.forEach(timer => clearTimeout(timer))] *)
Definition clear_all (m : gmap nat nat) (s : State) : State :=
  map_fold (λ _ timer s, clearTimeout timer s) s m.

(** [destroy()]: every timer of the table is cleared, the table emptied. *)
Definition destroy (s : State) : State :=
  let s := clear_all (animationTimers s) s in
  let s := set_animationTimers (λ _, ∅) s in
  set_isAnimating false s.

(** The body of the loop of [animateLayout] for a valid window when
    [animated] is false: [win.setBounds({ ...win.getBounds(), ...targetBounds })].
    The write is given a session name of its own. *)
Definition applyLayout (w : handle) (targetBounds : PartialRectangle)
    (s : State) : State :=
  let '(sid, s) := new_session s in
  setBounds sid w (spread (getBounds w s) targetBounds) s.

(** [animateLayout(layout, animated)], over the window pool given to the
    constructor.  A layout is the list of its entries, in the order of the
    [for ... in] loop; an entry whose value is falsy holds [None]. *)
Definition animateLayout (windowPool : gmap string nat)
    (layout : list (string * option PartialRectangle)) (animated : bool)
    (s : State) : State :=
  foldl (λ s '(winName, targetBounds),
           match windowPool !! winName, targetBounds with
           | Some win, Some targetBounds =>
               if isDestroyed win s then s
               else if animated
                    then animateWindowBounds (Some win) targetBounds None None s
                    else applyLayout win targetBounds s
           | _, _ => s
           end) s layout.

(** ** The transition system *)

Inductive event :=
| AnimateWindow (win : option handle) (targetX targetY : Q)
    (sizeOverride : option (Z * Z)) (onComplete : option nat)
    (duration : option Q)
| Fade (win : option handle) (from : option Q) (to : Q)
    (duration : option Q) (onComplete : option nat)
| AnimateWindowBounds (win : option handle) (targetBounds : PartialRectangle)
    (duration : option Q) (onComplete : option nat)
| AnimateWindowPosition (win : option handle) (tx ty : option Z)
    (duration : option Q) (onComplete : option nat)
| Destroy
| WindowDestroyed (w : handle)
| Elapse (dt : Z)
| Fire (tid : nat)
| ApplyLayout (w : handle) (targetBounds : PartialRectangle).

(** The window [w] is closed: from now on [isDestroyed()] is true. *)
Definition destroy_window (w : handle) (s : State) : State :=
  set_windows (alter (λ W, mkWindow (bounds W) (opacity W) true) w) s.

(** One event.  Time only moves forward, the event loop runs a callback
    only if its timer is pending and due, and [animateLayout] applies bounds
    to valid windows only. *)
Definition step (s : State) (ev : event) : option State :=
  match ev with
  | AnimateWindow win tx ty so oc d => Some (animateWindow win tx ty so oc d s)
  | Fade win from to d oc => Some (fade win from to d oc s)
  | AnimateWindowBounds win tb d oc => Some (animateWindowBounds win tb d oc s)
  | AnimateWindowPosition win tx ty d oc =>
      Some (animateWindowPosition win tx ty d oc s)
  | Destroy => Some (destroy s)
  | WindowDestroyed w => Some (destroy_window w s)
  | Elapse dt => if decide (0 ≤ dt) then Some (set_now (now s + dt) s) else None
  | Fire tid =>
      match timers s !! tid with
      | Some (due, c) =>
          if decide (due ≤ now s) then Some (run_closure c (clearTimeout tid s))
          else None
      | None => None
      end
  | ApplyLayout w tb =>
      if isDestroyed w s then None else Some (applyLayout w tb s)
  end.

Fixpoint run (s : State) (evs : list event) : option State :=
  match evs with
  | [] => Some s
  | ev :: evs => step s ev ≫= λ s', run s' evs
  end.

(** ** Invariants of the transition system *)

(** The timer [tid] is pending and will run [c]. *)
Definition pending (s : State) (tid : nat) (c : closure) : Prop :=
  ∃ due, timers s !! tid = Some (due, c).

(** The sessions whose continuation has been invoked, newest first. *)
Definition completed_sids (tr : list obs) : list nat :=
  omap (λ o, match o with Completed sid _ => Some sid | _ => None end) tr.

(** What holds between any two primitive actions of the engine. *)
Record inv (s : State) : Prop := mkInv {
  inv_tid : ∀ tid c, pending s tid c → (tid < nextTimer s)%nat;
  inv_sid : ∀ tid c, pending s tid c → (closure_sid c < nextSession s)%nat;
  inv_done : ∀ sid, sid ∈ completed_sids (trace s) → (sid < nextSession s)%nat;
  inv_one_timer : ∀ tid tid' c c',
    pending s tid c → pending s tid' c' →
    closure_sid c = closure_sid c' → tid = tid';
  inv_live : ∀ tid c, pending s tid c → closure_sid c ∉ completed_sids (trace s);
  inv_once : NoDup (completed_sids (trace s));
  inv_table_fwd : ∀ tid e,
    pending s tid (StepBounds e) → animationTimers s !! b_win e = Some tid
}.

(** The entries of [animationTimers] for the windows in [P] name pending
    steps of [animateWindowBounds] on that window. *)
Definition table_exact (P : handle → Prop) (s : State) : Prop :=
  ∀ w tid, P w → animationTimers s !! w = Some tid →
    ∃ e, pending s tid (StepBounds e) ∧ b_win e = w.

(** What holds between any two events. *)
Definition wf (s : State) : Prop := inv s ∧ table_exact (λ _, True) s.

(** The session [sid] has been named, has no pending step and has not
    completed: the situation of a session whose method, or whose step, is
    running. *)
Definition running (sid : nat) (s : State) : Prop :=
  (sid < nextSession s)%nat
  ∧ (∀ tid c, pending s tid c → closure_sid c ≠ sid)
  ∧ sid ∉ completed_sids (trace s).

(** No step of [animateWindowBounds] is pending on [w]. *)
Definition no_bounds_pending (w : handle) (s : State) : Prop :=
  ∀ tid e, pending s tid (StepBounds e) → b_win e ≠ w.

(** While a method or a step runs, the entry of the window [X] it works on
    may be stale: it then names no pending timer, and that window has no
    pending step of [animateWindowBounds]. *)
Definition stale_ok (X : option handle) (s : State) : Prop :=
  ∀ w, X = Some w →
    no_bounds_pending w s
    ∧ ∀ tid c, animationTimers s !! w = Some tid → ¬ pending s tid c.

(** The session [R], if any, is running. *)
Definition running_ok (R : option nat) (s : State) : Prop :=
  ∀ sid, R = Some sid → running sid s.

(** The invariant between two primitive actions: [X] is the window whose
    entry may be stale, [R] the session that is running. *)
Definition I (X : option handle) (R : option nat) (s : State) : Prop :=
  inv s ∧ table_exact (λ w, Some w ≠ X) s ∧ stale_ok X s ∧ running_ok R s.

(** The window, if any, whose entry goes stale when the timer of [c] fires. *)
Definition stale_of (c : closure) : option handle :=
  match c with
  | StepBounds e => Some (b_win e)
  | _ => None
  end.

(** ** The vocabulary of the claims *)

(** [v1] then [v2] is a move from [s] towards [t] without overshoot. *)
Definition towards (s t v1 v2 : Z) : Prop :=
  ((s <= v1 ∧ v1 <= v2 ∧ v2 <= t) ∨ (t <= v2 ∧ v2 <= v1 ∧ v1 <= s))%Z.

(** The continuation that a session captured. *)
Definition closure_onComplete (c : closure) : option nat :=
  match c with
  | StepWindow e => w_onComplete e
  | StepFade e => f_onComplete e
  | StepBounds e => b_onComplete e
  end.

(** The effect [o] is one that the callback [c], run at time [t], causes. *)
Definition obs_by (c : closure) (t : Z) (o : obs) : Prop :=
  match o, c with
  | SetBounds sid w r, StepBounds e =>
      sid = b_sid e ∧ w = b_win e
      ∧ (r = newBounds e t ∨ r = b_finalTargetBounds e)
  | SetBounds sid w r, StepWindow e =>
      sid = w_sid e ∧ w = w_win e ∧ r = windowBounds e t
  | SetOpacity sid w v, StepFade e =>
      sid = f_sid e ∧ w = f_win e
      ∧ (v = fade_value e (fade_eased (fade_progress e t)) ∨ v = JNum (f_to e))
  | Completed sid cb, _ => sid = closure_sid c ∧ closure_onComplete c = Some cb
  | _, _ => False
  end.

(** Steps of [fade] write opacities, the others write bounds. *)
Definition is_fade (c : closure) : bool :=
  match c with StepFade _ => true | _ => false end.

(** What running the callback [c] from [s] to [s'] may change: the trace
    gains effects of [c] only, the only timer that may appear is one for
    [c] itself, no window is destroyed, and no window other than that of
    [c] changes its bounds or its opacity. *)
Record footprint (c : closure) (s s' : State) : Prop := mkFootprint {
  fp_trace : ∃ new, trace s' = new ++ trace s ∧ Forall (obs_by c (now s)) new;
  fp_pending : ∀ tid c', pending s' tid c' → pending s tid c' ∨ c' = c;
  fp_destroyed : ∀ w, isDestroyed w s' = isDestroyed w s;
  fp_bounds : ∀ w, closure_win c ≠ w ∨ is_fade c = true →
    getBounds w s' = getBounds w s;
  fp_opacity : ∀ w, closure_win c ≠ w ∨ is_fade c = false →
    getOpacity w s' = getOpacity w s;
  fp_now : now s' = now s
}.

(** The closure that a call of an animate method on a window builds. *)
Definition call_closure (ev : event) (s : State) : option closure :=
  let sid := nextSession s in
  match ev with
  | AnimateWindow (Some w) tx ty so oc d =>
      let start := getBounds w s in
      let '(width, height) :=
        match so with
        | Some wh => wh
        | None => (Rectangle.width start, Rectangle.height start)
        end in
      Some (StepWindow
              (mkWindowEnv sid w start (now s) (or_else d animationDuration)
                 tx ty width height oc))
  | Fade (Some w) from to d oc =>
      let startOpacity :=
        match from with
        | Some o => JNum o
        | None => getOpacity w s
        end in
      Some (StepFade
              (mkFadeEnv sid w startOpacity (now s) (default 250%Q d) to oc))
  | AnimateWindowBounds (Some w) tb d oc =>
      let start := getBounds w s in
      Some (StepBounds
              (mkBoundsEnv sid w start (spread start tb) (now s)
                 (or_else d animationDuration) oc))
  | AnimateWindowPosition (Some w) tx ty d oc =>
      let start := getBounds w s in
      Some (StepBounds
              (mkBoundsEnv sid w start (spread_position start tx ty) (now s)
                 (or_else d animationDuration) oc))
  | _ => None
  end.

(** The state in which [animateWindowBounds] runs its first step. *)
Definition bounds_entry (w : handle) (s : State) : State :=
  let s1 := snd (new_session s) in
  set_isAnimating true
    match animationTimers s1 !! w with
    | Some tid => clearTimeout tid s1
    | None => s1
    end.

(** The window argument is [null], [undefined], or a destroyed window. *)
Definition invalid (win : option handle) (s : State) : Prop :=
  match win with
  | Some w => isDestroyed w s = true
  | None => True
  end.

(** The trace of [if (onComplete) onComplete()]. *)
Definition completion (sid : nat) (onComplete : option nat) : list obs :=
  match onComplete with
  | Some cb => [Completed sid cb]
  | None => []
  end.

(** The call returned after invoking [onComplete], if supplied, once: no
    setter was called, no window changed, no callback was scheduled. *)
Record short_circuit (onComplete : option nat) (s s' : State) : Prop :=
  mkShortCircuit {
    sc_trace : trace s' = completion (nextSession s) onComplete ++ trace s;
    sc_windows : windows s' = windows s;
    sc_pending : ∀ tid c, pending s' tid c → pending s tid c;
    sc_now : now s' = now s;
    sc_session : nextSession s' = S (nextSession s)
}.

(** The callback that an event runs: the one of the timer that fires, or
    the one that the called method builds. *)
Definition actor (s : State) (ev : event) (c : closure) : Prop :=
  match ev with
  | Fire tid => pending s tid c
  | _ => call_closure ev s = Some c
  end.

(** The session that caused an effect. *)
Definition obs_sid (o : obs) : nat :=
  match o with
  | SetBounds sid _ _ | SetOpacity sid _ _ | Completed sid _ => sid
  end.

(** A session is live if one of its steps is pending, or if it has not been
    started yet. *)
Definition live (s : State) (sid : nat) : Prop :=
  (∃ tid c, pending s tid c ∧ closure_sid c = sid) ∨ (nextSession s ≤ sid)%nat.

(** The session of [c] has been started and its pending step, if any, is
    [c] itself: the variables that a session captured never change. *)
Definition owns (c : closure) (s : State) : Prop :=
  (closure_sid c < nextSession s)%nat
  ∧ ∀ tid c', pending s tid c' → closure_sid c' = closure_sid c → c' = c.

(** ** Observations on a trace, and sample worlds *)

(** The sessions that called [setBounds] on [w], newest first. *)
Definition bounds_writers (w : handle) (tr : list obs) : list nat :=
  omap (λ o, match o with
             | SetBounds sid w' _ => if decide (w' = w) then Some sid else None
             | _ => None
             end) tr.

(** The rectangles given to [setBounds] on [w], newest first. *)
Definition bounds_written (w : handle) (tr : list obs) : list Rectangle :=
  omap (λ o, match o with
             | SetBounds _ w' r => if decide (w' = w) then Some r else None
             | _ => None
             end) tr.

(** The sessions that called [setOpacity] on [w], newest first. *)
Definition opacity_writers (w : handle) (tr : list obs) : list nat :=
  omap (λ o, match o with
             | SetOpacity sid w' _ => if decide (w' = w) then Some sid else None
             | _ => None
             end) tr.

(** The pending timers: id, due time, session and window of the callback. *)
Definition pending_list (s : State) : list (nat * Z * nat * handle) :=
  (λ '(tid, (due, c)), (tid, due, closure_sid c, closure_win c))
    <$> map_to_list (timers s).

(** One window, 100 by 100 at the origin, fully opaque; the clock at 1000. *)
Definition sample_window : Window :=
  mkWindow (Rectangle.mk 0 0 100 100) (JNum 1) false.

Definition sample : State := init {[ 7%nat := sample_window ]} 1000.

(** The same with the window already destroyed. *)
Definition sample_destroyed : State :=
  init {[ 7%nat := mkWindow (Rectangle.mk 0 0 100 100) (JNum 1) true ]} 1000.

(** The partial rectangle [{ x: v }]. *)
Definition only_x (v : Z) : PartialRectangle :=
  PartialRectangle.mk (Some v) None None None.

(** The sample world after [animateWindowBounds(win, { x: 100 }, { onComplete })]. *)
Definition sample_started : State :=
  animateWindowBounds (Some 7%nat) (only_x 100) None (Some 1%nat) sample.

(** The events of a window left alone: time passes and timers fire. *)
Definition passive (ev : event) : Prop :=
  match ev with
  | Elapse _ | Fire _ => True
  | _ => False
  end.

(** The session of [e] is the only one that may move its window: the window
    is valid, the only other steps pending on it are those of [fade], and
    either a step of the session is pending or the window is at the target
    of the session. *)
Definition in_charge (e : BoundsEnv) (s : State) : Prop :=
  isDestroyed (b_win e) s = false
  ∧ (∀ tid c, pending s tid c → closure_win c = b_win e →
       is_fade c = true ∨ c = StepBounds e)
  ∧ ((∃ tid, pending s tid (StepBounds e))
     ∨ getBounds (b_win e) s = b_finalTargetBounds e).

(** The sample world 8 ms after [sample_started], once the first timer has
    fired: session 0 is in flight. *)
Definition sample_mid : State :=
  default sample (run sample_started [Elapse 8; Fire 0%nat]).

(** What the first call captured. *)
Definition sample_envA : BoundsEnv :=
  mkBoundsEnv 0 7 (Rectangle.mk 0 0 100 100) (Rectangle.mk 100 0 100 100)
    1000 300 (Some 1%nat).

(** The sample world after a second call, to [{ x: 50 }], has superseded
    the first and has run to its end. *)
Definition sample_end : State :=
  default sample
    (run (animateWindowBounds (Some 7%nat) (only_x 50) None (Some 2%nat) sample_mid)
       [Elapse 300; Fire 2%nat]).

(** The sample world 300 ms after that second call, no timer having fired
    since. *)
Definition sample_superseded : State :=
  default sample
    (run (animateWindowBounds (Some 7%nat) (only_x 50) None (Some 2%nat) sample_mid)
       [Elapse 300]).

(** The fields of [r] that [{ x?, y? }] does not name, and its size, are
    those of [start]. *)
Definition kept (start : Rectangle) (tx ty : option Z) (r : Rectangle) : Prop :=
  Rectangle.width r = Rectangle.width start
  ∧ Rectangle.height r = Rectangle.height start
  ∧ (tx = None → Rectangle.x r = Rectangle.x start)
  ∧ (ty = None → Rectangle.y r = Rectangle.y start).

(** The scenario of C8: the window at [{0, 0, 100, 100}],
    [animateWindowPosition(w, { x: 200 }, { duration: 300 })], then three
    steps, the last one 300 ms after the call. *)
Definition scenario_end : State :=
  default sample
    (run (animateWindowPosition (Some 7%nat) (Some 200) None (Some 300%Q) None
            sample)
       [Elapse 8; Fire 0%nat; Elapse 150; Fire 1%nat; Elapse 142; Fire 2%nat]).

Definition closure_duration (c : closure) : Q :=
  match c with
  | StepWindow e => w_duration e
  | StepFade e => f_duration e
  | StepBounds e => b_duration e
  end.

Definition closure_startTime (c : closure) : Z :=
  match c with
  | StepWindow e => w_startTime e
  | StepFade e => f_startTime e
  | StepBounds e => b_startTime e
  end.

(** The values that a step of [animateWindowBounds] writes on one field,
    [elapsed] ms after the start: the interpolated one, then the exact
    target if the progress is at 1. *)
Definition writesA (A : Arith) (start target : Z) (duration : Q) (elapsed : Z)
    : list Z :=
  coordA A start (inject_Z target) (easedA A (progressA A elapsed duration))
  :: if Qlt_le_dec (progressA A elapsed duration) 1 then [] else [target].

(** The setter calls of the step that completes a session at time [t],
    newest first.  The steps of [animateWindowBounds] and of [fade] apply
    the interpolated value and then the exact target; the step of
    [animateWindow] applies the interpolated bounds only. *)
Definition completing_writes (A : Arith) (c : closure) (t : Z) : list obs :=
  match c with
  | StepWindow e => [SetBounds (w_sid e) (w_win e) (windowBoundsA A e t)]
  | StepFade e =>
      [SetOpacity (f_sid e) (f_win e) (JNum (f_to e));
       SetOpacity (f_sid e) (f_win e)
         (fade_valueA A e (fade_easedA A (fade_progressA A e t)))]
  | StepBounds e =>
      [SetBounds (b_sid e) (b_win e) (b_finalTargetBounds e);
       SetBounds (b_sid e) (b_win e) (newBoundsA A e t)]
  end.

(** The window of the session holds what the last of these calls gave it:
    the exact target of [animateWindowBounds] or [fade], the bounds that
    the step of [animateWindow] computed. *)
Definition settled (A : Arith) (c : closure) (t : Z) (s : State) : Prop :=
  match c with
  | StepWindow e => getBounds (w_win e) s = windowBoundsA A e t
  | StepFade e => getOpacity (f_win e) s = JNum (f_to e)
  | StepBounds e => getBounds (b_win e) s = b_finalTargetBounds e
  end.

(** The sample world 300 ms after [sample_started], no timer having fired
    yet. *)
Definition sample_late : State :=
  default sample (run sample_started [Elapse 300]).

(** The values [vs], taken in order after [prev], move from [s] towards [t]
    without ever going back or past [t]. *)
Fixpoint chain (s t prev : Z) (vs : list Z) : Prop :=
  match vs with
  | [] => True
  | v :: vs => towards s t prev v ∧ chain s t v vs
  end.

(** The same for opacities, all of which must be finite. *)
Definition Qtowards (a b v1 v2 : Q) : Prop :=
  ((a <= v1 ∧ v1 <= v2 ∧ v2 <= b) ∨ (b <= v2 ∧ v2 <= v1 ∧ v1 <= a))%Q.

Definition js_towards (a b : Q) (v1 v2 : jsnum) : Prop :=
  match v1, v2 with
  | JNum q1, JNum q2 => Qtowards a b q1 q2
  | _, _ => False
  end.

Fixpoint js_chain (a b : Q) (prev : jsnum) (vs : list jsnum) : Prop :=
  match vs with
  | [] => True
  | v :: vs => js_towards a b prev v ∧ js_chain a b v vs
  end.

(** The rectangles that the step of [animateWindowBounds] gives to
    [setBounds] when run at time [t] on a valid window, in order: the
    interpolated one, then the exact target if the progress is at 1. *)
Definition bounds_writesA (A : Arith) (e : BoundsEnv) (t : Z) : list Rectangle :=
  newBoundsA A e t
  :: if Qlt_le_dec (bounds_progressA A e t) 1 then []
     else [b_finalTargetBounds e].

(** The opacities that the step of [fade] gives to [setOpacity] when run at
    time [t] on a valid window, in order. *)
Definition fade_writesA (A : Arith) (e : FadeEnv) (t : Z) : list jsnum :=
  fade_valueA A e (fade_easedA A (fade_progressA A e t))
  :: if js_ltb (fade_progressA A e t) (JNum 1) then [] else [JNum (f_to e)].

(** The opacities given to [setOpacity] on [w], newest first. *)
Definition opacity_written (w : handle) (tr : list obs) : list jsnum :=
  omap (λ o, match o with
             | SetOpacity _ w' v => if decide (w' = w) then Some v else None
             | _ => None
             end) tr.

(** The four fields of a rectangle are safe. *)
Definition safe_rect (r : Rectangle) : Prop :=
  safe (Rectangle.x r) ∧ safe (Rectangle.y r)
  ∧ safe (Rectangle.width r) ∧ safe (Rectangle.height r).

(** A session of [animateWindowBounds] from [x = 0] to [x = 500], started at
    1000 and 300 ms long. *)
Definition sample_env500 : BoundsEnv :=
  mkBoundsEnv 0 7 (Rectangle.mk 0 0 100 100) (Rectangle.mk 500 0 100 100)
    1000 300 (Some 1%nat).

(** The sample world 300 ms after
    [animateWindow(win, 100, 0, { onComplete })], no timer having fired, and
    what the call captured. *)
Definition sample_legacy_late : State :=
  default sample
    (run sample
       [AnimateWindow (Some 7%nat) 100 0 None (Some 1%nat) None; Elapse 300]).

Definition sample_envW : WindowEnv :=
  mkWindowEnv 0 7 (Rectangle.mk 0 0 100 100) 1000 300 100 0 100 100
    (Some 1%nat).

(** A world whose window is at [x = -1], 300 ms after
    [animateWindow(win, 2 ^ 53, 0, { onComplete })], no timer having fired. *)
Definition sample_far : State :=
  default sample
    (run (init {[ 7%nat := mkWindow (Rectangle.mk (-1) 0 100 100) (JNum 1) false ]}
            1000)
       [AnimateWindow (Some 7%nat) (inject_Z (2 ^ 53)) 0 None (Some 1%nat) None;
        Elapse 300]).

(** The opacity [startOpacity + (to - startOpacity) * eased] when the start
    opacity [a] is finite. *)
Definition fade_q (a b p : Q) : Q := (a + (b - a) * easeOutCubic p)%Q.

(** ** Further vocabulary *)

(** What the fields of the manager and the timers of the host always
    satisfy: [isAnimating] is set whenever [animationTimers] has an entry,
    a pending step is due at most 8 ms from now, and its session did not
    start in the future. *)
Record tidy (s : State) : Prop := mkTidy {
  tidy_flag : animationTimers s ≠ ∅ → isAnimating s = true;
  tidy_due : ∀ tid due c, timers s !! tid = Some (due, c) → due ≤ now s + 8;
  tidy_start : ∀ tid due c,
    timers s !! tid = Some (due, c) → closure_startTime c ≤ now s
}.

(** A finite JavaScript number, up to the equality of rationals. *)
Definition js_eq (a : jsnum) (q : Q) : Prop :=
  match a with
  | JNum p => (p == q)%Q
  | _ => False
  end.


(** The effect [o] is not a setter call on a window that is destroyed, or
    missing, in [s]. *)
Definition on_valid_window (s : State) (o : obs) : Prop :=
  match o with
  | SetBounds _ w _ | SetOpacity _ w _ => isDestroyed w s = false
  | Completed _ _ => True
  end.

(** The targets that a layout holds for the window [w], in the order in
    which the loop of [animateLayout] meets them. *)
Definition layout_targets (windowPool : gmap string nat) (w : handle)
    (layout : list (string * option PartialRectangle)) : list PartialRectangle :=
  omap (λ entry, if decide (windowPool !! entry.1 = Some w) then entry.2 else None)
    layout.

(** One turn of the loop of [animateLayout]. *)
Definition layout_turn (windowPool : gmap string nat) (animated : bool)
    (s : State) (entry : string * option PartialRectangle) : State :=
  match windowPool !! entry.1, entry.2 with
  | Some win, Some targetBounds =>
      if isDestroyed win s then s
      else if animated
           then animateWindowBounds (Some win) targetBounds None None s
           else applyLayout win targetBounds s
  | _, _ => s
  end.

(** The sample world after the window has been destroyed under a session in
    flight, 8 ms after the call. *)
Definition sample_orphan : State :=
  default sample
    (run sample_started [WindowDestroyed 7%nat; Elapse 8]).


(** The object [{}]. *)
Definition no_field : PartialRectangle :=
  PartialRectangle.mk None None None None.

(** ** Tactics *)

Ltac unfold_ops :=
  unfold invoke, setBounds, setOpacity, setTimeout, clearTimeout, emit,
    set_windows, set_isAnimating, set_animationTimers, set_timers, set_now,
    new_session.

Ltac unfold_I :=
  unfold I, table_exact, stale_ok, running_ok, running, no_bounds_pending,
    pending in *.

Ltac name_session s s1 :=
  change (new_session s) with (nextSession s, (new_session s).2);
  cbv beta iota; set (s1 := (new_session s).2) in *.

Ltac solve_win :=
  intros; destruct_or?; try done;
  unfold getBounds, getOpacity, isDestroyed; simpl;
  rewrite ?lookup_alter; repeat case_decide; subst;
  repeat match goal with
  | |- context [windows ?s !! ?w] => destruct (windows s !! w); simpl
  end;
  try done; try naive_solver.

Ltac split_trace :=
  match goal with
  | |- ∃ new, ?t = new ++ ?t ∧ _ => exists []
  | |- ∃ new, ?a :: ?t = new ++ ?t ∧ _ => exists [a]
  | |- ∃ new, ?a :: ?b :: ?t = new ++ ?t ∧ _ => exists [a; b]
  | |- ∃ new, ?a :: ?b :: ?c :: ?t = new ++ ?t ∧ _ => exists [a; b; c]
  end; split; [done|]; repeat apply Forall_cons_2; try apply Forall_nil;
  simpl; naive_solver.

Ltac solve_pending :=
  unfold pending; simpl;
  intros ?tid ?c' [?d Hp];
  repeat match type of Hp with
  | <[_ := _]> _ !! _ = Some _ =>
      apply lookup_insert_Some in Hp as [[? ?]|[? Hp]]; simplify_eq
  | delete _ _ !! _ = Some _ =>
      apply lookup_delete_Some in Hp as [? Hp]
  end; eauto.

Ltac solve_short :=
  unfold_ops; simpl; split; simpl; try done; solve_pending.

(** ** The invariant is kept *)

Lemma wf_I s : wf s ↔ I None None s.
Proof.
  unfold wf, I, stale_ok, running_ok, table_exact. split.
  - intros [? HT]. split_and!; [done| |done|done]. intros; by apply HT.
  - intros (? & HT & _). split; [done|]. intros; by apply HT.
Qed.

Lemma I_weaken X R s : I X R s → I X None s.
Proof. intros (? & ? & ? & ?). by split_and!. Qed.

(** The invariant reads the timers, the table, the two counters and the
    completions of the trace, nothing else. *)
Lemma I_ext X R s s' :
  timers s' = timers s → animationTimers s' = animationTimers s →
  nextTimer s' = nextTimer s → nextSession s' = nextSession s →
  completed_sids (trace s') = completed_sids (trace s) →
  I X R s → I X R s'.
Proof.
  destruct s, s'; simpl. intros -> -> -> -> E5 ([H1 H2 H3 H4 H5 H6 H7] & HT & HS & HR).
  unfold I, table_exact, stale_ok, running_ok, running, no_bounds_pending,
    pending in *; simpl in *.
  split_and!; [split|..]; simpl; rewrite ?E5; done.
Qed.

Lemma I_setBounds X R sid w r s : I X R s → I X R (setBounds sid w r s).
Proof. by apply I_ext. Qed.

Lemma I_setOpacity X R sid w o s : I X R s → I X R (setOpacity sid w o s).
Proof. by apply I_ext. Qed.

Lemma I_set_isAnimating X R b s : I X R s → I X R (set_isAnimating b s).
Proof. by apply I_ext. Qed.

Lemma I_set_now X R t s : I X R s → I X R (set_now t s).
Proof. by apply I_ext. Qed.

Lemma I_destroy_window X R w s : I X R s → I X R (destroy_window w s).
Proof. by apply I_ext. Qed.

Lemma timer_fresh s :
  (∀ tid c, pending s tid c → (tid < nextTimer s)%nat) →
  timers s !! nextTimer s = None.
Proof.
  intros H. destruct (timers s !! nextTimer s) as [[d c]|] eqn:E; [|done].
  assert (nextTimer s < nextTimer s)%nat by (apply (H _ c); by exists d). lia.
Qed.

Lemma I_invoke X sid oc s : I X (Some sid) s → I X None (invoke sid oc s).
Proof.
  destruct oc as [cb|]; [|apply I_weaken].
  intros ([H1 H2 H3 H4 H5 H6 H7] & HT & HS & HR).
  destruct (HR sid eq_refl) as (R1 & R2 & R3).
  unfold_I; unfold_ops; simpl.
  split_and!; [split|..]; unfold pending in *; simpl; try done.
  - intros sid' [->|?]%elem_of_cons; eauto.
  - intros tid c Hp [E|?]%elem_of_cons; [by eapply R2|by eapply H5].
  - by constructor.
Qed.

Lemma I_new_session X s :
  I X None s → I X (Some (nextSession s)) (snd (new_session s)).
Proof.
  intros ([H1 H2 H3 H4 H5 H6 H7] & HT & HS & HR).
  unfold_I; unfold_ops; simpl.
  split_and!; [split|..]; unfold pending in *; simpl; try done.
  - intros ?? Hp. apply H2 in Hp. lia.
  - intros ? Hp. apply H3 in Hp. lia.
  - intros ? [= <-]. split_and!; [lia| |].
    + intros ?? Hp ?. apply H2 in Hp. lia.
    + intros Hp. apply H3 in Hp. lia.
Qed.

Lemma I_setTimeout c d s :
  (∀ e, c ≠ StepBounds e) →
  I None (Some (closure_sid c)) s → I None None (snd (setTimeout c d s)).
Proof.
  intros Hc ([H1 H2 H3 H4 H5 H6 H7] & HT & HS & HR).
  destruct (HR _ eq_refl) as (R1 & R2 & R3).
  assert (Hfresh : timers s !! nextTimer s = None) by by apply timer_fresh.
  unfold_I; unfold_ops; simpl.
  split_and!; [split|..]; unfold pending in *; simpl; try done.
  - intros tid c' [due Hp]. apply lookup_insert_Some in Hp as [[<- _]|[_ Hp]]; [lia|].
    assert (tid < nextTimer s)%nat by eauto. lia.
  - intros tid c' [due Hp]. apply lookup_insert_Some in Hp as [[<- [= _ <-]]|[_ Hp]]; eauto.
  - intros tid tid' c1 c2 [d1 Hp1] [d2 Hp2] E.
    apply lookup_insert_Some in Hp1 as [[<- [= _ <-]]|[? Hp1]];
      apply lookup_insert_Some in Hp2 as [[<- [= _ <-]]|[? Hp2]]; try done.
    + exfalso. eapply R2; eauto.
    + exfalso. eapply R2; eauto.
    + eauto.
  - intros tid c' [due Hp]. apply lookup_insert_Some in Hp as [[<- [= _ <-]]|[_ Hp]]; eauto.
  - intros tid e [due Hp]. apply lookup_insert_Some in Hp as [[_ [= _ Ec]]|[_ Hp]]; eauto.
    by destruct (Hc e).
  - intros w tid _ Ht. destruct (HT w tid) as (e & [due Hp] & Hw); [done..|].
    exists e. split; [|done]. exists due. rewrite lookup_insert_ne; [done|].
    intros <-. by rewrite Hfresh in Hp.
Qed.

(** [timerId = setTimeout(step, 8); animationTimers.set(win, timerId)] *)
Lemma I_schedule_bounds e d s :
  I (Some (b_win e)) (Some (b_sid e)) s →
  I None None
    (set_animationTimers <[b_win e := nextTimer s]>
       (snd (setTimeout (StepBounds e) d s))).
Proof.
  intros ([H1 H2 H3 H4 H5 H6 H7] & HT & HS & HR).
  destruct (HR _ eq_refl) as (R1 & R2 & R3).
  destruct (HS _ eq_refl) as (S1 & S2).
  assert (Hfresh : timers s !! nextTimer s = None) by by apply timer_fresh.
  unfold_I; unfold_ops; simpl.
  split_and!; [split|..]; unfold pending in *; simpl; try done.
  - intros tid c' [due Hp]. apply lookup_insert_Some in Hp as [[<- _]|[_ Hp]]; [lia|].
    assert (tid < nextTimer s)%nat by eauto. lia.
  - intros tid c' [due Hp]. apply lookup_insert_Some in Hp as [[<- [= _ <-]]|[_ Hp]]; eauto.
  - intros tid tid' c1 c2 [d1 Hp1] [d2 Hp2] E.
    apply lookup_insert_Some in Hp1 as [[<- [= _ <-]]|[? Hp1]];
      apply lookup_insert_Some in Hp2 as [[<- [= _ <-]]|[? Hp2]]; try done.
    + exfalso. eapply R2; eauto.
    + exfalso. eapply R2; eauto.
    + eauto.
  - intros tid c' [due Hp]. apply lookup_insert_Some in Hp as [[<- [= _ <-]]|[_ Hp]]; eauto.
  - intros tid e' [due Hp]. apply lookup_insert_Some in Hp as [[<- [= _ <-]]|[? Hp]].
    + by rewrite lookup_insert_eq.
    + rewrite lookup_insert_ne; [eauto|]. intros E. eapply S1; eauto.
  - intros w tid _ Ht. apply lookup_insert_Some in Ht as [[<- <-]|[? Ht]].
    + exists e. split; [|done]. exists (now s + d). by rewrite lookup_insert_eq.
    + destruct (HT w tid) as (e' & [due Hp] & Hw); [congruence|done|].
      exists e'. split; [|done]. exists due. rewrite lookup_insert_ne; [done|].
      intros <-. by rewrite Hfresh in Hp.
Qed.

(** [animationTimers.delete(win)] *)
Lemma I_delete_entry w R s :
  I (Some w) R s → I None R (set_animationTimers (delete w) s).
Proof.
  intros ([H1 H2 H3 H4 H5 H6 H7] & HT & HS & HR).
  destruct (HS _ eq_refl) as (S1 & S2).
  unfold_I; unfold_ops; simpl.
  split_and!; [split|..]; unfold pending in *; simpl; try done.
  - intros tid e Hp. rewrite lookup_delete_ne; [eauto|]. intros E. eapply S1; eauto.
  - intros w' tid _ Ht. apply lookup_delete_Some in Ht as [? Ht].
    apply HT; [congruence|done].
Qed.

(** [clearTimeout(animationTimers.get(win))] without forgetting the entry. *)
Lemma I_clear_entry w R s :
  I None R s →
  I (Some w) R
    match animationTimers s !! w with
    | Some tid => clearTimeout tid s
    | None => s
    end.
Proof.
  intros ([H1 H2 H3 H4 H5 H6 H7] & HT & HS & HR).
  destruct (animationTimers s !! w) as [tid0|] eqn:E0.
  - unfold_I; unfold_ops; simpl.
    split_and!; [split|..]; unfold pending in *; simpl.
    + intros tid c [due [_ Hp]%lookup_delete_Some]; eauto.
    + intros tid c [due [_ Hp]%lookup_delete_Some]; eauto.
    + done.
    + intros tid tid' c c' [d1 [_ Hp1]%lookup_delete_Some]
        [d2 [_ Hp2]%lookup_delete_Some]; eauto.
    + intros tid c [due [_ Hp]%lookup_delete_Some]; eauto.
    + done.
    + intros tid e [due [_ Hp]%lookup_delete_Some]; eauto.
    + intros w' tid Hw Ht. destruct (HT w' tid) as (e & [due Hp] & Hw'); [done..|].
      exists e. split; [|done]. exists due. rewrite lookup_delete_ne; [done|].
      intros <-. destruct (HT w tid0) as (e0 & [due0 Hp0] & Hw0); [done..|].
      simplify_eq. 
    + intros ? [= <-]. split.
      * intros tid e [due [Hne Hp]%lookup_delete_Some] Hw.
        assert (animationTimers s !! b_win e = Some tid) by eauto. congruence.
      * intros tid c Ht [due [? _]%lookup_delete_Some]. congruence.
    + intros sid Hs. destruct (HR sid Hs) as (R1 & R2 & R3). split_and!; [done| |done].
      intros tid c [due [_ Hp]%lookup_delete_Some]; eauto.
  - unfold_I. split_and!; [by split|..].
    + intros; eauto.
    + intros ? [= <-]. split; [|congruence].
      intros tid e Hp Hw. assert (animationTimers s !! b_win e = Some tid) by eauto.
      congruence.
    + done.
Qed.

Lemma I_forget w R s :
  animationTimers s !! w = None → I (Some w) R s → I None R s.
Proof.
  intros E (Hi & HT & HS & HR). unfold_I. split_and!; try done.
  intros w' tid _ Ht. apply HT; [|done]. congruence.
Qed.

Lemma clearTimeout_stale w R tid s :
  I (Some w) R s → animationTimers s !! w = Some tid → clearTimeout tid s = s.
Proof.
  intros (_ & _ & HS & _) E. destruct (HS w eq_refl) as [_ S2].
  assert (timers s !! tid = None) as Hn.
  { destruct (timers s !! tid) as [[due c]|] eqn:Et; [|done].
    destruct (S2 tid c E). by exists due. }
  destruct s; unfold_ops; simpl in *. f_equal. by apply delete_id.
Qed.

(** [_isWindowValid] on a window that is missing or destroyed. *)
Lemma I_isWindowValid_false X R w s s' :
  X = None ∨ X = Some w →
  _isWindowValid (Some w) s = (false, s') → I X R s → I None R s'.
Proof.
  unfold _isWindowValid. destruct (isDestroyed w s); [|done].
  intros HX [= <-] Hi.
  destruct HX as [-> | ->].
  - pose proof (I_clear_entry w R s Hi) as Hc.
    destruct (animationTimers s !! w) as [tid|] eqn:E; [|done].
    by apply I_delete_entry.
  - destruct (animationTimers s !! w) as [tid|] eqn:E.
    + rewrite (clearTimeout_stale w R tid s) by done. by apply I_delete_entry.
    + by apply I_forget with w.
Qed.

Lemma isWindowValid_true win s s' :
  _isWindowValid win s = (true, s') →
  s' = s ∧ ∃ w, win = Some w ∧ isDestroyed w s = false.
Proof.
  unfold _isWindowValid. destruct win as [w|]; [|done].
  destruct (isDestroyed w s) eqn:E; [done|].
  intros [= <-]. eauto.
Qed.

(** The event loop takes a due timer off its table and runs its callback. *)
Lemma I_fire tid due c s :
  timers s !! tid = Some (due, c) →
  I None None s → I (stale_of c) (Some (closure_sid c)) (clearTimeout tid s).
Proof.
  intros Hc ([H1 H2 H3 H4 H5 H6 H7] & HT & HS & HR).
  assert (Hpc : pending s tid c) by by exists due.
  unfold_I; unfold_ops; simpl.
  split_and!; [split|..]; unfold pending in *; simpl.
  - intros tid' c' [d [_ Hp]%lookup_delete_Some]; eauto.
  - intros tid' c' [d [_ Hp]%lookup_delete_Some]; eauto.
  - done.
  - intros t1 t2 c1 c2 [d1 [_ Hp1]%lookup_delete_Some]
      [d2 [_ Hp2]%lookup_delete_Some]; eauto.
  - intros tid' c' [d [_ Hp]%lookup_delete_Some]; eauto.
  - done.
  - intros tid' e [d [_ Hp]%lookup_delete_Some]; eauto.
  - intros w tid' Hw Ht. destruct (HT w tid') as (e & [d Hp] & He); [done..|].
    exists e. split; [|done]. exists d. rewrite lookup_delete_ne; [done|].
    intros <-. by simplify_eq.
  - intros w Hw. split.
    + intros tid' e [d [Hne Hp]%lookup_delete_Some] He.
      destruct c as [| |e0]; simplify_eq/=.
      assert (animationTimers s !! b_win e = Some tid') by eauto.
      assert (animationTimers s !! b_win e0 = Some tid) by eauto. congruence.
    + intros tid' c' Ht [d [Hne Hp]%lookup_delete_Some].
      destruct c as [| |e0]; simplify_eq/=.
      assert (animationTimers s !! b_win e0 = Some tid) by eauto. congruence.
  - intros sid [= <-]. split_and!; eauto.
    intros tid' c' [d [Hne Hp]%lookup_delete_Some] E. destruct Hne. eauto.
Qed.

Lemma stepBounds_I e s :
  I (Some (b_win e)) (Some (b_sid e)) s → I None None (stepBounds e s).
Proof.
  intros Hi. unfold stepBounds.
  destruct (_isWindowValid (Some (b_win e)) s) as [[] s1] eqn:EV; cbn [negb].
  - apply isWindowValid_true in EV as [-> _].
    destruct (Qlt_le_dec _ _).
    + apply (I_schedule_bounds e 8 (setBounds _ _ _ s)). by apply I_setBounds.
    + apply I_invoke.
      assert (I None (Some (b_sid e))
                (set_animationTimers (delete (b_win e))
                   (setBounds (b_sid e) (b_win e) (b_finalTargetBounds e)
                      (setBounds (b_sid e) (b_win e) (newBounds e (now s)) s))))
        by by apply I_delete_entry, I_setBounds, I_setBounds.
      case_decide; [by apply I_set_isAnimating|done].
  - apply I_invoke. eapply I_isWindowValid_false; [|done..]. by right.
Qed.

Lemma stepFade_I e s :
  I None (Some (f_sid e)) s → I None None (stepFade e s).
Proof.
  intros Hi. unfold stepFade.
  destruct (_isWindowValid (Some (f_win e)) s) as [[] s1] eqn:EV; cbn [negb].
  - apply isWindowValid_true in EV as [-> _].
    destruct (js_ltb _ _).
    + apply (I_setTimeout (StepFade e) 8 (setOpacity _ _ _ s)); [done|].
      by apply I_setOpacity.
    + by apply I_invoke, I_setOpacity, I_setOpacity.
  - apply I_invoke. eapply I_isWindowValid_false; [|done..]. by left.
Qed.

Lemma stepWindow_I e s :
  I None (Some (w_sid e)) s → I None None (stepWindow e s).
Proof.
  intros Hi. unfold stepWindow.
  destruct (_isWindowValid (Some (w_win e)) s) as [[] s1] eqn:EV; cbn [negb].
  - apply isWindowValid_true in EV as [-> _].
    destruct (Qlt_le_dec _ _).
    + apply (I_setTimeout (StepWindow e) 8 (setBounds _ _ _ s)); [done|].
      by apply I_setBounds.
    + by apply I_invoke, I_setBounds.
  - apply I_invoke. eapply I_isWindowValid_false; [|done..]. by left.
Qed.

Lemma run_closure_I c s :
  I (stale_of c) (Some (closure_sid c)) s → I None None (run_closure c s).
Proof.
  destruct c; simpl; [apply stepWindow_I|apply stepFade_I|apply stepBounds_I].
Qed.

Lemma animateWindow_I win tx ty so oc d s :
  I None None s → I None None (animateWindow win tx ty so oc d s).
Proof.
  intros Hi%I_new_session. unfold animateWindow.
  name_session s s1.
  destruct win as [w|]; [|by apply I_invoke].
  destruct (_isWindowValid (Some w) s1) as [[] s2] eqn:EV.
  - apply isWindowValid_true in EV as [-> _].
    destruct so as [[wd ht]|]; by apply stepWindow_I.
  - apply I_invoke. eapply I_isWindowValid_false; [|done..]. by left.
Qed.

Lemma fade_I win from to d oc s :
  I None None s → I None None (fade win from to d oc s).
Proof.
  intros Hi%I_new_session. unfold fade.
  name_session s s1.
  destruct win as [w|]; [|by apply I_invoke].
  destruct (_isWindowValid (Some w) s1) as [[] s2] eqn:EV.
  - apply isWindowValid_true in EV as [-> _]. by apply stepFade_I.
  - apply I_invoke. eapply I_isWindowValid_false; [|done..]. by left.
Qed.

Lemma animateWindowBounds_I win tb d oc s :
  I None None s → I None None (animateWindowBounds win tb d oc s).
Proof.
  intros Hi%I_new_session. unfold animateWindowBounds.
  name_session s s1.
  destruct win as [w|]; [|by apply I_invoke].
  apply (I_clear_entry w) in Hi. cbn [mbind option_bind].
  set (s2 := match animationTimers s1 !! w with
             | Some tid => clearTimeout tid s1
             | None => s1
             end) in *.
  destruct (_isWindowValid (Some w) s2) as [[] s3] eqn:EV.
  - apply isWindowValid_true in EV as [-> _].
    by apply stepBounds_I, I_set_isAnimating.
  - apply I_invoke. eapply I_isWindowValid_false; [|done..]. by right.
Qed.

Lemma animateWindowPosition_I win tx ty d oc s :
  I None None s → I None None (animateWindowPosition win tx ty d oc s).
Proof.
  intros Hi. unfold animateWindowPosition.
  destruct win as [w|]; [|by apply I_invoke, I_new_session].
  destruct (_isWindowValid (Some w) s) as [[] s2] eqn:EV.
  - apply isWindowValid_true in EV as [-> _]. by apply animateWindowBounds_I.
  - apply I_invoke, I_new_session. eapply I_isWindowValid_false; [|done..].
    by left.
Qed.

Lemma clear_all_spec m s :
  let s' := clear_all m s in
  windows s' = windows s ∧ isAnimating s' = isAnimating s
  ∧ animationTimers s' = animationTimers s
  ∧ nextTimer s' = nextTimer s ∧ nextSession s' = nextSession s
  ∧ now s' = now s ∧ trace s' = trace s
  ∧ (∀ tid x, timers s' !! tid = Some x → timers s !! tid = Some x)
  ∧ (∀ w tid, m !! w = Some tid → timers s' !! tid = None)
  ∧ (∀ tid, (∀ w, m !! w ≠ Some tid) → timers s' !! tid = timers s !! tid).
Proof.
  unfold clear_all.
  apply (map_fold_weak_ind (λ r m,
    windows r = windows s ∧ isAnimating r = isAnimating s
    ∧ animationTimers r = animationTimers s
    ∧ nextTimer r = nextTimer s ∧ nextSession r = nextSession s
    ∧ now r = now s ∧ trace r = trace s
    ∧ (∀ tid x, timers r !! tid = Some x → timers s !! tid = Some x)
    ∧ (∀ w tid, m !! w = Some tid → timers r !! tid = None)
    ∧ (∀ tid, (∀ w, m !! w ≠ Some tid) → timers r !! tid = timers s !! tid))).
  - split_and!; try done.
  - intros w t m' r Hw (? & ? & ? & ? & ? & ? & ? & A & B & C).
    unfold_ops; simpl. split_and!; try done.
    + intros tid x [_ Hx]%lookup_delete_Some. eauto.
    + intros w' tid [[-> ->]|[? Hl]]%lookup_insert_Some.
      * apply lookup_delete_eq.
      * apply lookup_delete_None. right. eauto.
    + intros tid Hno. rewrite lookup_delete_ne.
      * apply C. intros w' Hw'. apply (Hno w'). rewrite lookup_insert_ne; [done|].
        intros <-. congruence.
      * intros <-. apply (Hno w). by rewrite lookup_insert_eq.
Qed.

Lemma destroy_I s : I None None s → I None None (destroy s).
Proof.
  intros ([H1 H2 H3 H4 H5 H6 H7] & HT & HS & HR).
  unfold destroy.
  destruct (clear_all_spec (animationTimers s) s)
    as (E1 & E2 & E3 & E4 & E5 & E6 & E7 & A & B & C).
  set (s' := clear_all (animationTimers s) s) in *.
  unfold_I; unfold_ops; simpl.
  split_and!; [split|..]; unfold pending in *; simpl;
    rewrite ?E4, ?E5, ?E7; try done.
  - intros tid c [d Hp]. eauto.
  - intros tid c [d Hp]. eauto.
  - intros t1 t2 c1 c2 [d1 Hp1] [d2 Hp2]. apply (H4 t1 t2 c1 c2); eauto.
  - intros tid c [d Hp]. eauto.
  - intros tid e [d Hp]. assert (animationTimers s !! b_win e = Some tid) by eauto.
    erewrite B in Hp; done.
Qed.

(** Every event keeps the invariant. *)
Lemma step_wf s ev s' : wf s → step s ev = Some s' → wf s'.
Proof.
  rewrite !wf_I. intros Hi.
  destruct ev; simpl.
  - intros [= <-]. by apply animateWindow_I.
  - intros [= <-]. by apply fade_I.
  - intros [= <-]. by apply animateWindowBounds_I.
  - intros [= <-]. by apply animateWindowPosition_I.
  - intros [= <-]. by apply destroy_I.
  - intros [= <-]. by apply I_destroy_window.
  - case_decide; [|done]. intros [= <-]. by apply I_set_now.
  - destruct (timers s !! tid) as [[due c]|] eqn:E; [|done].
    case_decide; [|done]. intros [= <-].
    apply run_closure_I. by eapply I_fire.
  - destruct (isDestroyed w s); [done|]. intros [= <-].
    by apply (I_weaken _ (Some (nextSession s))), I_setBounds, I_new_session.
Qed.

Lemma run_wf evs s s' : wf s → run s evs = Some s' → wf s'.
Proof.
  revert s. induction evs as [|ev evs IH]; simpl; intros s Hwf.
  - by intros [= <-].
  - destruct (step s ev) as [s1|] eqn:E; [|done]. simpl.
    apply IH. by eapply step_wf.
Qed.

Lemma init_wf ws t0 : wf (init ws t0).
Proof.
  split; [split|]; unfold pending, table_exact; simpl; try done.
  all: try (intros ?? [? ?]; done).
  - intros ? ?%elem_of_nil. done.
  - intros ???? [? ?]. done.
  - constructor.
Qed.

(** ** Arithmetic of the interpolation *)

Section Interpolation.
Local Open Scope Q_scope.

(** [lra] after the injected integers are made opaque atoms. *)
Ltac qlra :=
  change (inject_Z 0) with 0%Q in *; change (inject_Z 1) with 1%Q in *;
  repeat match goal with
  | |- context [inject_Z ?z] =>
      let q := fresh "q" in set (q := inject_Z z) in *; clearbody q
  | H : context [inject_Z ?z] |- _ =>
      let q := fresh "q" in set (q := inject_Z z) in *; clearbody q
  end;
  lra.

Lemma Math_round_spec (q : Q) (z : Z) :
  inject_Z z <= q + (1 # 2) → q + (1 # 2) < inject_Z (z + 1) →
  Math_round q = z.
Proof.
  intros Hlo Hhi. unfold Math_round.
  apply Z.le_antisymm.
  - apply Z.lt_succ_r. rewrite Zlt_Qlt.
    eapply Qle_lt_trans; [apply Qfloor_le|]. done.
  - rewrite <- (Qfloor_Z z). by apply Qfloor_resp_le.
Qed.

Lemma Math_round_Z (z : Z) : Math_round (inject_Z z) = z.
Proof. apply Math_round_spec; rewrite ?inject_Z_plus; qlra. Qed.

Lemma Math_round_mono (p q : Q) : p <= q → (Math_round p <= Math_round q)%Z.
Proof. intros. apply Qfloor_resp_le. lra. Qed.

Lemma Math_round_comp (p q : Q) : p == q → Math_round p = Math_round q.
Proof. intros E. apply Qfloor_comp. by rewrite E. Qed.

Lemma square_nonneg (a : Q) : 0 <= a * a.
Proof. nra. Qed.

Lemma cube_mono (a b : Q) : a <= b → a ^ 3 <= b ^ 3.
Proof.
  intros H. simpl. unfold Qpower_positive, pow_pos; simpl.
  pose proof (square_nonneg (2 * a + b)).
  pose proof (square_nonneg b).
  assert (0 <= (b - a) * ((2 * a + b) * (2 * a + b) + 3 * (b * b))).
  { apply Qmult_le_0_compat; lra. }
  lra.
Qed.

Lemma easeOutCubic_0 : easeOutCubic 0 == 0.
Proof. reflexivity. Qed.

Lemma easeOutCubic_comp (p q : Q) : p == q → easeOutCubic p == easeOutCubic q.
Proof. intros E. unfold easeOutCubic. by rewrite E. Qed.

Lemma lerp_round_0 (s t : Z) (e : Q) : e == 0 → lerp_round s t e = s.
Proof.
  intros E. unfold lerp_round. etrans; [|apply (Math_round_Z s)].
  apply Math_round_comp. rewrite E. ring.
Qed.

Lemma lerp_round_to_0 (s : Z) (t e : Q) : e == 0 → lerp_round_to s t e = s.
Proof.
  intros E. unfold lerp_round_to. etrans; [|apply (Math_round_Z s)].
  apply Math_round_comp. rewrite E. ring.
Qed.

(** A field whose target is its start value is written unchanged. *)
Lemma lerp_round_const (s : Z) (e : Q) : lerp_round s s e = s.
Proof.
  unfold lerp_round. etrans; [|apply (Math_round_Z s)].
  apply Math_round_comp. ring.
Qed.

Lemma progress_at_done el d :
  0 < d → d <= inject_Z el → progress_at el d == 1.
Proof.
  intros Hd Hel. apply Q.min_l. apply Qle_shift_div_l; [done|]. qlra.
Qed.

Lemma progress_at_start d : ¬ d == 0 → progress_at 0 d == 0.
Proof.
  intros Hd. unfold progress_at.
  assert (inject_Z 0 / d == 0) as -> by (field; done).
  reflexivity.
Qed.

(** With a negative duration the progress never reaches 1 as time goes on. *)
Lemma progress_at_negative el d :
  (0 <= el)%Z → d < 0 → progress_at el d <= 0.
Proof.
  intros Hel Hd. eapply Qle_trans; [apply Q.le_min_r|].
  rewrite Zle_Qle in Hel. change (inject_Z 0) with 0 in Hel.
  assert (0 <= inject_Z el * / - d).
  { apply Qmult_le_0_compat; [done|].
    apply Qlt_le_weak, Qinv_lt_0_compat. lra. }
  assert (inject_Z el / d == - (inject_Z el * / - d)) as ->; [|qlra].
  field. lra.
Qed.

End Interpolation.

(** ** Rounded arithmetic *)

(** What follows holds in every arithmetic that satisfies [ArithOK]. *)

Section Rounded.
Context (A : Arith) (OK : ArithOK A).
Local Open Scope Q_scope.

Lemma rnd_0 : rnd A 0 == 0.
Proof. apply (rnd_int A OK 0%Z). simpl. lia. Qed.

Lemma rnd_1 : rnd A 1 == 1.
Proof. apply (rnd_int A OK 1%Z). simpl. lia. Qed.

Lemma rnd_nonneg q : 0 <= q → 0 <= rnd A q.
Proof. intros H. rewrite <- rnd_0. by apply rnd_mono. Qed.

Lemma rnd_le_1 q : q <= 1 → rnd A q <= 1.
Proof. intros H. rewrite <- rnd_1. by apply rnd_mono. Qed.

Lemma progressA_le_1 el d : progressA A el d <= 1.
Proof. apply Q.le_min_l. Qed.

Lemma progressA_nonneg el d : (0 ≤ el)%Z → 0 < d → 0 <= progressA A el d.
Proof.
  intros Hel Hd. apply Q.min_glb; [done|]. apply rnd_nonneg.
  apply Qle_shift_div_l; [done|]. rewrite Qmult_0_l.
  change 0 with (inject_Z 0). by rewrite <- Zle_Qle.
Qed.

Lemma progressA_mono el1 el2 d :
  0 < d → (el1 ≤ el2)%Z → progressA A el1 d <= progressA A el2 d.
Proof.
  intros Hd Hel. apply Q.min_le_compat_l, rnd_mono; [done|].
  apply Qmult_le_compat_r; [by rewrite <- Zle_Qle|].
  apply Qlt_le_weak, Qinv_lt_0_compat, Hd.
Qed.

Lemma progressA_done el d :
  0 < d → d <= inject_Z el → progressA A el d == 1.
Proof.
  intros Hd Hel. apply Q.min_l. rewrite <- rnd_1. apply rnd_mono; [done|].
  apply Qle_shift_div_l; [done|]. by rewrite Qmult_1_l.
Qed.

Lemma easedA_range p : 0 <= p → p <= 1 → 0 <= easedA A p <= 1.
Proof.
  intros H0 H1. unfold easedA.
  assert (0 <= rnd A (1 - p)) as Ha by (apply rnd_nonneg; lra).
  assert (rnd A (1 - p) <= 1) as Hb by (apply rnd_le_1; lra).
  pose proof (pow3_mono A OK 0 _ (Qle_refl 0) Ha) as Hc.
  pose proof (pow3_mono A OK _ 1 Ha Hb) as Hd.
  rewrite (pow3_0 A OK) in Hc. rewrite (pow3_1 A OK) in Hd.
  split; [apply rnd_nonneg|apply rnd_le_1]; lra.
Qed.

Lemma easedA_mono p q : p <= q → q <= 1 → easedA A p <= easedA A q.
Proof.
  intros Hpq H1. unfold easedA. apply rnd_mono; [done|].
  assert (0 <= rnd A (1 - q)) as Ha by (apply rnd_nonneg; lra).
  assert (rnd A (1 - q) <= rnd A (1 - p)) as Hb by (apply rnd_mono; [done|lra]).
  pose proof (pow3_mono A OK _ _ Ha Hb). lra.
Qed.

Lemma easedA_0 p : p == 0 → easedA A p == 0.
Proof.
  intros E. unfold easedA.
  assert (rnd A (1 - p) == 1) as E1.
  { apply Qeq_trans with (rnd A 1); [apply rnd_comp; [done|lra]|apply rnd_1]. }
  assert (pow3 A (rnd A (1 - p)) == 1) as E2.
  { apply Qeq_trans with (pow3 A 1); [by apply pow3_comp|by apply pow3_1]. }
  apply Qeq_trans with (rnd A 0); [apply rnd_comp; [done|lra]|apply rnd_0].
Qed.

Lemma easedA_1 p : p == 1 → easedA A p == 1.
Proof.
  intros E. unfold easedA.
  assert (rnd A (1 - p) == 0) as E1.
  { apply Qeq_trans with (rnd A 0); [apply rnd_comp; [done|lra]|apply rnd_0]. }
  assert (pow3 A (rnd A (1 - p)) == 0) as E2.
  { apply Qeq_trans with (pow3 A 0); [by apply pow3_comp|by apply pow3_0]. }
  apply Qeq_trans with (rnd A 1); [apply rnd_comp; [done|lra]|apply rnd_1].
Qed.

End Rounded.

Section Coordinates.
Context (A : Arith) (OK : ArithOK A).
Local Open Scope Q_scope.

Lemma rnd_safe z : safe z → rnd A (inject_Z z) == inject_Z z.
Proof. unfold safe. intros H. apply (rnd_int A OK). lia. Qed.

Lemma rnd_diff s t :
  safe s → safe t → rnd A (inject_Z t - inject_Z s) == inject_Z t - inject_Z s.
Proof.
  unfold safe. intros Hs Ht.
  assert (inject_Z t - inject_Z s == inject_Z (t - s)) as E.
  { unfold Z.sub. rewrite inject_Z_plus, inject_Z_opp. reflexivity. }
  apply Qeq_trans with (rnd A (inject_Z (t - s))); [by apply rnd_comp|].
  apply Qeq_trans with (inject_Z (t - s)); [|by symmetry].
  apply (rnd_int A OK). lia.
Qed.

Lemma coordA_at_0 s t e : safe s → e == 0 → coordA A s t e = s.
Proof.
  intros Hs E. unfold coordA.
  etrans; [|apply (Math_round_Z s)]. apply Math_round_comp.
  assert (rnd A (rnd A (t - inject_Z s) * e) == 0) as E1.
  { apply Qeq_trans with (rnd A 0); [|by apply rnd_0].
    apply rnd_comp; [done|]. rewrite E. ring. }
  apply Qeq_trans with (rnd A (inject_Z s)); [|by apply rnd_safe].
  apply rnd_comp; [done|]. rewrite E1. ring.
Qed.

Lemma coordA_at_1 s t e :
  safe s → safe t → e == 1 → coordA A s (inject_Z t) e = t.
Proof.
  intros Hs Ht E. unfold coordA.
  etrans; [|apply (Math_round_Z t)]. apply Math_round_comp.
  pose proof (rnd_diff s t Hs Ht) as ED.
  assert (rnd A (rnd A (inject_Z t - inject_Z s) * e)
          == inject_Z t - inject_Z s) as E1.
  { apply Qeq_trans with (rnd A (inject_Z t - inject_Z s)); [|done].
    apply rnd_comp; [done|]. rewrite E, ED. ring. }
  apply Qeq_trans with (rnd A (inject_Z t)); [|by apply rnd_safe].
  apply rnd_comp; [done|]. rewrite E1. ring.
Qed.

Lemma coordA_up s t e1 e2 :
  safe s → safe t → (s ≤ t)%Z → e1 <= e2 →
  (coordA A s (inject_Z t) e1 ≤ coordA A s (inject_Z t) e2)%Z.
Proof.
  intros Hs Ht Hst He. unfold coordA.
  apply Math_round_mono, rnd_mono; [done|].
  apply Qplus_le_r, rnd_mono; [done|].
  pose proof (rnd_diff s t Hs Ht) as ED. rewrite Zle_Qle in Hst.
  set (D := rnd A (inject_Z t - inject_Z s)) in *.
  assert (0 <= D * (e2 - e1)) by (apply Qmult_le_0_compat; lra).
  lra.
Qed.

Lemma coordA_down s t e1 e2 :
  safe s → safe t → (t ≤ s)%Z → e1 <= e2 →
  (coordA A s (inject_Z t) e2 ≤ coordA A s (inject_Z t) e1)%Z.
Proof.
  intros Hs Ht Hst He. unfold coordA.
  apply Math_round_mono, rnd_mono; [done|].
  apply Qplus_le_r, rnd_mono; [done|].
  pose proof (rnd_diff s t Hs Ht) as ED. rewrite Zle_Qle in Hst.
  set (D := rnd A (inject_Z t - inject_Z s)) in *.
  assert (0 <= (- D) * (e2 - e1)) by (apply Qmult_le_0_compat; lra).
  lra.
Qed.

Lemma coordA_towards s t e1 e2 :
  safe s → safe t → 0 <= e1 → e1 <= e2 → e2 <= 1 →
  towards s t (coordA A s (inject_Z t) e1) (coordA A s (inject_Z t) e2).
Proof.
  intros Hs Ht H0 H12 H1. unfold towards.
  destruct (Z.le_ge_cases s t) as [Hst|Hst]; [left|right].
  - pose proof (coordA_up s t 0 e1 Hs Ht Hst H0) as L.
    pose proof (coordA_up s t e2 1 Hs Ht Hst H1) as R.
    rewrite (coordA_at_0 s _ 0) in L by done.
    rewrite (coordA_at_1 s t 1) in R by done.
    split_and!; [done| |done]. by apply coordA_up.
  - pose proof (coordA_down s t 0 e1 Hs Ht Hst H0) as L.
    pose proof (coordA_down s t e2 1 Hs Ht Hst H1) as R.
    rewrite (coordA_at_0 s _ 0) in L by done.
    rewrite (coordA_at_1 s t 1) in R by done.
    split_and!; [done| |done]. by apply coordA_down.
Qed.
End Coordinates.

Section Sequences.
Context (A : Arith) (OK : ArithOK A).
Local Open Scope Q_scope.

Lemma towards_end s t : towards s t t t.
Proof. unfold towards. lia. Qed.

Lemma coordA_done s t d el :
  safe s → safe t → 0 < d → d <= inject_Z el →
  coordA A s (inject_Z t) (easedA A (progressA A el d)) = t.
Proof.
  intros Hs Ht Hd Hel. apply coordA_at_1; [done..|].
  apply easedA_1; [done|]. by apply progressA_done.
Qed.

Lemma writesA_chain s t d el1 el2 :
  safe s → safe t → 0 < d → (0 ≤ el1)%Z → (el1 ≤ el2)%Z →
  chain s t s (writesA A s t d el1 ++ writesA A s t d el2).
Proof.
  intros Hs Ht Hd H1 H12.
  pose proof (progressA_nonneg A OK el1 d H1 Hd) as P1.
  pose proof (progressA_le_1 A el1 d) as Q1.
  pose proof (progressA_le_1 A el2 d) as Q2.
  pose proof (progressA_mono A OK el1 el2 d Hd H12) as P12.
  set (p1 := progressA A el1 d) in *. set (p2 := progressA A el2 d) in *.
  assert (0 <= p2) as P2 by lra.
  destruct (easedA_range A OK p1 P1 Q1) as [E1 F1].
  destruct (easedA_range A OK p2 P2 Q2) as [E2 F2].
  pose proof (easedA_mono A OK p1 p2 P12 Q2) as E12.
  assert (towards s t s (coordA A s (inject_Z t) (easedA A p1))) as T1.
  { pose proof (coordA_towards A OK s t 0 (easedA A p1) Hs Ht (Qle_refl 0) E1 F1)
      as T.
    by rewrite (coordA_at_0 A OK s (inject_Z t) 0 Hs) in T. }
  assert (towards s t (coordA A s (inject_Z t) (easedA A p1))
            (coordA A s (inject_Z t) (easedA A p2))) as T2
    by by apply coordA_towards.
  unfold writesA. fold p1 p2.
  destruct (Qlt_le_dec p1 1) as [L1|G1], (Qlt_le_dec p2 1) as [L2|G2]; simpl.
  - done.
  - assert (coordA A s (inject_Z t) (easedA A p2) = t) as E.
    { apply coordA_at_1; [done..|]. apply easedA_1; [done|]. lra. }
    rewrite E in *. split_and!; try done. apply towards_end.
  - exfalso. lra.
  - assert (coordA A s (inject_Z t) (easedA A p1) = t) as Ea.
    { apply coordA_at_1; [done..|]. apply easedA_1; [done|]. lra. }
    assert (coordA A s (inject_Z t) (easedA A p2) = t) as Eb.
    { apply coordA_at_1; [done..|]. apply easedA_1; [done|]. lra. }
    rewrite Ea, Eb in *. split_and!; try done; apply towards_end.
Qed.

Lemma opacityA_at_0 a b e : rnd A a == a → e == 0 → opacityA A a b e == a.
Proof.
  intros Ha E. unfold opacityA.
  assert (rnd A (rnd A (b - a) * e) == 0) as E1.
  { apply Qeq_trans with (rnd A 0); [|by apply rnd_0].
    apply rnd_comp; [done|]. rewrite E. ring. }
  apply Qeq_trans with (rnd A a); [|done].
  apply rnd_comp; [done|]. rewrite E1. ring.
Qed.

Lemma opacityA_up a b e1 e2 :
  a <= b → e1 <= e2 → opacityA A a b e1 <= opacityA A a b e2.
Proof.
  intros Hab He. unfold opacityA.
  apply rnd_mono; [done|]. apply Qplus_le_r, rnd_mono; [done|].
  assert (0 <= rnd A (b - a)) as HD by (apply rnd_nonneg; [done|lra]).
  set (D := rnd A (b - a)) in *.
  assert (0 <= D * (e2 - e1)) by (apply Qmult_le_0_compat; lra).
  lra.
Qed.

Lemma opacityA_down a b e1 e2 :
  b <= a → e1 <= e2 → opacityA A a b e2 <= opacityA A a b e1.
Proof.
  intros Hab He. unfold opacityA.
  apply rnd_mono; [done|]. apply Qplus_le_r, rnd_mono; [done|].
  assert (rnd A (b - a) <= 0) as HD.
  { rewrite <- (rnd_0 A OK). apply rnd_mono; [done|lra]. }
  set (D := rnd A (b - a)) in *.
  assert (0 <= (- D) * (e2 - e1)) by (apply Qmult_le_0_compat; lra).
  lra.
Qed.

Lemma opacityA_towards a b e1 e2 :
  rnd A a == a → 0 <= e1 → e1 <= e2 → e2 <= 1 →
  Qtowards a (opacityA A a b 1) (opacityA A a b e1) (opacityA A a b e2).
Proof.
  intros Ha H0 H12 H1. unfold Qtowards.
  destruct (Qlt_le_dec b a) as [Hba|Hab]; [right|left].
  - pose proof (opacityA_down a b 0 e1 (Qlt_le_weak _ _ Hba) H0) as L.
    rewrite (opacityA_at_0 a b 0 Ha) in L by done.
    split_and!; [|by apply opacityA_down; [lra|]|done].
    apply opacityA_down; [lra|done].
  - pose proof (opacityA_up a b 0 e1 Hab H0) as L.
    rewrite (opacityA_at_0 a b 0 Ha) in L by done.
    split_and!; [done|by apply opacityA_up|]. by apply opacityA_up.
Qed.

Lemma fadeA_towards a b d el1 el2 :
  rnd A a == a → 0 < d → (0 ≤ el1)%Z → (el1 ≤ el2)%Z →
  Qtowards a (opacityA A a b 1)
    (opacityA A a b (easedA A (progressA A el1 d)))
    (opacityA A a b (easedA A (progressA A el2 d))).
Proof.
  intros Ha Hd H1 H12.
  pose proof (progressA_nonneg A OK el1 d H1 Hd) as P1.
  pose proof (progressA_le_1 A el1 d) as Q1.
  pose proof (progressA_le_1 A el2 d) as Q2.
  pose proof (progressA_mono A OK el1 el2 d Hd H12) as P12.
  assert (0 <= progressA A el2 d) as P2 by lra.
  apply opacityA_towards; [done|..].
  - by apply (easedA_range A OK).
  - by apply easedA_mono.
  - by apply (easedA_range A OK).
Qed.
End Sequences.

Lemma opacityA_exact a b e : (opacityA exact a b e == a + (b - a) * e)%Q.
Proof. reflexivity. Qed.

Lemma exact_ok : ArithOK exact.
Proof.
  split; simpl; try done.
  - intros p q E. by rewrite E.
  - intros p q _ H. by apply cube_mono.
Qed.

(** ** Double precision satisfies [ArithOK] *)

Section Binary64.
Local Open Scope Q_scope.

Lemma pow2_pos k : 0 < 2 ^ k.
Proof. by apply Qpower_0_lt. Qed.

Lemma pow2_le m n : (m ≤ n)%Z → 2 ^ m <= 2 ^ n.
Proof. intros H. by apply Qpower_le_compat_l. Qed.

Lemma pow2_plus m n : 2 ^ (m + n) == 2 ^ m * 2 ^ n.
Proof. by apply Qpower_plus. Qed.

Lemma pow2_inject n : (0 ≤ n)%Z → inject_Z (2 ^ n) == 2 ^ n.
Proof. intros H. by rewrite Zpower_Qpower. Qed.

(** *** Rounding to the nearest integer *)

Lemma round_half_even_cases q :
  (q - inject_Z (Qfloor q) < 1 # 2 ∧ round_half_even q = Qfloor q)
  ∨ (1 # 2 < q - inject_Z (Qfloor q) ∧ round_half_even q = (Qfloor q + 1)%Z)
  ∨ (q - inject_Z (Qfloor q) == 1 # 2
     ∧ (round_half_even q = Qfloor q ∨ round_half_even q = (Qfloor q + 1)%Z)).
Proof.
  unfold round_half_even.
  destruct (Qcompare_spec (q - inject_Z (Qfloor q)) (1 # 2)) as [E|L|G].
  - right. right. split; [done|]. destruct (Z.even _); eauto.
  - by left.
  - right. by left.
Qed.

Lemma round_half_even_Z z : round_half_even (inject_Z z) = z.
Proof.
  destruct (round_half_even_cases (inject_Z z)) as [[_ E]|[[H _]|[H _]]];
    rewrite Qfloor_Z in *; [done|exfalso; lra..].
Qed.

Lemma round_half_even_comp p q : p == q → round_half_even p = round_half_even q.
Proof.
  intros E. unfold round_half_even. rewrite (Qfloor_comp p q E).
  assert (p - inject_Z (Qfloor q) == q - inject_Z (Qfloor q)) as E' by lra.
  by rewrite (Qcompare_comp _ _ E' (1 # 2) (1 # 2) (Qeq_refl _)).
Qed.

Lemma round_half_even_mono p q :
  p <= q → (round_half_even p ≤ round_half_even q)%Z.
Proof.
  intros H. apply Qle_lt_or_eq in H as [H|E].
  2:{ by rewrite (round_half_even_comp p q E). }
  pose proof (Qfloor_resp_le p q (Qlt_le_weak _ _ H)) as Hf.
  destruct (round_half_even_cases p) as [[Hp Ep]|[[Hp Ep]|[Hp Ep]]],
    (round_half_even_cases q) as [[Hq Eq]|[[Hq Eq]|[Hq Eq]]].
  all: destruct (Z.eq_dec (Qfloor p) (Qfloor q)) as [Ef|Nf];
    [rewrite <- ?Ef in *|destruct_or?; lia].
  all: destruct_or?; try lia; exfalso; lra.
Qed.

(** *** The binade of a positive rational *)

Lemma binade_spec q : 0 < q → 2 ^ binade q <= q ∧ q < 2 ^ (binade q + 1).
Proof.
  intros Hq. unfold binade.
  destruct q as [n d]. simpl Qnum. simpl Qden.
  assert (0 < n)%Z as Hn.
  { unfold Qlt in Hq. simpl in Hq. lia. }
  destruct (Z.log2_spec n Hn) as [An Bn].
  destruct (Z.log2_spec (Z.pos d) (Pos2Z.is_pos d)) as [Ad Bd].
  pose proof (Z.log2_nonneg n) as Na. pose proof (Z.log2_nonneg (Z.pos d)) as Nb.
  set (a := Z.log2 n) in *. set (b := Z.log2 (Z.pos d)) in *.
  rewrite Zle_Qle, pow2_inject in An, Ad by done.
  rewrite Zlt_Qlt, pow2_inject in Bn, Bd by lia.
  assert (0 < inject_Z (Z.pos d)) as Hd by (eapply Qlt_le_trans; [apply (pow2_pos b)|done]).
  assert (E : n # d == inject_Z n / inject_Z (Z.pos d)) by apply Qmake_Qdiv.
  set (N := inject_Z n) in *. set (D := inject_Z (Z.pos d)) in *.
  assert (U : n # d < 2 ^ (a - b + 1)).
  { rewrite E. apply Qlt_shift_div_r; [done|].
    eapply Qlt_le_trans; [exact Bn|].
    replace (Z.succ a) with ((a - b + 1) + b)%Z by lia. rewrite pow2_plus.
    apply Qmult_le_l; [apply pow2_pos|done]. }
  assert (L : 2 ^ (a - b - 1) <= n # d).
  { rewrite E. apply Qle_shift_div_l; [done|].
    eapply Qle_trans; [|exact An].
    replace a with ((a - b - 1) + Z.succ b)%Z at 2 by lia. rewrite pow2_plus.
    apply Qmult_le_l; [apply pow2_pos|]. by apply Qlt_le_weak. }
  destruct (Qle_bool (2 ^ (a - b)) (n # d)) eqn:T.
  - apply Qle_bool_iff in T. done.
  - split; [done|].
    replace (a - b - 1 + 1)%Z with (a - b)%Z by lia.
    apply Qnot_le_lt. intros T'. apply Qle_bool_iff in T'. congruence.
Qed.

Lemma binade_unique q k :
  0 < q → 2 ^ k <= q → q < 2 ^ (k + 1) → binade q = k.
Proof.
  intros Hq L U. destruct (binade_spec q Hq) as [L' U'].
  assert (k < binade q + 1)%Z.
  { apply (Qpower_lt_compat_l_inv 2); [|done]. by eapply Qle_lt_trans. }
  assert (binade q < k + 1)%Z.
  { apply (Qpower_lt_compat_l_inv 2); [|done]. by eapply Qle_lt_trans. }
  lia.
Qed.

Lemma binade_comp p q : 0 < p → p == q → binade p = binade q.
Proof.
  intros Hp E. symmetry. destruct (binade_spec p Hp) as [L U].
  apply binade_unique; rewrite <- ?E; done.
Qed.

Lemma binade_mono p q : 0 < p → p <= q → (binade p ≤ binade q)%Z.
Proof.
  intros Hp H. destruct (binade_spec p Hp) as [L _].
  destruct (binade_spec q) as [_ U]; [by eapply Qlt_le_trans|].
  assert (binade p < binade q + 1)%Z; [|lia].
  apply (Qpower_lt_compat_l_inv 2); [|done].
  eapply Qle_lt_trans; [exact L|]. by eapply Qle_lt_trans.
Qed.

(** *** Rounding a positive rational to 53 bits *)

Lemma scaled_range q :
  0 < q →
  inject_Z (2 ^ 52) <= q / 2 ^ (binade q - 52)
  ∧ q / 2 ^ (binade q - 52) <= inject_Z (2 ^ 53).
Proof.
  intros Hq. destruct (binade_spec q Hq) as [L U].
  pose proof (pow2_pos (binade q - 52)) as He.
  rewrite !pow2_inject by done. split.
  - apply Qle_shift_div_l; [done|]. rewrite <- pow2_plus.
    by replace (52 + (binade q - 52))%Z with (binade q) by lia.
  - apply Qle_shift_div_r; [done|]. rewrite <- pow2_plus.
    replace (53 + (binade q - 52))%Z with (binade q + 1)%Z by lia.
    by apply Qlt_le_weak.
Qed.

Lemma round_pos_range q :
  0 < q → 2 ^ binade q <= round_pos q ∧ round_pos q <= 2 ^ (binade q + 1).
Proof.
  intros Hq. destruct (scaled_range q Hq) as [L U].
  apply round_half_even_mono in L, U. rewrite round_half_even_Z in L, U.
  rewrite Zle_Qle, pow2_inject in L, U by done.
  pose proof (pow2_pos (binade q - 52)) as He.
  unfold round_pos. split.
  - replace (binade q) with (52 + (binade q - 52))%Z at 1 by lia.
    rewrite pow2_plus. by apply Qmult_le_compat_r; [|apply Qlt_le_weak].
  - replace (binade q + 1)%Z with (53 + (binade q - 52))%Z by lia.
    rewrite pow2_plus. by apply Qmult_le_compat_r; [|apply Qlt_le_weak].
Qed.

Lemma round_pos_pos q : 0 < q → 0 < round_pos q.
Proof.
  intros Hq. eapply Qlt_le_trans; [apply (pow2_pos (binade q))|].
  by apply round_pos_range.
Qed.

Lemma round_pos_comp p q : 0 < p → p == q → round_pos p == round_pos q.
Proof.
  intros Hp E. unfold round_pos. rewrite <- (binade_comp p q Hp E).
  set (e := (binade p - 52)%Z).
  rewrite (round_half_even_comp (p / 2 ^ e) (q / 2 ^ e)); [done|].
  unfold Qdiv. by apply Qmult_comp.
Qed.

Lemma round_pos_mono p q : 0 < p → p <= q → round_pos p <= round_pos q.
Proof.
  intros Hp H. assert (0 < q) as Hq by by eapply Qlt_le_trans.
  pose proof (binade_mono p q Hp H) as Hb.
  destruct (Z.eq_dec (binade p) (binade q)) as [E|N].
  - unfold round_pos. rewrite <- E.
    pose proof (pow2_pos (binade p - 52)) as He.
    apply Qmult_le_compat_r; [|by apply Qlt_le_weak].
    rewrite <- Zle_Qle. apply round_half_even_mono.
    apply Qmult_le_compat_r; [done|]. by apply Qlt_le_weak, Qinv_lt_0_compat.
  - destruct (round_pos_range p Hp) as [_ U], (round_pos_range q Hq) as [L _].
    eapply Qle_trans; [exact U|]. eapply Qle_trans; [|exact L].
    apply pow2_le. lia.
Qed.

(** *** Rounding to the nearest double *)

Lemma round_binary64_pos q : 0 < q → round_binary64 q = round_pos q.
Proof. intros H. unfold round_binary64. by apply Qgt_alt in H as ->. Qed.

Lemma round_binary64_neg q : q < 0 → round_binary64 q = - round_pos (- q).
Proof. intros H. unfold round_binary64. by apply Qlt_alt in H as ->. Qed.

Lemma round_binary64_0 q : q == 0 → round_binary64 q = 0.
Proof. intros H. unfold round_binary64. by apply Qeq_alt in H as ->. Qed.

Lemma round_binary64_comp p q : p == q → round_binary64 p == round_binary64 q.
Proof.
  intros E. destruct (Q_dec p 0) as [[H|H]|H].
  - rewrite (round_binary64_neg p H), (round_binary64_neg q) by by rewrite <- E.
    apply Qopp_comp, round_pos_comp; [lra|by rewrite E].
  - rewrite (round_binary64_pos p H), (round_binary64_pos q) by by rewrite <- E.
    by apply round_pos_comp.
  - rewrite (round_binary64_0 p H), (round_binary64_0 q) by by rewrite <- E.
    done.
Qed.

Lemma round_binary64_mono p q : p <= q → round_binary64 p <= round_binary64 q.
Proof.
  intros H. destruct (Q_dec p 0) as [[Hp|Hp]|Hp], (Q_dec q 0) as [[Hq|Hq]|Hq].
  all: try (exfalso; lra).
  - rewrite (round_binary64_neg p Hp), (round_binary64_neg q Hq).
    apply Qopp_le_compat, round_pos_mono; lra.
  - rewrite (round_binary64_neg p Hp), (round_binary64_pos q Hq).
    pose proof (round_pos_pos (- p)). pose proof (round_pos_pos q Hq). lra.
  - rewrite (round_binary64_neg p Hp), (round_binary64_0 q Hq).
    pose proof (round_pos_pos (- p)). lra.
  - rewrite (round_binary64_pos p Hp), (round_binary64_pos q Hq).
    by apply round_pos_mono.
  - rewrite (round_binary64_0 p Hp), (round_binary64_pos q Hq).
    pose proof (round_pos_pos q Hq). lra.
  - by rewrite (round_binary64_0 p Hp), (round_binary64_0 q Hq).
Qed.

Lemma round_pos_Z z :
  (0 < z)%Z → (z ≤ 2 ^ 53)%Z → round_pos (inject_Z z) == inject_Z z.
Proof.
  intros Hz Hle.
  assert (0 < inject_Z z) as Hq by (by rewrite Zlt_Qlt in Hz).
  destruct (binade_spec _ Hq) as [L U].
  set (b := binade (inject_Z z)) in *.
  assert (0 ≤ b)%Z as Hb0.
  { assert (0 < b + 1)%Z; [|lia]. apply (Qpower_lt_compat_l_inv 2); [|done].
    eapply Qle_lt_trans; [|exact U].
    change (2 ^ 0) with 1. change 1 with (inject_Z 1).
    rewrite <- Zle_Qle. lia. }
  assert (b ≤ 53)%Z as Hb1.
  { apply (Qpower_le_compat_l_inv 2); [|done].
    eapply Qle_trans; [exact L|]. rewrite <- pow2_inject by done.
    by rewrite <- Zle_Qle. }
  destruct (Z.eq_dec b 53%Z) as [E|N].
  - assert (z = 2 ^ 53)%Z as ->.
    { rewrite E, <- pow2_inject, <- Zle_Qle in L by done. lia. }
    vm_compute. reflexivity.
  - unfold round_pos. fold b.
    assert (inject_Z z / 2 ^ (b - 52) == inject_Z (z * 2 ^ (52 - b))) as E.
    { rewrite inject_Z_mult, pow2_inject by lia.
      replace (52 - b)%Z with (- (b - 52))%Z by lia. rewrite Qpower_opp.
      reflexivity. }
    rewrite (round_half_even_comp _ _ E), round_half_even_Z.
    rewrite inject_Z_mult, pow2_inject by lia.
    rewrite <- Qmult_assoc, <- pow2_plus.
    replace (52 - b + (b - 52))%Z with 0%Z by lia. simpl. ring.
Qed.

Lemma round_binary64_Z z :
  (Z.abs z ≤ 2 ^ 53)%Z → round_binary64 (inject_Z z) == inject_Z z.
Proof.
  intros H. destruct (Z.lt_trichotomy z 0) as [Hz|[->|Hz]].
  - assert (Hn : inject_Z z < 0)
      by (change 0 with (inject_Z 0); by rewrite <- Zlt_Qlt).
    rewrite (round_binary64_neg _ Hn).
    assert (- inject_Z z == inject_Z (- z)) as E by (by rewrite inject_Z_opp).
    assert (0 < - inject_Z z) as Hp by lra.
    rewrite (round_pos_comp _ _ Hp E), round_pos_Z by lia.
    rewrite inject_Z_opp. ring.
  - done.
  - rewrite round_binary64_pos by (change 0 with (inject_Z 0); by rewrite <- Zlt_Qlt).
    apply round_pos_Z; lia.
Qed.
End Binary64.

Lemma binary64_ok : ArithOK binary64.
Proof.
  assert (R0 : (round_binary64 0 == 0)%Q) by done.
  split; simpl.
  - apply round_binary64_comp.
  - apply round_binary64_mono.
  - apply round_binary64_Z.
  - intros p q E. apply round_binary64_comp.
    rewrite (round_binary64_comp (p * p) (q * q)) by (by rewrite E).
    by rewrite E.
  - intros p q Hp H. apply round_binary64_mono.
    assert (p * p <= q * q)%Q as H2.
    { apply Qle_trans with (p * q)%Q.
      - rewrite (Qmult_comm p q). by apply Qmult_le_compat_r.
      - apply Qmult_le_compat_r; [done|lra]. }
    pose proof (round_binary64_mono _ _ H2) as H3.
    assert (0 <= round_binary64 (p * p))%Q as H4.
    { rewrite <- R0. apply round_binary64_mono. by apply Qmult_le_0_compat. }
    apply Qle_trans with (round_binary64 (p * p) * q)%Q.
    + rewrite !(Qmult_comm (round_binary64 (p * p))).
      by apply Qmult_le_compat_r.
    + apply Qmult_le_compat_r; [done|lra].
  - done.
  - done.
Qed.

(** ** What one step may touch *)

Lemma stepBounds_footprint e s : footprint (StepBounds e) s (stepBounds e s).
Proof.
  unfold stepBounds, _isWindowValid.
  destruct (isDestroyed (b_win e) s) eqn:ED; cbn [negb].
  - destruct (animationTimers s !! b_win e) as [tid0|];
      destruct (b_onComplete e) eqn:EC; unfold_ops; simpl;
      split; simpl; try done; try split_trace; try solve_pending.
  - destruct (Qlt_le_dec _ _); [|case_decide; destruct (b_onComplete e) eqn:EC];
      unfold_ops; simpl; split; simpl; try done; try split_trace;
      try solve_pending.
    all: solve_win.
Qed.

Lemma stepFade_footprint e s : footprint (StepFade e) s (stepFade e s).
Proof.
  unfold stepFade, _isWindowValid.
  destruct (isDestroyed (f_win e) s) eqn:ED; cbn [negb].
  - destruct (animationTimers s !! f_win e) as [tid0|];
      destruct (f_onComplete e) eqn:EC; unfold_ops; simpl;
      split; simpl; try done; try split_trace; try solve_pending.
  - destruct (js_ltb _ _); [|destruct (f_onComplete e) eqn:EC];
      unfold_ops; simpl; split; simpl; try done; try split_trace;
      try solve_pending.
    all: solve_win.
Qed.

Lemma stepWindow_footprint e s : footprint (StepWindow e) s (stepWindow e s).
Proof.
  unfold stepWindow, _isWindowValid.
  destruct (isDestroyed (w_win e) s) eqn:ED; cbn [negb].
  - destruct (animationTimers s !! w_win e) as [tid0|];
      destruct (w_onComplete e) eqn:EC; unfold_ops; simpl;
      split; simpl; try done; try split_trace; try solve_pending.
  - destruct (Qlt_le_dec _ _); [|destruct (w_onComplete e) eqn:EC];
      unfold_ops; simpl; split; simpl; try done; try split_trace;
      try solve_pending.
    all: solve_win.
Qed.

Lemma run_closure_footprint c s : footprint c s (run_closure c s).
Proof.
  destruct c; simpl;
    [apply stepWindow_footprint|apply stepFade_footprint
    |apply stepBounds_footprint].
Qed.

(** A footprint survives a change of the state before that keeps the trace,
    the windows and the clock, and adds no timer. *)
Lemma footprint_pre c s0 s s' :
  trace s = trace s0 → windows s = windows s0 → now s = now s0 →
  (∀ tid c', pending s tid c' → pending s0 tid c') →
  footprint c s s' → footprint c s0 s'.
Proof.
  intros Et Ew En Hp [F1 F2 F3 F4 F5 F6].
  unfold isDestroyed, getBounds, getOpacity in *.
  split; unfold isDestroyed, getBounds, getOpacity;
    rewrite <- ?Et, <- ?Ew, <- ?En; try done.
  intros tid c' Hc. destruct (F2 tid c' Hc); eauto.
Qed.

Lemma spread_as_partial r r' : spread r (as_partial r') = r'.
Proof. by destruct r'. Qed.

Lemma animateWindowBounds_valid w tb d oc s e :
  isDestroyed w s = false →
  call_closure (AnimateWindowBounds (Some w) tb d oc) s = Some (StepBounds e) →
  animateWindowBounds (Some w) tb d oc s = stepBounds e (bounds_entry w s).
Proof.
  intros ED [= <-]. unfold animateWindowBounds, bounds_entry.
  name_session s s1. cbn [mbind option_bind].
  unfold _isWindowValid.
  replace (isDestroyed w _) with false; [|symmetry; rewrite <- ED].
  - f_equal. unfold getBounds. by destruct (animationTimers s1 !! w).
  - unfold isDestroyed. by destruct (animationTimers s1 !! w).
Qed.

Lemma animateWindowPosition_valid w tx ty d oc s e :
  isDestroyed w s = false →
  call_closure (AnimateWindowPosition (Some w) tx ty d oc) s
    = Some (StepBounds e) →
  animateWindowPosition (Some w) tx ty d oc s = stepBounds e (bounds_entry w s).
Proof.
  intros ED [= <-]. unfold animateWindowPosition, _isWindowValid. rewrite ED.
  erewrite animateWindowBounds_valid; [|done|done].
  by rewrite spread_as_partial.
Qed.

Lemma animateWindow_valid w tx ty so oc d s e :
  isDestroyed w s = false →
  call_closure (AnimateWindow (Some w) tx ty so oc d) s = Some (StepWindow e) →
  animateWindow (Some w) tx ty so oc d s = stepWindow e (snd (new_session s)).
Proof.
  intros ED. unfold call_closure, animateWindow. name_session s s1.
  unfold _isWindowValid.
  replace (isDestroyed w s1) with false by done.
  destruct so as [[wd ht]|]; by intros [= <-].
Qed.

Lemma fade_valid w from to d oc s e :
  isDestroyed w s = false →
  call_closure (Fade (Some w) from to d oc) s = Some (StepFade e) →
  fade (Some w) from to d oc s = stepFade e (snd (new_session s)).
Proof.
  intros ED [= <-]. unfold fade. name_session s s1.
  unfold _isWindowValid.
  by replace (isDestroyed w s1) with false by done.
Qed.

Lemma bounds_entry_pending w s tid c :
  pending (bounds_entry w s) tid c → pending s tid c.
Proof.
  unfold bounds_entry, pending; simpl.
  destruct (animationTimers s !! w); simpl; [|done].
  intros [due [_ Hp]%lookup_delete_Some]. eauto.
Qed.

(** ** Calls on a window that is missing or destroyed *)

Lemma animateWindow_invalid win tx ty so oc d s :
  invalid win s → short_circuit oc s (animateWindow win tx ty so oc d s).
Proof.
  intros Hinv. unfold animateWindow. name_session s s1.
  destruct win as [w|]; simpl in Hinv.
  - unfold _isWindowValid. replace (isDestroyed w s1) with true by done.
    subst s1. destruct (animationTimers s !! w) eqn:E; simpl; rewrite E;
      destruct oc; solve_short.
  - destruct oc; solve_short.
Qed.

Lemma fade_invalid win from to d oc s :
  invalid win s → short_circuit oc s (fade win from to d oc s).
Proof.
  intros Hinv. unfold fade. name_session s s1.
  destruct win as [w|]; simpl in Hinv.
  - unfold _isWindowValid. replace (isDestroyed w s1) with true by done.
    subst s1. destruct (animationTimers s !! w) eqn:E; simpl; rewrite E;
      destruct oc; solve_short.
  - destruct oc; solve_short.
Qed.

Lemma animateWindowBounds_invalid win tb d oc s :
  invalid win s → short_circuit oc s (animateWindowBounds win tb d oc s).
Proof.
  intros Hinv. unfold animateWindowBounds. name_session s s1.
  destruct win as [w|]; simpl in Hinv.
  - cbn [mbind option_bind]. unfold _isWindowValid. subst s1. simpl.
    destruct (animationTimers s !! w) eqn:E; simpl;
      (replace (isDestroyed w _) with true by done); simpl; rewrite ?E;
      destruct oc; solve_short.
  - destruct oc; solve_short.
Qed.

Lemma animateWindowPosition_invalid win tx ty d oc s :
  invalid win s → short_circuit oc s (animateWindowPosition win tx ty d oc s).
Proof.
  intros Hinv. unfold animateWindowPosition.
  destruct win as [w|]; simpl in Hinv.
  - unfold _isWindowValid. rewrite Hinv.
    destruct (animationTimers s !! w) eqn:E; simpl;
      destruct oc; solve_short.
  - destruct oc; solve_short.
Qed.

Lemma run_closure_nextSession c s :
  nextSession (run_closure c s) = nextSession s.
Proof.
  destruct c as [e|e|e]; simpl;
    unfold stepWindow, stepFade, stepBounds, _isWindowValid.
  - destruct (isDestroyed _ _); cbn [negb];
      [destruct (animationTimers s !! w_win e)|destruct (Qlt_le_dec _ _)];
      by destruct (w_onComplete e).
  - destruct (isDestroyed _ _); cbn [negb];
      [destruct (animationTimers s !! f_win e)|destruct (js_ltb _ _)];
      by destruct (f_onComplete e).
  - destruct (isDestroyed _ _); cbn [negb];
      [destruct (animationTimers s !! b_win e)
      |destruct (Qlt_le_dec _ _); [|case_decide]];
      by destruct (b_onComplete e).
Qed.

Lemma short_circuit_footprint c oc s s' :
  short_circuit oc s s' →
  closure_sid c = nextSession s → closure_onComplete c = oc →
  footprint c s s'.
Proof.
  intros [T W P N _] Hs Hc.
  split; unfold isDestroyed, getBounds, getOpacity; rewrite ?W; eauto.
  exists (completion (nextSession s) oc). split; [done|].
  destruct oc; repeat constructor; done.
Qed.

Lemma call_footprint s ev c s' :
  call_closure ev s = Some c → step s ev = Some s' →
  footprint c s s'
  ∧ closure_sid c = nextSession s ∧ nextSession s' = S (nextSession s).
Proof.
  intros Hc Hs.
  destruct ev as [[w|] tx ty so oc d|[w|] from to d oc|[w|] tb d oc
                 |[w|] tx ty d oc| | | | |]; try done;
    destruct (isDestroyed w s) eqn:ED;
    match type of Hs with
    | step _ _ = _ => unfold step in Hs
    end; injection Hs as <-.
  - pose proof (animateWindow_invalid (Some w) tx ty so oc d s ED) as Hsc.
    simpl in Hc. destruct so as [[??]|]; injection Hc as <-;
      (split_and!; [by apply (short_circuit_footprint _ oc _ _ Hsc)|done|exact (sc_session _ _ _ Hsc)]).
  - simpl in Hc. assert (∃ e, c = StepWindow e) as [e ->]
      by (destruct so as [[??]|]; injection Hc as <-; eauto).
    rewrite (animateWindow_valid _ _ _ _ _ _ _ e) by done.
    split_and!.
    + eapply footprint_pre; [..|apply stepWindow_footprint]; done.
    + by destruct so as [[??]|]; injection Hc as <-.
    + etrans; [apply (run_closure_nextSession (StepWindow e))|done].
  - pose proof (fade_invalid (Some w) from to d oc s ED) as Hsc.
    injection Hc as <-.
    split_and!; [by apply (short_circuit_footprint _ oc _ _ Hsc)|done|exact (sc_session _ _ _ Hsc)].
  - injection Hc as <-. erewrite fade_valid; [|done..].
    split_and!; [|done|etrans; [apply (run_closure_nextSession (StepFade _))|done]].
    eapply footprint_pre; [..|apply stepFade_footprint]; done.
  - pose proof (animateWindowBounds_invalid (Some w) tb d oc s ED) as Hsc.
    injection Hc as <-.
    split_and!; [by apply (short_circuit_footprint _ oc _ _ Hsc)|done|exact (sc_session _ _ _ Hsc)].
  - injection Hc as <-. erewrite animateWindowBounds_valid; [|done..].
    split_and!; [|done|].
    + eapply footprint_pre; [..|apply stepBounds_footprint]; try done.
      * unfold bounds_entry; simpl. by destruct (animationTimers s !! w).
      * unfold bounds_entry; simpl. by destruct (animationTimers s !! w).
      * unfold bounds_entry; simpl. by destruct (animationTimers s !! w).
      * apply bounds_entry_pending.
    + etrans; [apply (run_closure_nextSession (StepBounds _))|].
      unfold bounds_entry; simpl. by destruct (animationTimers s !! w).
  - change (footprint c s (animateWindowPosition (Some w) tx ty d oc s)
            ∧ closure_sid c = nextSession s
            ∧ nextSession (animateWindowPosition (Some w) tx ty d oc s)
              = S (nextSession s)).
    pose proof (animateWindowPosition_invalid (Some w) tx ty d oc s ED) as Hsc.
    injection Hc as <-.
    split_and!; [by apply (short_circuit_footprint _ oc _ _ Hsc)|done|exact (sc_session _ _ _ Hsc)].
  - change (footprint c s (animateWindowPosition (Some w) tx ty d oc s)
            ∧ closure_sid c = nextSession s
            ∧ nextSession (animateWindowPosition (Some w) tx ty d oc s)
              = S (nextSession s)).
    injection Hc as <-. erewrite animateWindowPosition_valid; [|done..].
    split_and!; [|done|].
    + eapply footprint_pre; [..|apply stepBounds_footprint]; try done.
      * unfold bounds_entry; simpl. by destruct (animationTimers s !! w).
      * unfold bounds_entry; simpl. by destruct (animationTimers s !! w).
      * unfold bounds_entry; simpl. by destruct (animationTimers s !! w).
      * apply bounds_entry_pending.
    + etrans; [apply (run_closure_nextSession (StepBounds _))|].
      unfold bounds_entry; simpl. by destruct (animationTimers s !! w).
Qed.

(** ** Sessions along a run *)

Lemma obs_by_sid c t o : obs_by c t o → obs_sid o = closure_sid c.
Proof. destruct o, c; simpl; intros; destruct_and?; done. Qed.

Lemma step_footprint s ev s' c :
  step s ev = Some s' → actor s ev c → footprint c s s'.
Proof.
  intros Hs Ha. destruct ev; try done; try (by eapply call_footprint).
  simpl in *. destruct Ha as [due Ht]. rewrite Ht in Hs.
  case_decide; [|done]. injection Hs as <-.
  eapply footprint_pre; [..|apply run_closure_footprint]; try done.
  solve_pending.
Qed.

Lemma le_of_eq_S (a b : nat) : b = S a → (a ≤ b)%nat.
Proof. lia. Qed.

Lemma completion_sid sid oc o : o ∈ completion sid oc → obs_sid o = sid.
Proof.
  destruct oc; simpl; [|by intros ?%elem_of_nil].
  by intros ->%list_elem_of_singleton.
Qed.

(** An event that runs no callback adds to the trace at most the work of a
    session it names itself (the completion of a call without a window, the
    direct write of [animateLayout]), and schedules nothing. *)
Lemma step_no_actor s ev s' :
  step s ev = Some s' → (∀ c, ¬ actor s ev c) →
  (∃ new, trace s' = new ++ trace s
     ∧ ∀ o, o ∈ new → obs_sid o = nextSession s)
  ∧ (∀ tid c, pending s' tid c → pending s tid c)
  ∧ (nextSession s ≤ nextSession s')%nat.
Proof.
  intros Hs Ha.
  destruct ev as [[w|] tx ty so oc d|[w|] from to d oc|[w|] tb d oc
                 |[w|] tx ty d oc| |w|dt|tid|w tb]; simpl in Ha.
  all: try (exfalso; eapply Ha; done).
  - exfalso. destruct so as [[??]|]; eapply Ha; done.
  - injection Hs as <-.
    destruct (animateWindow_invalid None tx ty so oc d s Logic.I) as [T _ P _ N].
    split_and!; [|exact P|exact (le_of_eq_S _ _ N)].
    eexists. split; [exact T|apply completion_sid].
  - injection Hs as <-.
    destruct (fade_invalid None from to d oc s Logic.I) as [T _ P _ N].
    split_and!; [|exact P|exact (le_of_eq_S _ _ N)].
    eexists. split; [exact T|apply completion_sid].
  - injection Hs as <-.
    destruct (animateWindowBounds_invalid None tb d oc s Logic.I) as [T _ P _ N].
    split_and!; [|exact P|exact (le_of_eq_S _ _ N)].
    eexists. split; [exact T|apply completion_sid].
  - injection Hs as <-.
    destruct (animateWindowPosition_invalid None tx ty d oc s Logic.I) as [T _ P _ N].
    split_and!; [|exact P|exact (le_of_eq_S _ _ N)].
    eexists. split; [exact T|apply completion_sid].
  - injection Hs as <-. unfold destroy.
    destruct (clear_all_spec (animationTimers s) s)
      as (E1 & E2 & E3 & E4 & E5 & E6 & E7 & A & B & C).
    split_and!; simpl.
    + exists []. split; [by rewrite E7|]. by intros ? ?%elem_of_nil.
    + intros tid c [due Hp]. exists due. by apply A.
    + by rewrite E5.
  - injection Hs as <-. split_and!; [|done|done].
    exists []. split; [done|]. by intros ? ?%elem_of_nil.
  - simpl in Hs. case_decide; [|done]. injection Hs as <-.
    split_and!; [|done|done].
    exists []. split; [done|]. by intros ? ?%elem_of_nil.
  - simpl in Hs. destruct (timers s !! tid) as [[due c]|] eqn:E; [|done].
    exfalso. apply (Ha c). by exists due.
  - simpl in Hs. destruct (isDestroyed w s); [done|]. injection Hs as <-.
    split_and!; simpl; [|done|lia].
    eexists [_]. split; [done|]. by intros ? ->%list_elem_of_singleton.
Qed.

Lemma actor_dec s ev : (∃ c, actor s ev c) ∨ (∀ c, ¬ actor s ev c).
Proof.
  destruct ev as [[w|] tx ty so oc d|[w|] from to d oc|[w|] tb d oc
                 |[w|] tx ty d oc| |w|dt|tid|w tb]; simpl; eauto.
  - left. destruct so as [[??]|]; eauto.
  - unfold pending. destruct (timers s !! tid) as [[due c]|]; [eauto|].
    right. by intros c [??].
Qed.

Lemma actor_cases s ev c :
  actor s ev c → (∃ tid, pending s tid c) ∨ closure_sid c = nextSession s.
Proof.
  destruct ev as [[w|] tx ty so oc d|[w|] from to d oc|[w|] tb d oc
                 |[w|] tx ty d oc| |w|dt|tid|w tb]; simpl; try done.
  5: { intros Hp. left. eauto. }
  all: intros Hc; right.
  - destruct so as [[??]|]; by injection Hc as <-.
  - by injection Hc as <-.
  - by injection Hc as <-.
  - by injection Hc as <-.
Qed.

Lemma actor_live s ev c : actor s ev c → live s (closure_sid c).
Proof.
  intros [[tid Hp]|E]%actor_cases; [left; eauto|right; lia].
Qed.

Lemma step_nextSession s ev s' :
  step s ev = Some s' → (nextSession s ≤ nextSession s')%nat.
Proof.
  intros Hs. destruct (actor_dec s ev) as [[c Ha]|Ha].
  - destruct ev; try done.
    5: { simpl in *. destruct Ha as [due Ht]. rewrite Ht in Hs.
         case_decide; [|done]. injection Hs as <-.
         by rewrite run_closure_nextSession. }
    all: by destruct (call_footprint _ _ _ _ Ha Hs) as (_ & _ & ->); lia.
  - by apply step_no_actor in Hs as (_ & _ & ?).
Qed.

(** Whatever an event adds to the trace is the work of a live session, and
    no session comes to life. *)
Lemma step_live s ev s' :
  step s ev = Some s' →
  (∀ sid, live s' sid → live s sid)
  ∧ ∃ new, trace s' = new ++ trace s ∧ ∀ o, o ∈ new → live s (obs_sid o).
Proof.
  intros Hs. pose proof (step_nextSession _ _ _ Hs) as Hn.
  destruct (actor_dec s ev) as [[c Ha]|Ha].
  - pose proof (actor_live _ _ _ Ha) as Hl.
    destruct (step_footprint _ _ _ _ Hs Ha) as [(new & T & F) P _ _ _ _].
    split.
    + intros sid [(tid & c' & Hp & <-)|?]; [|right; lia].
      destruct (P _ _ Hp) as [?| ->]; [left; eauto|done].
    + exists new. split; [done|]. intros o Ho.
      rewrite Forall_forall in F. by rewrite (obs_by_sid c (now s) o); auto.
  - destruct (step_no_actor _ _ _ Hs Ha) as ((new & T & O) & P & _).
    split.
    + intros sid [(tid & c' & Hp & <-)|?]; [left; eauto|right; lia].
    + exists new. split; [done|]. intros o Ho. right. by rewrite (O o Ho).
Qed.

(** A session that is not live stays so, and adds nothing to the trace. *)
Lemma dead_session_silent evs s s' sid :
  run s evs = Some s' → ¬ live s sid →
  ¬ live s' sid
  ∧ ∃ new, trace s' = new ++ trace s ∧ ∀ o, o ∈ new → obs_sid o ≠ sid.
Proof.
  revert s. induction evs as [|ev evs IH]; simpl; intros s Hr Hd.
  - injection Hr as <-. split; [done|]. exists []. split; [done|].
    by intros o ?%elem_of_nil.
  - destruct (step s ev) as [s1|] eqn:Es; [|done]. simpl in Hr.
    destruct (step_live _ _ _ Es) as (L & new1 & T1 & O1).
    destruct (IH s1 Hr) as (D & new2 & T2 & O2); [by intros ?%L|].
    split; [done|]. exists (new2 ++ new1). split.
    + by rewrite T2, T1, app_assoc.
    + intros o [?|?]%elem_of_app; [by apply O2|].
      intros <-. apply Hd. by apply O1.
Qed.

Lemma step_owns s ev s' c :
  step s ev = Some s' → owns c s →
  owns c s'
  ∧ ∃ new, trace s' = new ++ trace s
      ∧ ∀ o, o ∈ new → obs_sid o = closure_sid c → obs_by c (now s) o.
Proof.
  intros Hs [Hlt Ho]. pose proof (step_nextSession _ _ _ Hs) as Hn.
  destruct (actor_dec s ev) as [[c1 Ha]|Ha].
  - destruct (step_footprint _ _ _ _ Hs Ha) as [(new & T & F) P _ _ _ _].
    rewrite Forall_forall in F.
    assert (closure_sid c1 = closure_sid c → c1 = c) as Hc1.
    { destruct (actor_cases _ _ _ Ha) as [[tid Hp]|?]; [by eauto|lia]. }
    split; [split; [lia|]|].
    + intros tid c' Hp E. destruct (P _ _ Hp) as [?| ->]; eauto.
    + exists new. split; [done|]. intros o Hin E.
      pose proof (F o Hin) as Hby.
      rewrite (obs_by_sid _ _ _ Hby) in E. by rewrite <- (Hc1 E).
  - destruct (step_no_actor _ _ _ Hs Ha) as ((new & T & O) & P & _).
    split; [split; [lia|by eauto]|].
    exists new. split; [done|]. intros o Hin E.
    rewrite (O o Hin) in E. lia.
Qed.

Lemma run_owns evs s s' c :
  run s evs = Some s' → owns c s →
  owns c s'
  ∧ ∃ new, trace s' = new ++ trace s
      ∧ ∀ o, o ∈ new → obs_sid o = closure_sid c → ∃ t, obs_by c t o.
Proof.
  revert s. induction evs as [|ev evs IH]; simpl; intros s Hr Ho.
  - injection Hr as <-. split; [done|]. exists []. split; [done|].
    by intros o ?%elem_of_nil.
  - destruct (step s ev) as [s1|] eqn:Es; [|done]. simpl in Hr.
    destruct (step_owns _ _ _ _ Es Ho) as (Ho1 & new1 & T1 & O1).
    destruct (IH s1 Hr Ho1) as (D & new2 & T2 & O2).
    split; [done|]. exists (new2 ++ new1). split.
    + by rewrite T2, T1, app_assoc.
    + intros o [?|?]%elem_of_app; eauto.
Qed.

(** The session that a call starts owns the closure the call built, and
    all that the call itself adds to the trace is that closure's work. *)
Lemma call_owns s ev s' c :
  wf s → call_closure ev s = Some c → step s ev = Some s' →
  owns c s'
  ∧ ∃ new, trace s' = new ++ trace s ∧ Forall (obs_by c (now s)) new.
Proof.
  intros [Hi _] Hc Hs.
  destruct (call_footprint _ _ _ _ Hc Hs) as ([T P _ _ _ _] & E & N).
  split; [|done]. split; [lia|].
  intros tid c' Hp E'. destruct (P _ _ Hp) as [Hp'|]; [|done].
  apply (inv_sid _ Hi) in Hp'. lia.
Qed.

(** ** Calls short-circuited by an invalid window *)

(** C4.  An animate method called with a window that is missing or already
    destroyed invokes [onComplete], when supplied, exactly once before it
    returns, calls no setter, changes no window and schedules nothing:
    this holds for [animateWindow], [fade], [animateWindowBounds] and
    [animateWindowPosition]. *)
Theorem invalid_window_short_circuit
    (win : option handle) (oc : option nat) (s : State) :
  invalid win s →
  (∀ tx ty so d, short_circuit oc s (animateWindow win tx ty so oc d s))
  ∧ (∀ from to d, short_circuit oc s (fade win from to d oc s))
  ∧ (∀ tb d, short_circuit oc s (animateWindowBounds win tb d oc s))
  ∧ (∀ tx ty d, short_circuit oc s (animateWindowPosition win tx ty d oc s)).
Proof.
  intros Hinv. split_and!; intros.
  - by apply animateWindow_invalid.
  - by apply fade_invalid.
  - by apply animateWindowBounds_invalid.
  - by apply animateWindowPosition_invalid.
Qed.

Lemma invalid_window_short_circuit_witness :
  invalid (Some 7%nat) sample_destroyed
  ∧ (∀ tx ty so d,
       short_circuit (Some 1%nat) sample_destroyed
         (animateWindow (Some 7%nat) tx ty so (Some 1%nat) d sample_destroyed))
  ∧ (∀ from to d,
       short_circuit (Some 1%nat) sample_destroyed
         (fade (Some 7%nat) from to d (Some 1%nat) sample_destroyed))
  ∧ (∀ tb d,
       short_circuit (Some 1%nat) sample_destroyed
         (animateWindowBounds (Some 7%nat) tb d (Some 1%nat) sample_destroyed))
  ∧ (∀ tx ty d,
       short_circuit (Some 1%nat) sample_destroyed
         (animateWindowPosition (Some 7%nat) tx ty d (Some 1%nat)
            sample_destroyed)).
Proof.
  split; [reflexivity|].
  apply (invalid_window_short_circuit (Some 7%nat) (Some 1%nat) sample_destroyed).
  reflexivity.
Defined.

(** ** Completions, the timer table, [destroy] *)

Lemma completed_sids_elem sid tr :
  sid ∈ completed_sids tr → ∃ o, o ∈ tr ∧ obs_sid o = sid.
Proof.
  intros (o & Ho & E)%list_elem_of_omap. exists o. split; [done|].
  destruct o; by simplify_eq/=.
Qed.

(** An event that does not run the pending step [c] adds nothing to the
    trace in the name of the session of [c]. *)
Lemma step_other_session s ev s' tid c :
  inv s → pending s tid c → step s ev = Some s' → ¬ actor s ev c →
  ∃ new, trace s' = new ++ trace s
    ∧ ∀ o, o ∈ new → obs_sid o ≠ closure_sid c.
Proof.
  intros Hi Hp Hs Hna.
  pose proof (inv_sid _ Hi _ _ Hp) as Hlt.
  destruct (actor_dec s ev) as [[c1 Ha]|Ha].
  - destruct (step_footprint _ _ _ _ Hs Ha) as [(new & T & F) _ _ _ _ _].
    rewrite Forall_forall in F. exists new. split; [done|].
    intros o Ho E. rewrite (obs_by_sid _ _ _ (F o Ho)) in E.
    destruct (actor_cases _ _ _ Ha) as [[tid1 Hp1]|E1]; [|lia].
    pose proof (inv_one_timer _ Hi _ _ _ _ Hp1 Hp E) as ->.
    destruct Hp as [d Hp], Hp1 as [d1 Hp1]. rewrite Hp in Hp1.
    injection Hp1 as _ <-. by apply Hna.
  - destruct (step_no_actor _ _ _ Hs Ha) as ((new & T & O) & _ & _).
    exists new. split; [done|]. intros o Ho E. rewrite (O o Ho) in E. lia.
Qed.

(** C7, as amended.  In every state the engine can reach:
    - the continuation of a session has been invoked at most once, and not
      yet while a step of the session is pending;
    - once a session has no pending step its continuation is never invoked
      again;
    - an event invokes a continuation only in the name of the session whose
      call it is or whose step it runs (or, for a call without a window
      object, in the name of the session of that call);
    - so an event that leaves a session with a pending step without one, and
      is not the firing of that step (a superseding call, [destroy()], a
      validity check on the destroyed window made by another call) does not
      invoke the continuation of the session, and nothing does later: a
      session cut short in that way is completed zero times. *)
Theorem onComplete_at_most_once
    (ws : gmap nat Window) (t0 : Z) (evs : list event) (s : State) :
  run (init ws t0) evs = Some s →
  NoDup (completed_sids (trace s))
  ∧ (∀ tid c, pending s tid c → closure_sid c ∉ completed_sids (trace s))
  ∧ (∀ sid evs' s',
       ¬ live s sid → run s evs' = Some s' →
       ∃ new, trace s' = new ++ trace s ∧ sid ∉ completed_sids new)
  ∧ (∀ ev s', step s ev = Some s' →
       ∃ new, trace s' = new ++ trace s
         ∧ ∀ sid cb, Completed sid cb ∈ new →
             (∃ c, actor s ev c ∧ closure_sid c = sid
                   ∧ closure_onComplete c = Some cb)
             ∨ ((∀ c, ¬ actor s ev c) ∧ sid = nextSession s))
  ∧ (∀ tid c ev s1 evs' s',
       pending s tid c → step s ev = Some s1 → ¬ actor s ev c →
       (∀ tid', ¬ pending s1 tid' c) →
       run s1 evs' = Some s' →
       closure_sid c ∉ completed_sids (trace s')).
Proof.
  intros Hr. destruct (run_wf _ _ _ (init_wf ws t0) Hr) as [Hi Ht].
  split_and!; [apply Hi|apply Hi| | |].
  - intros sid evs' s' Hd Hr'.
    destruct (dead_session_silent _ _ _ _ Hr' Hd) as (_ & new & T & O).
    exists new. split; [done|].
    intros (o & Ho & E)%completed_sids_elem. by apply (O o).
  - intros ev s' Hs. destruct (actor_dec s ev) as [[c Ha]|Ha].
    + destruct (step_footprint _ _ _ _ Hs Ha) as [(new & T & F) _ _ _ _ _].
      rewrite Forall_forall in F. exists new. split; [done|].
      intros sid cb Ho. left. exists c. specialize (F _ Ho). simpl in F.
      by destruct F as [-> ?].
    + destruct (step_no_actor _ _ _ Hs Ha) as ((new & T & O) & _ & _).
      exists new. split; [done|]. intros sid cb Ho. right.
      split; [done|]. exact (O _ Ho).
  - intros tid c ev s1 evs' s' Hp Hs Hna Hnp Hr'.
    pose proof (inv_sid _ Hi _ _ Hp) as Hlt.
    pose proof (inv_live _ Hi _ _ Hp) as Hnc.
    destruct (step_other_session _ _ _ _ _ Hi Hp Hs Hna) as (new1 & T1 & O1).
    assert (Ho : owns c s).
    { split; [done|]. intros tid' c' Hp' E.
      pose proof (inv_one_timer _ Hi _ _ _ _ Hp' Hp E) as ->.
      destruct Hp as [d Hp], Hp' as [d' Hp']. rewrite Hp in Hp'.
      by injection Hp' as _ <-. }
    destruct (step_owns _ _ _ _ Hs Ho) as ([Hlt1 Ho1] & _).
    assert (Hd : ¬ live s1 (closure_sid c)).
    { intros [(tid' & c' & Hp' & E)|?]; [|lia].
      rewrite (Ho1 _ _ Hp' E) in Hp'. by apply (Hnp tid'). }
    destruct (dead_session_silent _ _ _ _ Hr' Hd) as (_ & new2 & T2 & O2).
    rewrite T2, T1. unfold completed_sids. rewrite !omap_app.
    fold (completed_sids new2) (completed_sids new1) (completed_sids (trace s)).
    intros [H|[H|H]%elem_of_app]%elem_of_app; [| |done].
    + apply completed_sids_elem in H as (o & Ho' & E). by apply (O2 o).
    + apply completed_sids_elem in H as (o & Ho' & E). by apply (O1 o).
Qed.

Lemma onComplete_at_most_once_witness :
  (run sample
     [AnimateWindowBounds (Some 7%nat) (only_x 100) None (Some 1%nat);
      Elapse 8; Fire 0%nat]
   = Some sample_mid
   ∧ pending sample_mid 1 (StepBounds sample_envA)
   ∧ closure_sid (StepBounds sample_envA) ∉ completed_sids (trace sample_end))
  ∧ (completed_sids (trace sample_end) = [1%nat]
     ∧ NoDup (completed_sids (trace sample_end))
     ∧ ¬ live sample_end 0%nat
     ∧ ∀ evs' s', run sample_end evs' = Some s' →
         ∃ new, trace s' = new ++ trace sample_end
                ∧ 0%nat ∉ completed_sids new).
Proof.
  assert (Hd : ¬ live sample_end 0%nat).
  { intros [(tid & c & [due Hp] & _)|H]; [|vm_compute in H; lia].
    vm_compute in Hp. discriminate. }
  split.
  - assert (Hp : pending sample_mid 1 (StepBounds sample_envA))
      by (exists 1016; vm_compute; reflexivity).
    split_and!; [vm_compute; reflexivity|exact Hp|].
    destruct (onComplete_at_most_once {[ 7%nat := sample_window ]} 1000
                [AnimateWindowBounds (Some 7%nat) (only_x 100) None (Some 1%nat);
                 Elapse 8; Fire 0%nat] sample_mid)
      as (_ & _ & _ & _ & H); [vm_compute; reflexivity|].
    apply (H 1%nat (StepBounds sample_envA)
             (AnimateWindowBounds (Some 7%nat) (only_x 50) None (Some 2%nat))
             (animateWindowBounds (Some 7%nat) (only_x 50) None (Some 2%nat)
                sample_mid)
             [Elapse 300; Fire 2%nat]).
    + exact Hp.
    + vm_compute. reflexivity.
    + simpl. vm_compute. discriminate.
    + intros tid' [due H']. apply elem_of_map_to_list in H'.
      set (l := map_to_list _) in H'. vm_compute in l. subst l.
      apply list_elem_of_singleton in H'. discriminate H'.
    + vm_compute. reflexivity.
  - destruct (onComplete_at_most_once {[ 7%nat := sample_window ]} 1000
                [AnimateWindowBounds (Some 7%nat) (only_x 100) None (Some 1%nat);
                 Elapse 8; Fire 0%nat;
                 AnimateWindowBounds (Some 7%nat) (only_x 50) None (Some 2%nat);
                 Elapse 300; Fire 2%nat] sample_end)
      as (Hn & _ & H & _); [vm_compute; reflexivity|].
    split_and!; [vm_compute; reflexivity|exact Hn|exact Hd|].
    intros evs' s' Hr. by apply (H 0%nat evs' s').
Defined.

(** C7 fails as stated.  Session 0 is started with a continuation and is
    superseded by session 1 on the same window.  When everything has run,
    no timer is pending and only session 1 has been completed: the
    continuation of session 0 was invoked zero times. *)
Lemma superseded_session_never_completes :
  (λ s, (completed_sids (trace s), pending_list s))
    <$> run sample
          [AnimateWindowBounds (Some 7%nat) (only_x 100) None (Some 1%nat);
           Elapse 8; Fire 0%nat;
           AnimateWindowBounds (Some 7%nat) (only_x 50) None (Some 2%nat);
           Elapse 300; Fire 2%nat]
  = Some ([1%nat], []).
Proof. vm_compute. reflexivity. Qed.

(** C5, as amended.  In every state the engine can reach, a pending step of
    [animateWindowBounds] (hence of [animateWindowPosition]) is the one that
    [animationTimers] records for its window, every entry of
    [animationTimers] names such a pending step, and so a window has at most
    one pending step of that kind.  Nothing is said of the steps of
    [animateWindow] and [fade], which the table does not track. *)
Theorem one_bounds_step_per_window
    (ws : gmap nat Window) (t0 : Z) (evs : list event) (s : State) :
  run (init ws t0) evs = Some s →
  (∀ tid e, pending s tid (StepBounds e) →
     animationTimers s !! b_win e = Some tid)
  ∧ (∀ w tid, animationTimers s !! w = Some tid →
       ∃ e, pending s tid (StepBounds e) ∧ b_win e = w)
  ∧ (∀ tid tid' e e',
       pending s tid (StepBounds e) → pending s tid' (StepBounds e') →
       b_win e = b_win e' → tid = tid' ∧ e = e').
Proof.
  intros Hr. destruct (run_wf _ _ _ (init_wf ws t0) Hr) as [Hi HT].
  split_and!; [apply Hi|by intros; apply HT|].
  intros tid tid' e e' Hp Hp' E.
  pose proof (inv_table_fwd _ Hi _ _ Hp) as H1.
  pose proof (inv_table_fwd _ Hi _ _ Hp') as H2.
  rewrite E in H1. assert (tid = tid') as -> by congruence.
  split; [done|]. destruct Hp as [d1 Hp], Hp' as [d2 Hp']. congruence.
Qed.

Lemma one_bounds_step_per_window_witness :
  run sample [AnimateWindowBounds (Some 7%nat) (only_x 100) None (Some 1%nat)]
    = Some sample_started
  ∧ (∀ tid e, pending sample_started tid (StepBounds e) →
       animationTimers sample_started !! b_win e = Some tid)
  ∧ (∀ w tid, animationTimers sample_started !! w = Some tid →
       ∃ e, pending sample_started tid (StepBounds e) ∧ b_win e = w)
  ∧ (∀ tid tid' e e',
       pending sample_started tid (StepBounds e) →
       pending sample_started tid' (StepBounds e') →
       b_win e = b_win e' → tid = tid' ∧ e = e').
Proof.
  split; [reflexivity|].
  apply (one_bounds_step_per_window {[ 7%nat := sample_window ]} 1000
           [AnimateWindowBounds (Some 7%nat) (only_x 100) None (Some 1%nat)]).
  reflexivity.
Defined.

(** C5 fails as stated.  Two calls of [animateWindow] on the same window
    leave two pending steps on it, one per session, and both sessions go on
    calling [setBounds] in turn: the later call supersedes nothing. *)
Lemma legacy_chains_run_together :
  (λ s, (pending_list s, bounds_writers 7 (trace s)))
    <$> run sample
          [AnimateWindow (Some 7%nat) 100 0 None None None;
           AnimateWindow (Some 7%nat) 0 100 None None None;
           Elapse 8; Fire 0%nat; Fire 1%nat]
  = Some ([(2%nat, 1016, 0%nat, 7%nat); (3%nat, 1016, 1%nat, 7%nat)],
          [1%nat; 0%nat; 1%nat; 0%nat]).
Proof. vm_compute. reflexivity. Qed.

(** C9 on the code.  A window is destroyed while its animation is in flight.
    The next step finds it invalid and [_isWindowValid] removes the last
    entry of [animationTimers], but [isAnimating] is left at [true]. *)
Lemma isAnimating_not_reset_on_invalidation :
  (λ s, (map_to_list (animationTimers s), pending_list s, isAnimating s))
    <$> run sample
          [AnimateWindowBounds (Some 7%nat) (only_x 100) None None;
           WindowDestroyed 7%nat; Elapse 8; Fire 0%nat]
  = Some ([], [], true).
Proof. vm_compute. reflexivity. Qed.

(** C10, as amended.  In a state the engine can reach, [destroy()] empties
    [animationTimers], resets [isAnimating], calls no setter and invokes no
    continuation; it cancels exactly the pending steps of
    [animateWindowBounds] (those that the table recorded) and their sessions
    never write nor complete afterwards.  The pending steps of [fade] and
    [animateWindow] are left as they were. *)
Theorem destroy_cancels_table_sessions
    (ws : gmap nat Window) (t0 : Z) (evs : list event) (s : State) :
  run (init ws t0) evs = Some s →
  animationTimers (destroy s) = ∅
  ∧ isAnimating (destroy s) = false
  ∧ trace (destroy s) = trace s
  ∧ windows (destroy s) = windows s
  ∧ (∀ tid c, pending (destroy s) tid c ↔
       pending s tid c ∧ ∀ e, c ≠ StepBounds e)
  ∧ (∀ tid e evs' s',
       pending s tid (StepBounds e) → run (destroy s) evs' = Some s' →
       ∃ new, trace s' = new ++ trace s ∧ ∀ o, o ∈ new → obs_sid o ≠ b_sid e).
Proof.
  intros Hr. destruct (run_wf _ _ _ (init_wf ws t0) Hr) as [Hi HT].
  unfold destroy.
  destruct (clear_all_spec (animationTimers s) s)
    as (E1 & E2 & E3 & E4 & E5 & E6 & E7 & A & B & C).
  set (s1 := clear_all (animationTimers s) s) in *.
  assert (Hpend : ∀ tid c,
    pending (set_isAnimating false (set_animationTimers (λ _, ∅) s1)) tid c ↔
    pending s tid c ∧ ∀ e, c ≠ StepBounds e).
  { intros tid c. unfold pending; simpl. split.
    - intros [due Hp]. split; [eauto|]. intros e ->.
      assert (animationTimers s !! b_win e = Some tid) as Ht
        by (eapply inv_table_fwd; [done|]; exists due; eauto).
      rewrite (B _ _ Ht) in Hp. done.
    - intros [[due Hp] Hc]. exists due. rewrite C; [done|].
      intros w Ht. destruct (HT w tid) as (e & [d' Hp'] & _); [done..|].
      apply (Hc e). congruence. }
  split_and!; simpl; try done.
  intros tid e evs' s' Hp Hr'.
  destruct (dead_session_silent evs' _ s' (b_sid e) Hr') as (_ & new & T & O).
  - intros [(tid' & c' & Hp' & E)|Hge].
    + apply Hpend in Hp' as [Hp' Hc].
      assert (tid' = tid) as -> by (eapply (inv_one_timer _ Hi); eauto).
      destruct Hp as [d1 Hp], Hp' as [d2 Hp']. apply (Hc e). congruence.
    + simpl in Hge. rewrite E5 in Hge.
      pose proof (inv_sid _ Hi _ _ Hp) as Hlt. simpl in Hlt. lia.
  - exists new. split; [|done]. rewrite T. simpl. by rewrite E7.
Qed.

Lemma destroy_cancels_table_sessions_witness :
  run sample [AnimateWindowBounds (Some 7%nat) (only_x 100) None (Some 1%nat)]
    = Some sample_started
  ∧ animationTimers (destroy sample_started) = ∅
  ∧ isAnimating (destroy sample_started) = false
  ∧ trace (destroy sample_started) = trace sample_started
  ∧ windows (destroy sample_started) = windows sample_started
  ∧ (∀ tid c, pending (destroy sample_started) tid c ↔
       pending sample_started tid c ∧ ∀ e, c ≠ StepBounds e)
  ∧ (∀ tid e evs' s',
       pending sample_started tid (StepBounds e) →
       run (destroy sample_started) evs' = Some s' →
       ∃ new, trace s' = new ++ trace sample_started
              ∧ ∀ o, o ∈ new → obs_sid o ≠ b_sid e).
Proof.
  split; [reflexivity|].
  apply (destroy_cancels_table_sessions {[ 7%nat := sample_window ]} 1000
           [AnimateWindowBounds (Some 7%nat) (only_x 100) None (Some 1%nat)]).
  reflexivity.
Defined.

(** C10 fails as stated.  A [fade] is in flight when [destroy()] is called:
    its step stays pending, and when it fires the session calls
    [setOpacity] twice more and its continuation is invoked. *)
Lemma destroy_leaves_fade_running :
  (λ s, (pending_list s, opacity_writers 7 (trace s), completed_sids (trace s)))
    <$> run sample
          [Fade (Some 7%nat) None (1 # 2)%Q (Some 16%Q) (Some 1%nat); Destroy]
  = Some ([(0%nat, 1008, 0%nat, 7%nat)], [0%nat], [])
  ∧ (λ s, (pending_list s, opacity_writers 7 (trace s), completed_sids (trace s)))
      <$> run sample
            [Fade (Some 7%nat) None (1 # 2)%Q (Some 16%Q) (Some 1%nat); Destroy;
             Elapse 16; Fire 0%nat]
    = Some ([], [0%nat; 0%nat; 0%nat], [0%nat]).
Proof. split; vm_compute; reflexivity. Qed.

(** ** One session in charge of a window *)

(** A step removes a pending timer only through [_isWindowValid], on the
    destroyed window it was about to work on. *)
Lemma run_closure_keeps c s tid c' :
  pending s tid c' → tid ≠ nextTimer s →
  pending (run_closure c s) tid c'
  ∨ (isDestroyed (closure_win c) s = true
     ∧ animationTimers s !! closure_win c = Some tid).
Proof.
  intros [due Hp] Hne.
  destruct c as [e|e|e]; simpl;
    unfold stepWindow, stepFade, stepBounds, _isWindowValid.
  - destruct (isDestroyed _ _); cbn [negb].
    + destruct (animationTimers s !! w_win e) as [tid0|] eqn:E.
      * destruct (decide (tid0 = tid)) as [->|]; [by right|left].
        exists due. destruct (w_onComplete e); simpl; by rewrite lookup_delete_ne.
      * left. exists due. by destruct (w_onComplete e).
    + left. exists due. destruct (Qlt_le_dec _ _); simpl.
      * by rewrite lookup_insert_ne.
      * by destruct (w_onComplete e).
  - destruct (isDestroyed _ _); cbn [negb].
    + destruct (animationTimers s !! f_win e) as [tid0|] eqn:E.
      * destruct (decide (tid0 = tid)) as [->|]; [by right|left].
        exists due. destruct (f_onComplete e); simpl; by rewrite lookup_delete_ne.
      * left. exists due. by destruct (f_onComplete e).
    + left. exists due. destruct (js_ltb _ _); simpl.
      * by rewrite lookup_insert_ne.
      * by destruct (f_onComplete e).
  - destruct (isDestroyed _ _); cbn [negb].
    + destruct (animationTimers s !! b_win e) as [tid0|] eqn:E.
      * destruct (decide (tid0 = tid)) as [->|]; [by right|left].
        exists due. destruct (b_onComplete e); simpl; by rewrite lookup_delete_ne.
      * left. exists due. by destruct (b_onComplete e).
    + left. exists due. destruct (Qlt_le_dec _ _); simpl.
      * by rewrite lookup_insert_ne.
      * case_decide; by destruct (b_onComplete e).
Qed.

(** On a valid window the step of [animateWindowBounds] either schedules
    itself again, or leaves the window at the exact target and the session
    without a pending step. *)
Lemma stepBounds_valid_outcome e s :
  isDestroyed (b_win e) s = false →
  (bounds_progress e (now s) < 1)%Q
  ∧ pending (stepBounds e s) (nextTimer s) (StepBounds e)
  ∨ (1 <= bounds_progress e (now s))%Q
    ∧ getBounds (b_win e) (stepBounds e s) = b_finalTargetBounds e
    ∧ (∀ tid c, pending (stepBounds e s) tid c → pending s tid c)
    ∧ ∃ older,
        trace (stepBounds e s) =
        completion (b_sid e) (b_onComplete e)
        ++ SetBounds (b_sid e) (b_win e) (b_finalTargetBounds e) :: older.
Proof.
  intros ED. unfold stepBounds, _isWindowValid. rewrite ED. cbn [negb].
  destruct (Qlt_le_dec _ _) as [Hlt|Hge]; [left|right]; (split; [done|]).
  - exists (now s + 8). simpl. by rewrite lookup_insert_eq.
  - unfold isDestroyed in ED.
    destruct (windows s !! b_win e) as [W|] eqn:EW; [|done].
    split_and!.
    + case_decide; destruct (b_onComplete e); unfold getBounds; simpl;
        by rewrite !lookup_alter_eq, EW.
    + case_decide; by destruct (b_onComplete e).
    + case_decide; destruct (b_onComplete e); simpl; eauto.
Qed.

Lemma step_in_charge e s ev s' :
  wf s → in_charge e s → passive ev → step s ev = Some s' →
  in_charge e s'
  ∧ ∃ new, trace s' = new ++ trace s
      ∧ ∀ sid r, SetBounds sid (b_win e) r ∈ new →
          sid = b_sid e
          ∧ (r = newBounds e (now s) ∨ r = b_finalTargetBounds e).
Proof.
  intros [Hi HT] (Hv & Honly & Hend) Hpass Hs.
  destruct ev as [| | | | | |dt|tid|]; try done; simpl in Hs.
  { case_decide; [|done]. injection Hs as <-. split; [done|].
    exists []. split; [done|]. by intros ?? ?%elem_of_nil. }
  destruct (timers s !! tid) as [[due c]|] eqn:Et; [|done].
  case_decide; [|done]. injection Hs as <-.
  assert (Hpc : pending s tid c) by by exists due.
  set (s1 := clearTimeout tid s).
  assert (Hfp : footprint c s (run_closure c s1)).
  { eapply footprint_pre; [..|apply run_closure_footprint]; try done.
    solve_pending. }
  destruct Hfp as [(new & T & F) P D B _ _].
  rewrite Forall_forall in F.
  assert (Hwrites : ∀ sid r, SetBounds sid (b_win e) r ∈ new →
    sid = b_sid e ∧ (r = newBounds e (now s) ∨ r = b_finalTargetBounds e)).
  { intros sid r Hin. pose proof (F _ Hin) as Hby.
    destruct c as [e1|e1|e1]; simpl in Hby; try done.
    - destruct Hby as (_ & Hw & _).
      destruct (Honly tid (StepWindow e1) Hpc) as [?|?]; done.
    - destruct Hby as (-> & Hw & Hr).
      destruct (Honly tid (StepBounds e1) Hpc) as [?|[= ->]]; done. }
  split; [|by exists new].
  split_and!.
  - by rewrite D.
  - intros tid' c' Hp' Hw. destruct (P _ _ Hp') as [?| ->]; eauto.
  - assert (Hother : closure_win c ≠ b_win e ∨ is_fade c = true →
      (∃ tid0, pending (run_closure c s1) tid0 (StepBounds e))
      ∨ getBounds (b_win e) (run_closure c s1) = b_finalTargetBounds e).
    { intros Hne. destruct Hend as [[tid0 Hp0]|Hb]; [|right; by rewrite B].
      left. exists tid0.
      assert (tid0 ≠ tid).
      { intros ->. destruct Hp0 as [d0 Hp0].
        assert (c = StepBounds e) as -> by congruence.
        by destruct Hne. }
      assert (pending s1 tid0 (StepBounds e)) as Hp1.
      { destruct Hp0 as [d0 Hp0]. exists d0. simpl.
        by rewrite lookup_delete_ne. }
      destruct (run_closure_keeps c s1 tid0 _ Hp1) as [?|[Hd Ht]]; [|done|].
      { apply (inv_tid _ Hi) in Hp0. simpl. lia. }
      exfalso. simpl in Ht.
      destruct (HT _ _ Logic.I Ht) as (e2 & Hp2 & Hw2).
      assert (e2 = e) as ->.
      { destruct Hp0 as [d0 Hp0], Hp2 as [d2 Hp2]. congruence. }
      rewrite <- Hw2 in Hd.
      change (isDestroyed (b_win e) s = true) in Hd. congruence. }
    destruct (decide (closure_win c = b_win e)) as [Hw|Hw]; [|by auto].
    destruct (Honly tid c Hpc Hw) as [Hf| ->]; [by auto|].
    destruct (stepBounds_valid_outcome e s1 Hv) as [[_ ?]|(_ & ? & _)];
      [left; eauto|by right].
Qed.

Lemma run_in_charge e evs s s' :
  wf s → in_charge e s → Forall passive evs → run s evs = Some s' →
  in_charge e s'
  ∧ ∃ new, trace s' = new ++ trace s
      ∧ ∀ sid r, SetBounds sid (b_win e) r ∈ new →
          sid = b_sid e
          ∧ ((∃ t, r = newBounds e t) ∨ r = b_finalTargetBounds e).
Proof.
  revert s. induction evs as [|ev evs IH]; simpl; intros s Hwf Hc Hp Hr.
  - injection Hr as <-. split; [done|]. exists []. split; [done|].
    by intros ?? ?%elem_of_nil.
  - destruct (step s ev) as [s1|] eqn:Es; [|done]. simpl in Hr.
    apply Forall_cons in Hp as [Hp1 Hp].
    destruct (step_in_charge _ _ _ _ Hwf Hc Hp1 Es) as (Hc1 & new1 & T1 & O1).
    destruct (IH s1) as (Hc2 & new2 & T2 & O2); [by eapply step_wf|done..|].
    split; [done|]. exists (new2 ++ new1). split.
    + by rewrite T2, T1, app_assoc.
    + intros sid r [?|Hin]%elem_of_app; [by eauto|].
      destruct (O1 _ _ Hin) as [? [?|?]]; eauto.
Qed.

Lemma or_else_nonzero d : ¬ (or_else d animationDuration == 0)%Q.
Proof.
  unfold or_else. destruct d as [q|]; [|done].
  destruct (Qeq_bool q 0) eqn:E; [done|]. by apply Qeq_bool_neq.
Qed.

(** The first step of a session, run by the call itself, computes the start
    rectangle again: nothing moves at the moment of the call. *)
Lemma newBounds_at_start e :
  ¬ (b_duration e == 0)%Q → newBounds e (b_startTime e) = b_startBounds e.
Proof.
  intros Hd. unfold newBounds, bounds_progress. rewrite Z.sub_diag.
  assert (easeOutCubic (progress_at 0 (b_duration e)) == 0)%Q as E.
  { rewrite <- easeOutCubic_0. by apply easeOutCubic_comp, progress_at_start. }
  rewrite !lerp_round_0 by done. by destruct (b_startBounds e).
Qed.

Lemma bounds_entry_isDestroyed w w' s :
  isDestroyed w' (bounds_entry w s) = isDestroyed w' s.
Proof.
  unfold bounds_entry, isDestroyed; simpl.
  by destruct (animationTimers s !! w).
Qed.

(** What a call of [animateWindowBounds] on a valid window leaves behind. *)
Lemma bounds_call_in_charge w e s :
  wf s → isDestroyed w s = false →
  (∀ tid e', pending s tid (StepWindow e') → w_win e' ≠ w) →
  b_win e = w → b_sid e = nextSession s → b_startTime e = now s →
  b_startBounds e = getBounds w s → ¬ (b_duration e == 0)%Q →
  in_charge e (stepBounds e (bounds_entry w s))
  ∧ trace (stepBounds e (bounds_entry w s))
    = SetBounds (b_sid e) w (getBounds w s) :: trace s
  ∧ pending (stepBounds e (bounds_entry w s)) (nextTimer s) (StepBounds e)
  ∧ (∀ tid c, pending (stepBounds e (bounds_entry w s)) tid c →
       c = StepBounds e
       ∨ pending s tid c ∧ animationTimers s !! w ≠ Some tid).
Proof.
  intros [Hi HT] Hv Hleg <- Hsid Ht Hb Hd.
  assert (Hstart : newBounds e (now (bounds_entry (b_win e) s)) = getBounds (b_win e) s).
  { rewrite <- Hb, <- (newBounds_at_start e Hd). f_equal.
    rewrite Ht. unfold bounds_entry; simpl.
    by destruct (animationTimers s !! b_win e). }
  assert (Hlt : (bounds_progress e (now (bounds_entry (b_win e) s)) < 1)%Q).
  { replace (now (bounds_entry (b_win e) s)) with (b_startTime e).
    - unfold bounds_progress. rewrite Z.sub_diag, progress_at_start by done.
      done.
    - rewrite Ht. unfold bounds_entry; simpl.
      by destruct (animationTimers s !! b_win e). }
  assert (Hpend : ∀ tid c, pending (stepBounds e (bounds_entry (b_win e) s)) tid c →
       c = StepBounds e
       ∨ pending s tid c ∧ animationTimers s !! b_win e ≠ Some tid).
  { unfold stepBounds, _isWindowValid.
    rewrite bounds_entry_isDestroyed, Hv. cbn [negb].
    destruct (Qlt_le_dec _ _) as [_|Hge]; [|by apply Qle_not_lt in Hge].
    unfold bounds_entry, pending; simpl.
    intros tid c [due Hp].
    apply lookup_insert_Some in Hp as [[_ [= _ <-]]|[_ Hp]]; [by left|right].
    destruct (animationTimers s !! b_win e) as [tid0|] eqn:E0; simpl in Hp.
    - apply lookup_delete_Some in Hp as [? Hp]. split; [eauto|congruence].
    - split; [eauto|done]. }
  assert (Hnew : pending (stepBounds e (bounds_entry (b_win e) s)) (nextTimer s)
                   (StepBounds e)).
  { unfold stepBounds, _isWindowValid.
    rewrite bounds_entry_isDestroyed, Hv. cbn [negb].
    destruct (Qlt_le_dec _ _) as [_|Hge]; [|by apply Qle_not_lt in Hge].
    exists (now s + 8). unfold bounds_entry; simpl.
    destruct (animationTimers s !! b_win e); simpl; by rewrite lookup_insert_eq. }
  split_and!; [|..|done|done].
  - split_and!.
    + destruct (stepBounds_footprint e (bounds_entry (b_win e) s)) as [_ _ D _ _ _].
      by rewrite D, bounds_entry_isDestroyed.
    + intros tid c Hp Hw. destruct (Hpend _ _ Hp) as [?|[Hp' Hne]]; [by right|].
      destruct c as [e'|e'|e']; simpl in Hw.
      * by destruct (Hleg tid e' Hp').
      * by left.
      * pose proof (inv_table_fwd _ Hi _ _ Hp'). congruence.
    + left. eauto.
  - unfold stepBounds, _isWindowValid.
    rewrite bounds_entry_isDestroyed, Hv. cbn [negb].
    destruct (Qlt_le_dec _ _) as [_|Hge]; [|by apply Qle_not_lt in Hge].
    rewrite Hstart. simpl. f_equal.
    by destruct (animationTimers s !! b_win e).
Qed.

Lemma bounds_written_app w l1 l2 :
  bounds_written w (l1 ++ l2) = bounds_written w l1 ++ bounds_written w l2.
Proof. apply omap_app. Qed.

Lemma run_two s ev1 ev2 s1 s2 :
  step s ev1 = Some s1 → step s1 ev2 = Some s2 → run s [ev1; ev2] = Some s2.
Proof. intros H1 H2. simpl. rewrite H1. simpl. by rewrite H2. Qed.

(** A due step of the session in charge, run once the duration has elapsed,
    completes the session and leaves the window at its target. *)
Lemma in_charge_completes e s tid due :
  wf s → in_charge e s →
  timers s !! tid = Some (due, StepBounds e) → due ≤ now s →
  (0 < b_duration e)%Q →
  (b_duration e <= inject_Z (now s - b_startTime e))%Q →
  ∃ s3, step s (Fire tid) = Some s3
    ∧ getBounds (b_win e) s3 = b_finalTargetBounds e
    ∧ (∃ older,
         trace s3 =
         completion (b_sid e) (b_onComplete e)
         ++ SetBounds (b_sid e) (b_win e) (b_finalTargetBounds e) :: older)
    ∧ (∀ tid' c, pending s3 tid' c → closure_sid c ≠ b_sid e)
    ∧ in_charge e s3 ∧ wf s3.
Proof.
  intros Hwf Hin Ht Hdue Hd Hel.
  assert (Hs : step s (Fire tid) = Some (stepBounds e (clearTimeout tid s))).
  { simpl. rewrite Ht. by rewrite decide_True. }
  eexists. split; [exact Hs|].
  destruct (step_in_charge e s (Fire tid) _ Hwf Hin Logic.I Hs) as [Hin3 _].
  pose proof (step_wf _ _ _ Hwf Hs) as Hwf3.
  destruct Hwf as [Hi _]. destruct Hin as (Hv & _ & _).
  destruct (stepBounds_valid_outcome e (clearTimeout tid s) Hv)
    as [[Hlt _]|(_ & Hb & Hsub & Htr)].
  { exfalso. change (now (clearTimeout tid s)) with (now s) in Hlt.
    unfold bounds_progress in Hlt.
    rewrite (progress_at_done _ _ Hd Hel) in Hlt. done. }
  split_and!; [done|done| |done|done].
  intros tid' c Hp' E. apply Hsub in Hp'.
  destruct Hp' as [d' Hp']. simpl in Hp'.
  apply lookup_delete_Some in Hp' as [Hne Hp'].
  apply Hne. eapply (inv_one_timer _ Hi); [by eexists..|done].
Qed.

(** Once the session in charge has no pending step, the window stays at its
    target for as long as it is left alone. *)
Lemma in_charge_stays e s evs s' :
  wf s → in_charge e s → (b_sid e < nextSession s)%nat →
  (∀ tid c, pending s tid c → closure_sid c ≠ b_sid e) →
  Forall passive evs → run s evs = Some s' →
  getBounds (b_win e) s' = b_finalTargetBounds e
  ∧ ∀ tid c, pending s' tid c → closure_sid c ≠ b_sid e.
Proof.
  intros Hwf Hin Hlt Hnp Hpass Hr.
  assert (Hd : ¬ live s (b_sid e)).
  { intros [(tid & c & Hp & E)|?]; [by apply (Hnp tid c)|lia]. }
  destruct (dead_session_silent _ _ _ _ Hr Hd) as (Hd' & _).
  destruct (run_in_charge _ _ _ _ Hwf Hin Hpass Hr) as ((_ & _ & Hend) & _).
  split.
  - destruct Hend as [[tid Hp]|?]; [|done].
    exfalso. apply Hd'. left. by exists tid, (StepBounds e).
  - intros tid c Hp E. apply Hd'. left. eauto.
Qed.

(** C1, as amended.  On a valid window [w] that no [animateWindow] chain is
    moving, [animateWindowBounds(w, A)] is called, time passes and timers
    fire, and while a step of A is still scheduled
    [animateWindowBounds(w, B)] is called with a positive duration (given,
    or the default); then time passes and timers fire again.  From the
    moment the second call begins:
    - session A adds nothing to the trace and has no pending step (its
      scheduled step was cancelled);
    - every [setBounds] on [w] comes from session B, the first of them
      rewriting the bounds the window had at the call;
    - at every later point either a step of B is pending, or the window is
      at B's fully resolved target;
    - the step of B that runs once B's duration has elapsed writes that
      target, invokes B's continuation and schedules nothing, and the
      window then stays at that target for as long as it is left alone;
    - and there is always a way for time to pass and timers to fire that
      ends in such a state. *)
Theorem supersede_correctness
    (ws : gmap nat Window) (t0 : Z) (evs0 : list event) (s0 : State)
    (w : handle) (A : PartialRectangle) (dA : option Q) (cA : option nat)
    (evs1 : list event) (s1 : State) (tidA : nat) (eA : BoundsEnv)
    (B : PartialRectangle) (dB : option Q) (cB : option nat)
    (evs2 : list event) (s2 : State) :
  run (init ws t0) evs0 = Some s0 →
  isDestroyed w s0 = false →
  (∀ tid e, pending s0 tid (StepWindow e) → w_win e ≠ w) →
  Forall passive evs1 →
  run (animateWindowBounds (Some w) A dA cA s0) evs1 = Some s1 →
  pending s1 tidA (StepBounds eA) → b_sid eA = nextSession s0 →
  (0 < or_else dB animationDuration)%Q →
  Forall passive evs2 →
  run (animateWindowBounds (Some w) B dB cB s1) evs2 = Some s2 →
  ∃ new, trace s2 = new ++ trace s1
    ∧ (∀ o, o ∈ new → obs_sid o ≠ nextSession s0)
    ∧ (∀ tid c, pending s2 tid c → closure_sid c ≠ nextSession s0)
    ∧ (∀ sid r, SetBounds sid w r ∈ new → sid = nextSession s1)
    ∧ last (bounds_written w new) = Some (getBounds w s1)
    ∧ ((∃ tid e, pending s2 tid (StepBounds e)
                 ∧ b_sid e = nextSession s1 ∧ b_win e = w
                 ∧ b_finalTargetBounds e = spread (getBounds w s1) B)
       ∨ getBounds w s2 = spread (getBounds w s1) B)
    ∧ (∀ tid due e,
         timers s2 !! tid = Some (due, StepBounds e) →
         b_sid e = nextSession s1 → due ≤ now s2 →
         (or_else dB animationDuration <= inject_Z (now s2 - now s1))%Q →
         ∃ s3, step s2 (Fire tid) = Some s3
           ∧ getBounds w s3 = spread (getBounds w s1) B
           ∧ (∃ older,
                trace s3 =
                completion (nextSession s1) cB
                ++ SetBounds (nextSession s1) w (spread (getBounds w s1) B)
                   :: older)
           ∧ (∀ tid' c, pending s3 tid' c → closure_sid c ≠ nextSession s1)
           ∧ ∀ evs3 s4, Forall passive evs3 → run s3 evs3 = Some s4 →
               getBounds w s4 = spread (getBounds w s1) B)
    ∧ (∃ evs3 s3, Forall passive evs3 ∧ run s2 evs3 = Some s3
         ∧ getBounds w s3 = spread (getBounds w s1) B
         ∧ (∀ tid c, pending s3 tid c → closure_sid c ≠ nextSession s1)
         ∧ ∀ evs4 s4, Forall passive evs4 → run s3 evs4 = Some s4 →
             getBounds w s4 = spread (getBounds w s1) B).
Proof.
  intros Hr0 Hv0 Hleg0 Hp1 Hr1 HpA HsA HdB Hp2 Hr2.
  pose proof (run_wf _ _ _ (init_wf ws t0) Hr0) as Hwf0.
  (* the first call *)
  set (eA0 := mkBoundsEnv (nextSession s0) w (getBounds w s0)
                (spread (getBounds w s0) A) (now s0)
                (or_else dA animationDuration) cA).
  assert (HcA : call_closure (AnimateWindowBounds (Some w) A dA cA) s0
                = Some (StepBounds eA0)) by done.
  assert (HstepA : step s0 (AnimateWindowBounds (Some w) A dA cA)
                   = Some (animateWindowBounds (Some w) A dA cA s0)) by done.
  pose proof (step_wf _ _ _ Hwf0 HstepA) as HwfA.
  destruct (call_owns _ _ _ _ Hwf0 HcA HstepA) as [HoA _].
  rewrite (animateWindowBounds_valid _ _ _ _ _ eA0 Hv0 HcA) in Hr1, HwfA, HoA.
  destruct (bounds_call_in_charge w eA0 s0) as (HinA & _);
    [done|done|done|done|done|done|done|apply or_else_nonzero|].
  (* up to the second call *)
  destruct (run_in_charge _ _ _ _ HwfA HinA Hp1 Hr1) as [Hin1 _].
  pose proof (run_wf _ _ _ HwfA Hr1) as Hwf1.
  destruct (run_owns _ _ _ _ Hr1 HoA) as [[_ Ho1] _].
  assert (eA = eA0) as ->.
  { assert (StepBounds eA = StepBounds eA0) as [= ->]; [|done].
    by apply (Ho1 tidA). }
  destruct Hin1 as (Hv1 & Honly1 & _).
  change (isDestroyed w s1 = false) in Hv1.
  (* the second call *)
  set (eB := mkBoundsEnv (nextSession s1) w (getBounds w s1)
               (spread (getBounds w s1) B) (now s1)
               (or_else dB animationDuration) cB).
  assert (HcB : call_closure (AnimateWindowBounds (Some w) B dB cB) s1
                = Some (StepBounds eB)) by done.
  assert (HstepB : step s1 (AnimateWindowBounds (Some w) B dB cB)
                   = Some (animateWindowBounds (Some w) B dB cB s1)) by done.
  pose proof (step_wf _ _ _ Hwf1 HstepB) as HwfB.
  pose proof (step_nextSession _ _ _ HstepB) as HnB.
  destruct (call_owns _ _ _ _ Hwf1 HcB HstepB) as [HoB _].
  rewrite (animateWindowBounds_valid _ _ _ _ _ eB Hv1 HcB)
    in Hr2, HwfB, HnB, HoB.
  destruct (bounds_call_in_charge w eB s1) as (HinB & HtB & _ & HpB);
    [done| done | |done|done|done|done|apply or_else_nonzero|].
  { intros tid e' Hp Hw. by destruct (Honly1 tid (StepWindow e') Hp Hw). }
  destruct Hwf1 as [Hi1 HT1].
  pose proof (inv_sid _ Hi1 _ _ HpA) as HltA. simpl in HltA.
  assert (HdeadA : ¬ live (stepBounds eB (bounds_entry w s1)) (nextSession s0)).
  { intros [(tid & c & Hp & E)|Hge]; [|lia].
    destruct (HpB _ _ Hp) as [->|[Hp' Hne]]; [simpl in E; lia|].
    assert (tid = tidA) as -> by (eapply (inv_one_timer _ Hi1); eauto).
    apply Hne. apply (inv_table_fwd _ Hi1 _ _ HpA). }
  destruct (dead_session_silent _ _ _ _ Hr2 HdeadA) as (Hdead2 & new & T & O).
  destruct (run_in_charge _ _ _ _ HwfB HinB Hp2 Hr2) as (Hin2 & new' & T' & O').
  pose proof (run_wf _ _ _ HwfB Hr2) as Hwf2.
  destruct (run_owns _ _ _ _ Hr2 HoB) as [[Hlt2 Ho2] _].
  simpl in Hlt2.
  assert (new' = new) as ->.
  { apply (app_inv_tail (trace (stepBounds eB (bounds_entry w s1)))).
    congruence. }
  (* the step of B that completes *)
  assert (Hfin : ∀ s tid due,
    wf s → in_charge eB s → (nextSession s1 < nextSession s)%nat →
    timers s !! tid = Some (due, StepBounds eB) → due ≤ now s →
    (or_else dB animationDuration <= inject_Z (now s - now s1))%Q →
    ∃ s3, step s (Fire tid) = Some s3
      ∧ getBounds w s3 = spread (getBounds w s1) B
      ∧ (∃ older,
           trace s3 =
           completion (nextSession s1) cB
           ++ SetBounds (nextSession s1) w (spread (getBounds w s1) B)
              :: older)
      ∧ (∀ tid' c, pending s3 tid' c → closure_sid c ≠ nextSession s1)
      ∧ ∀ evs3 s4, Forall passive evs3 → run s3 evs3 = Some s4 →
          getBounds w s4 = spread (getBounds w s1) B).
  { intros s tid due Hwf Hin Hlt Ht Hdue Hel.
    destruct (in_charge_completes eB s tid due Hwf Hin Ht Hdue HdB Hel)
      as (s3 & Hs3 & Hb & Htr & Hnp & Hin3 & Hwf3).
    exists s3. split_and!; [done..|].
    intros evs3 s4 Hp3 Hr3.
    pose proof (step_nextSession _ _ _ Hs3) as Hn3.
    destruct (in_charge_stays eB s3 evs3 s4) as [? _]; try done.
    simpl. lia. }
  exists (new ++ [SetBounds (nextSession s1) w (getBounds w s1)]).
  split_and!.
  - rewrite T, HtB. by rewrite <- app_assoc.
  - intros o [?|Hin]%elem_of_app; [by apply O|].
    apply list_elem_of_singleton in Hin as ->. simpl. lia.
  - intros tid c Hp E. apply Hdead2. left. eauto.
  - intros sid r [Hin|Hin]%elem_of_app; [by apply (O' sid r)|].
    apply list_elem_of_singleton in Hin. congruence.
  - rewrite bounds_written_app. simpl. rewrite decide_True by done.
    apply last_snoc.
  - destruct Hin2 as (_ & _ & [[tid Hp]|?]); [left|by right].
    exists tid, eB. done.
  - intros tid due e Ht Hsid Hdue Hel.
    assert (StepBounds e = StepBounds eB) as [= ->]
      by (apply (Ho2 tid); [by exists due|done]).
    by apply (Hfin s2 tid due).
  - destruct (decide (Exists (λ x, closure_sid x.2.2 = nextSession s1)
                        (map_to_list (timers s2)))) as [Hex|Hnex].
    + apply Exists_exists in Hex as ([tid [due c]] & Hin & E). simpl in E.
      apply elem_of_map_to_list in Hin.
      assert (c = StepBounds eB) as ->
        by (apply (Ho2 tid); [by exists due|done]).
      set (dt := Z.max 0 (Z.max (due - now s2)
                            (Qceiling (or_else dB animationDuration)
                             - (now s2 - now s1)))).
      assert (Hel : step s2 (Elapse dt) = Some (set_now (now s2 + dt) s2)).
      { simpl. rewrite decide_True; [done|]. unfold dt. lia. }
      destruct (step_in_charge eB s2 (Elapse dt) _ Hwf2 Hin2 Logic.I Hel)
        as [Hin2' _].
      pose proof (step_wf _ _ _ Hwf2 Hel) as Hwf2'.
      destruct (Hfin (set_now (now s2 + dt) s2) tid due Hwf2' Hin2')
        as (s3 & Hs3 & Hb & _ & Hnp & Hst); [done|done|simpl; lia| |].
      { eapply Qle_trans; [apply Qle_ceiling|].
        rewrite <- Zle_Qle. simpl. lia. }
      exists [Elapse dt; Fire tid], s3. split_and!; [|..|done|done|done].
      * by repeat constructor.
      * by apply (run_two _ _ _ _ _ Hel).
    + assert (Hnp : ∀ tid c, pending s2 tid c → closure_sid c ≠ nextSession s1).
      { intros tid c [due Hp] E. apply Hnex, Exists_exists.
        exists (tid, (due, c)). split; [by apply elem_of_map_to_list|done]. }
      exists [], s2. split_and!; [done|done| |done|].
      * destruct Hin2 as (_ & _ & [[tid Hp]|?]); [|done].
        by destruct (Hnp tid (StepBounds eB) Hp).
      * intros evs4 s4 Hp4 Hr4.
        by destruct (in_charge_stays eB s2 evs4 s4) as [? _].
Qed.

Lemma supersede_correctness_witness :
  pending sample_mid 1 (StepBounds sample_envA)
  ∧ timers sample_superseded !! 2%nat
    = Some (1016,
            StepBounds
              (mkBoundsEnv 1 7 (Rectangle.mk 8 0 100 100)
                 (Rectangle.mk 50 0 100 100) 1008 300 (Some 2%nat)))
  ∧ ∃ new, trace sample_superseded = new ++ trace sample_mid
    ∧ (∀ o, o ∈ new → obs_sid o ≠ nextSession sample)
    ∧ (∀ tid c, pending sample_superseded tid c →
         closure_sid c ≠ nextSession sample)
    ∧ (∀ sid r, SetBounds sid 7%nat r ∈ new → sid = nextSession sample_mid)
    ∧ last (bounds_written 7 new) = Some (getBounds 7 sample_mid)
    ∧ ((∃ tid e, pending sample_superseded tid (StepBounds e)
                 ∧ b_sid e = nextSession sample_mid ∧ b_win e = 7%nat
                 ∧ b_finalTargetBounds e
                   = spread (getBounds 7 sample_mid) (only_x 50))
       ∨ getBounds 7 sample_superseded
         = spread (getBounds 7 sample_mid) (only_x 50))
    ∧ (∀ tid due e,
         timers sample_superseded !! tid = Some (due, StepBounds e) →
         b_sid e = nextSession sample_mid → due ≤ now sample_superseded →
         (or_else None animationDuration
          <= inject_Z (now sample_superseded - now sample_mid))%Q →
         ∃ s3, step sample_superseded (Fire tid) = Some s3
           ∧ getBounds 7 s3 = spread (getBounds 7 sample_mid) (only_x 50)
           ∧ (∃ older,
                trace s3 =
                completion (nextSession sample_mid) (Some 2%nat)
                ++ SetBounds (nextSession sample_mid) 7
                     (spread (getBounds 7 sample_mid) (only_x 50))
                   :: older)
           ∧ (∀ tid' c, pending s3 tid' c →
                closure_sid c ≠ nextSession sample_mid)
           ∧ ∀ evs3 s4, Forall passive evs3 → run s3 evs3 = Some s4 →
               getBounds 7 s4 = spread (getBounds 7 sample_mid) (only_x 50))
    ∧ (∃ evs3 s3, Forall passive evs3 ∧ run sample_superseded evs3 = Some s3
         ∧ getBounds 7 s3 = spread (getBounds 7 sample_mid) (only_x 50)
         ∧ (∀ tid c, pending s3 tid c → closure_sid c ≠ nextSession sample_mid)
         ∧ ∀ evs4 s4, Forall passive evs4 → run s3 evs4 = Some s4 →
             getBounds 7 s4 = spread (getBounds 7 sample_mid) (only_x 50)).
Proof.
  assert (Hp : pending sample_mid 1 (StepBounds sample_envA))
    by (exists 1016; vm_compute; reflexivity).
  split; [exact Hp|]. split; [vm_compute; reflexivity|].
  apply (supersede_correctness {[ 7%nat := sample_window ]} 1000 [] sample
           7%nat (only_x 100) None (Some 1%nat)
           [Elapse 8; Fire 0%nat] sample_mid 1%nat sample_envA
           (only_x 50) None (Some 2%nat) [Elapse 300] sample_superseded).
  - reflexivity.
  - reflexivity.
  - intros tid e [due H]. vm_compute in H. discriminate.
  - repeat constructor.
  - vm_compute. reflexivity.
  - exact Hp.
  - reflexivity.
  - reflexivity.
  - repeat constructor.
  - vm_compute. reflexivity.
Defined.

(** C1 fails as stated, in two ways.  First, with a chain of
    [animateWindow] running on the window: the chain is not superseded, it
    writes after the second call, and when everything has run the window is
    at the target of the chain, [{500, 500}], not at B's target [x = 50].
    Second, with a negative duration for B: the step of B run 304 ms after
    the call moves the window to [x = -1565], away from B's target, and
    schedules itself again. *)
Lemma supersede_not_terminal :
  (λ s, (getBounds 7 s, pending_list s, bounds_writers 7 (trace s)))
    <$> run sample
          [AnimateWindow (Some 7%nat) 500 500 None None None;
           AnimateWindowBounds (Some 7%nat) (only_x 100) None (Some 1%nat);
           Elapse 8; Fire 1%nat;
           AnimateWindowBounds (Some 7%nat) (only_x 50) None (Some 2%nat);
           Elapse 300; Fire 3%nat; Fire 0%nat]
  = Some (Rectangle.mk 500 500 100 100, [],
          [0; 2; 2; 2; 1; 1; 0]%nat)
  ∧ (λ s, (getBounds 7 s, pending_list s, completed_sids (trace s)))
      <$> run sample
            [AnimateWindowBounds (Some 7%nat) (only_x 100) None (Some 1%nat);
             Elapse 8; Fire 0%nat;
             AnimateWindowBounds (Some 7%nat) (only_x 50) (Some (-128)%Q)
               (Some 2%nat);
             Elapse 304; Fire 2%nat]
    = Some (Rectangle.mk (-1565) 0 100 100, [(3%nat, 1320, 1%nat, 7%nat)], []).
Proof. split; vm_compute; reflexivity. Qed.

(** ** The position wrapper *)

(** The step of a session in charge that finds its progress at 1 leaves the
    window at the target, and the session without a pending step. *)
Lemma completing_step e s tid s3 :
  wf s → isDestroyed (b_win e) s = false →
  pending s tid (StepBounds e) →
  (1 <= bounds_progress e (now s))%Q →
  step s (Fire tid) = Some s3 →
  getBounds (b_win e) s3 = b_finalTargetBounds e
  ∧ ∀ tid' c, pending s3 tid' c → closure_sid c ≠ b_sid e.
Proof.
  intros [Hi _] Hv Hp Hge Hs3.
  simpl in Hs3. destruct Hp as [due Hp]. rewrite Hp in Hs3.
  case_decide; [|done]. injection Hs3 as <-.
  destruct (stepBounds_valid_outcome e (clearTimeout tid s) Hv)
    as [[Hlt _]|(_ & Hb & Hsub & _)].
  { by apply Qle_not_lt in Hge. }
  split; [done|].
  intros tid' c Hp' E. apply Hsub in Hp'.
  destruct Hp' as [d' Hp']. simpl in Hp'.
  apply lookup_delete_Some in Hp' as [Hne Hp'].
  apply Hne. eapply (inv_one_timer _ Hi); [by eexists..|done].
Qed.

Lemma kept_target start tx ty : kept start tx ty (spread_position start tx ty).
Proof. split_and!; try done; by intros ->. Qed.

Lemma kept_newBounds e start tx ty t :
  b_startBounds e = start →
  b_finalTargetBounds e = spread_position start tx ty →
  kept start tx ty (newBounds e t).
Proof.
  intros Es Ef. unfold newBounds. rewrite Es, Ef.
  split_and!; simpl; try apply lerp_round_const.
  - intros ->. apply lerp_round_const.
  - intros ->. apply lerp_round_const.
Qed.

(** C8.  After [animateWindowPosition(w, { x?, y? }, opts)] on a valid
    window, every rectangle that the session gives to [setBounds], at any
    step and whatever else happens, has the width and height of the start
    bounds and the start value of each of [x], [y] that the target does not
    name; so has the target.  If no [animateWindow] chain is moving [w] and
    only time passes and timers fire, then either a step of the session is
    pending or the window is exactly at the target, and the step that finds
    its progress at 1 leaves it there. *)
Theorem position_keeps_other_fields
    (ws : gmap nat Window) (t0 : Z) (evs0 : list event) (s0 : State)
    (w : handle) (tx ty : option Z) (d : option Q) (oc : option nat)
    (evs : list event) (s' : State) :
  run (init ws t0) evs0 = Some s0 →
  isDestroyed w s0 = false →
  run (animateWindowPosition (Some w) tx ty d oc s0) evs = Some s' →
  (∃ new, trace s' = new ++ trace s0
     ∧ ∀ w' r, SetBounds (nextSession s0) w' r ∈ new →
         w' = w ∧ kept (getBounds w s0) tx ty r)
  ∧ kept (getBounds w s0) tx ty (spread_position (getBounds w s0) tx ty)
  ∧ ((∀ tid e, pending s0 tid (StepWindow e) → w_win e ≠ w) →
     Forall passive evs →
     ((∃ tid e, pending s' tid (StepBounds e) ∧ b_sid e = nextSession s0)
      ∨ getBounds w s' = spread_position (getBounds w s0) tx ty)
     ∧ ∀ tid e s3,
         pending s' tid (StepBounds e) → b_sid e = nextSession s0 →
         (1 <= bounds_progress e (now s'))%Q →
         step s' (Fire tid) = Some s3 →
         getBounds w s3 = spread_position (getBounds w s0) tx ty).
Proof.
  intros Hr0 Hv Hr.
  pose proof (run_wf _ _ _ (init_wf ws t0) Hr0) as Hwf0.
  set (e0 := mkBoundsEnv (nextSession s0) w (getBounds w s0)
               (spread_position (getBounds w s0) tx ty) (now s0)
               (or_else d animationDuration) oc).
  assert (Hc : call_closure (AnimateWindowPosition (Some w) tx ty d oc) s0
               = Some (StepBounds e0)) by done.
  assert (Hstep : step s0 (AnimateWindowPosition (Some w) tx ty d oc)
                  = Some (animateWindowPosition (Some w) tx ty d oc s0)) by done.
  pose proof (step_wf _ _ _ Hwf0 Hstep) as Hwf1.
  destruct (call_owns _ _ _ _ Hwf0 Hc Hstep) as [Ho1 (new1 & T1 & O1)].
  destruct (run_owns _ _ _ _ Hr Ho1) as [[_ Ho2] (new2 & T2 & O2)].
  rewrite Forall_forall in O1.
  split_and!.
  - exists (new2 ++ new1). split; [by rewrite T2, T1, app_assoc|].
    intros w' r Hin.
    assert (∃ t, obs_by (StepBounds e0) t (SetBounds (nextSession s0) w' r))
      as [t (_ & -> & Hrect)].
    { apply elem_of_app in Hin as [Hin|Hin]; eauto. }
    split; [done|]. destruct Hrect as [-> | ->].
    + by apply kept_newBounds.
    + apply kept_target.
  - apply kept_target.
  - intros Hleg Hpass.
    rewrite (animateWindowPosition_valid _ _ _ _ _ _ e0 Hv Hc) in Hr, Hwf1.
    destruct (bounds_call_in_charge w e0 s0) as (Hin & _);
      [done|done|done|done|done|done|done|apply or_else_nonzero|].
    destruct (run_in_charge _ _ _ _ Hwf1 Hin Hpass Hr) as ((Hv' & _ & Hend) & _).
    split.
    + destruct Hend as [[tid Hp]|?]; [left|by right]. by exists tid, e0.
    + intros tid e s3 Hp Hsid Hge Hs3.
      assert (StepBounds e = StepBounds e0) as [= ->] by by apply (Ho2 tid).
      eapply (completing_step e0); [by eapply run_wf|done..].
Qed.

Lemma position_keeps_other_fields_witness :
  isDestroyed 7 sample = false
  ∧ getBounds 7 scenario_end = Rectangle.mk 200 0 100 100
  ∧ Rectangle.y <$> bounds_written 7 (trace scenario_end) = [0; 0; 0; 0; 0]
  ∧ (∃ new, trace scenario_end = new ++ trace sample
       ∧ ∀ w' r, SetBounds (nextSession sample) w' r ∈ new →
           w' = 7%nat ∧ kept (getBounds 7 sample) (Some 200) None r)
  ∧ kept (getBounds 7 sample) (Some 200) None
      (spread_position (getBounds 7 sample) (Some 200) None)
  ∧ ((∀ tid e, pending sample tid (StepWindow e) → w_win e ≠ 7%nat) →
     Forall passive
       [Elapse 8; Fire 0%nat; Elapse 150; Fire 1%nat; Elapse 142; Fire 2%nat] →
     ((∃ tid e, pending scenario_end tid (StepBounds e)
                ∧ b_sid e = nextSession sample)
      ∨ getBounds 7 scenario_end
        = spread_position (getBounds 7 sample) (Some 200) None)
     ∧ ∀ tid e s3,
         pending scenario_end tid (StepBounds e) →
         b_sid e = nextSession sample →
         (1 <= bounds_progress e (now scenario_end))%Q →
         step scenario_end (Fire tid) = Some s3 →
         getBounds 7 s3 = spread_position (getBounds 7 sample) (Some 200) None).
Proof.
  split; [reflexivity|].
  split; [vm_compute; reflexivity|].
  split; [vm_compute; reflexivity|].
  apply (position_keeps_other_fields {[ 7%nat := sample_window ]} 1000 [] sample
           7%nat (Some 200) None (Some 300%Q) None
           [Elapse 8; Fire 0%nat; Elapse 150; Fire 1%nat; Elapse 142; Fire 2%nat]
           scenario_end).
  - reflexivity.
  - reflexivity.
  - vm_compute. reflexivity.
Defined.

(** ** Completion *)

Lemma js_rnd_exact a : js_rnd exact a = a.
Proof. by destruct a. Qed.

Lemma js_pow3A_exact a : js_pow3A exact a = js_pow3 a.
Proof. by destruct a. Qed.

(** Without rounding, the steps in the arithmetic of the host are the steps
    that the transition system runs. *)
Lemma run_closureA_exact c s : run_closureA exact c s = run_closure c s.
Proof.
  destruct c as [e|e|e]; [done| |done]. simpl.
  unfold stepFadeA, stepFade.
  destruct (_isWindowValid (Some (f_win e)) s) as [valid s0].
  unfold fade_progressA, fade_easedA, fade_valueA.
  by rewrite !js_rnd_exact, !js_pow3A_exact.
Qed.

Lemma fade_progress_finite e t :
  ¬ (f_duration e == 0)%Q →
  fade_progress e t = JNum (progress_at (t - f_startTime e) (f_duration e)).
Proof.
  intros Hd. unfold fade_progress, js_div.
  destruct (Qeq_bool (f_duration e) 0) eqn:E; [|done].
  by apply Qeq_bool_iff in E.
Qed.

Section Completion.
Context (A : Arith) (OK : ArithOK A).

Lemma easedA_comp p q : (p == q)%Q → (easedA A p == easedA A q)%Q.
Proof.
  intros E. unfold easedA.
  apply rnd_comp; [done|]. apply Qplus_comp; [done|]. apply Qopp_comp.
  apply pow3_comp; [done|]. apply rnd_comp; [done|]. by rewrite E.
Qed.

Lemma coordA_comp s t t' e e' :
  (t == t')%Q → (e == e')%Q → coordA A s t e = coordA A s t' e'.
Proof.
  intros Et Ee. unfold coordA. apply Math_round_comp.
  apply rnd_comp; [done|]. apply Qplus_comp; [done|].
  apply rnd_comp; [done|]. apply Qmult_comp; [|done].
  apply rnd_comp; [done|]. by rewrite Et.
Qed.

Lemma window_progressA_eq e t :
  (window_progressA A e t
   == progressA A (t - w_startTime e) (w_duration e))%Q.
Proof. apply Q.min_comm. Qed.

(** The coordinate that the step of [animateWindow] writes, when the target
    is an integer. *)
Lemma window_coord e t s z tq :
  (tq == inject_Z z)%Q →
  coordA A s tq (easedA A (window_progressA A e t))
  = coordA A s (inject_Z z)
      (easedA A (progressA A (t - w_startTime e) (w_duration e))).
Proof.
  intros E. apply coordA_comp; [done|]. apply easedA_comp, window_progressA_eq.
Qed.

Lemma windowBoundsA_done e t x y :
  (0 < w_duration e)%Q → (w_duration e <= inject_Z (t - w_startTime e))%Q →
  (w_targetX e == inject_Z x)%Q → (w_targetY e == inject_Z y)%Q →
  safe (Rectangle.x (w_start e)) → safe (Rectangle.y (w_start e)) →
  safe x → safe y →
  windowBoundsA A e t = Rectangle.mk x y (w_width e) (w_height e).
Proof.
  intros Hd Hel Ex Ey Sx Sy Tx Ty. unfold windowBoundsA.
  rewrite (window_coord e t _ x _ Ex), (window_coord e t _ y _ Ey).
  by rewrite !(coordA_done A OK).
Qed.

Lemma fade_progressA_finite e t :
  ¬ (f_duration e == 0)%Q →
  fade_progressA A e t
  = JNum (progressA A (t - f_startTime e) (f_duration e)).
Proof.
  intros Hd. unfold fade_progressA, js_div.
  destruct (Qeq_bool (f_duration e) 0) eqn:E; [|done].
  by apply Qeq_bool_iff in E.
Qed.

End Completion.

(** C3, as amended.  Let a session with a positive duration have a step
    pending and due, on a window that is still valid, when the time elapsed
    since the session started has reached the duration.  Then, in every
    arithmetic that satisfies [ArithOK], the step completes the session:
    [onComplete] is invoked, nothing is scheduled, and
    - the step of [animateWindowBounds] (hence of [animateWindowPosition])
      writes the interpolated bounds and then, as its last setter call, the
      exact target bounds, in which it leaves the window;
    - the step of [fade] writes the interpolated opacity and then, as its
      last setter call, the exact target opacity, in which it leaves the
      window;
    - the step of [animateWindow] makes one setter call, with the rounded
      interpolation: it has no write of the exact target.  These bounds are
      the target when the target and the start coordinates are integers of
      magnitude at most [2 ^ 52].
    The last part says that without rounding this step is the [Fire] event
    of the transition system. *)
Theorem completion_convergence
    (A : Arith) (s : State) (tid : nat) (due : Z) (c : closure) :
  ArithOK A →
  timers s !! tid = Some (due, c) → due ≤ now s →
  isDestroyed (closure_win c) s = false →
  (0 < closure_duration c)%Q →
  (closure_duration c <= inject_Z (now s - closure_startTime c))%Q →
  trace (fire A tid c s)
  = completion (closure_sid c) (closure_onComplete c)
    ++ completing_writes A c (now s) ++ trace s
  ∧ settled A c (now s) (fire A tid c s)
  ∧ (∀ tid' c', pending (fire A tid c s) tid' c' →
       pending s tid' c' ∧ tid' ≠ tid)
  ∧ (∀ e x y, c = StepWindow e →
       (w_targetX e == inject_Z x)%Q → (w_targetY e == inject_Z y)%Q →
       safe (Rectangle.x (w_start e)) → safe (Rectangle.y (w_start e)) →
       safe x → safe y →
       windowBoundsA A e (now s) = Rectangle.mk x y (w_width e) (w_height e))
  ∧ step s (Fire tid) = Some (fire exact tid c s).
Proof.
  intros OK Ht Hdue Hv Hd Hel. unfold fire.
  set (s1 := clearTimeout tid s).
  assert (Hv1 : isDestroyed (closure_win c) s1 = false) by done.
  assert (∃ W, windows s1 !! closure_win c = Some W) as [W EW].
  { unfold isDestroyed in Hv1. destruct (windows s1 !! closure_win c); eauto.
    done. }
  assert (Hsub : ∀ tid' c', pending s1 tid' c' → pending s tid' c' ∧ tid' ≠ tid).
  { intros tid' c' [d' Hp]. simpl in Hp.
    apply lookup_delete_Some in Hp as [? Hp]. split; [by exists d'|done]. }
  assert (Hfire : step s (Fire tid) = Some (run_closureA exact c s1)).
  { simpl. rewrite Ht, decide_True by done. by rewrite run_closureA_exact. }
  split_and!; [| | | |exact Hfire]; clear Hfire; revert Hv1 EW;
    destruct c as [e|e|e]; simpl in *; intros Hv1 EW.
  all: try done.
  all: try (assert (1 <= window_progressA A e (now s))%Q as Hge
              by (rewrite window_progressA_eq by done;
                  by rewrite (progressA_done A OK _ _ Hd Hel)));
       try (assert (¬ (f_duration e == 0)%Q) as Hnz
              by (intros E; rewrite E in Hd; done)).
  all: unfold stepWindowA, stepFadeA, stepBoundsA, _isWindowValid;
    rewrite ?Hv1; cbn [negb]; change (now s1) with (now s);
    rewrite ?(fade_progressA_finite A e _ Hnz); unfold bounds_progressA;
    cbn [js_ltb].
  all: try (destruct (Qlt_le_dec _ _) as [Hlt|_];
            [exfalso; first [ by apply Qle_not_lt in Hge
                            | by rewrite (progressA_done A OK) in Hlt by done ]|]).
  - by destruct (w_onComplete e).
  - by destruct (f_onComplete e).
  - case_decide; by destruct (b_onComplete e).
  - destruct (w_onComplete e); unfold getBounds; simpl;
      by rewrite lookup_alter_eq, EW.
  - destruct (f_onComplete e); unfold getOpacity; simpl;
      by rewrite !lookup_alter_eq, EW.
  - case_decide; destruct (b_onComplete e); unfold getBounds; simpl;
      by rewrite !lookup_alter_eq, EW.
  - destruct (w_onComplete e); apply Hsub.
  - destruct (f_onComplete e); apply Hsub.
  - case_decide; destruct (b_onComplete e); apply Hsub.
  - intros e' x y [= <-]. by apply windowBoundsA_done.
Qed.

Lemma completion_convergence_witness :
  (timers sample_late !! 0%nat = Some (1008, StepBounds sample_envA)
   ∧ trace (fire binary64 0 (StepBounds sample_envA) sample_late)
     = completion 0 (Some 1%nat)
       ++ completing_writes binary64 (StepBounds sample_envA) (now sample_late)
       ++ trace sample_late
   ∧ getBounds 7 (fire binary64 0 (StepBounds sample_envA) sample_late)
     = Rectangle.mk 100 0 100 100
   ∧ step sample_late (Fire 0%nat)
     = Some (fire exact 0 (StepBounds sample_envA) sample_late))
  ∧ (timers sample_legacy_late !! 0%nat = Some (1008, StepWindow sample_envW)
     ∧ trace (fire binary64 0 (StepWindow sample_envW) sample_legacy_late)
       = completion 0 (Some 1%nat)
         ++ completing_writes binary64 (StepWindow sample_envW)
              (now sample_legacy_late)
         ++ trace sample_legacy_late
     ∧ getBounds 7 (fire binary64 0 (StepWindow sample_envW) sample_legacy_late)
       = windowBoundsA binary64 sample_envW (now sample_legacy_late)
     ∧ windowBoundsA binary64 sample_envW (now sample_legacy_late)
       = Rectangle.mk 100 0 100 100).
Proof.
  split.
  - assert (Ht : timers sample_late !! 0%nat
                 = Some (1008, StepBounds sample_envA))
      by (vm_compute; reflexivity).
    destruct (completion_convergence binary64 sample_late 0%nat 1008
                (StepBounds sample_envA)) as (T & S & _ & _ & F).
    + exact binary64_ok.
    + exact Ht.
    + vm_compute. discriminate.
    + reflexivity.
    + reflexivity.
    + vm_compute. discriminate.
    + split_and!; [exact Ht|exact T|exact S|exact F].
  - assert (Ht : timers sample_legacy_late !! 0%nat
                 = Some (1008, StepWindow sample_envW))
      by (vm_compute; reflexivity).
    destruct (completion_convergence binary64 sample_legacy_late 0%nat 1008
                (StepWindow sample_envW)) as (T & S & _ & W & _).
    + exact binary64_ok.
    + exact Ht.
    + vm_compute. discriminate.
    + reflexivity.
    + reflexivity.
    + vm_compute. discriminate.
    + split_and!; [exact Ht|exact T|exact S|].
      apply (W sample_envW 100 0); try done; unfold safe; simpl; lia.
Defined.

(** C3 fails as stated, in three ways.  With a duration of -100 ms the
    elapsed time is at least the duration from the first step on, yet the
    steps run 8 ms and 1008 ms after the call leave the window away from
    the target [x = 100] and schedule a further step; the session has not
    completed.  [animateWindow] to [x = 100.5] completes with the window at
    [x = 101]: its last write is the rounded interpolation.  And
    [animateWindow] from [x = -1] to [x = 2 ^ 53] completes, in double
    precision, with the window at [x = 2 ^ 53 - 1]. *)
Lemma negative_duration_never_converges :
  (λ s, (getBounds 7 s, pending_list s, completed_sids (trace s)))
    <$> run sample
          [AnimateWindowBounds (Some 7%nat) (only_x 100) (Some (-100)%Q)
             (Some 1%nat);
           Elapse 8; Fire 0%nat]
  = Some (Rectangle.mk (-26) 0 100 100, [(1%nat, 1016, 0%nat, 7%nat)], [])
  ∧ (λ s, (getBounds 7 s, pending_list s, completed_sids (trace s)))
      <$> run sample
            [AnimateWindowBounds (Some 7%nat) (only_x 100) (Some (-100)%Q)
               (Some 1%nat);
             Elapse 8; Fire 0%nat; Elapse 1000; Fire 1%nat]
    = Some (Rectangle.mk (-135925) 0 100 100, [(2%nat, 2016, 0%nat, 7%nat)], [])
  ∧ (λ s, (getBounds 7 s, pending_list s, completed_sids (trace s)))
      <$> run sample
            [AnimateWindow (Some 7%nat) (201 # 2)%Q 0 None (Some 1%nat) None;
             Elapse 300; Fire 0%nat]
    = Some (Rectangle.mk 101 0 100 100, [], [0%nat])
  ∧ (λ '(due, c),
       (due, w_targetX <$> (match c with StepWindow e => Some e | _ => None end),
        getBounds 7 (fire binary64 0 c sample_far),
        pending_list (fire binary64 0 c sample_far),
        completed_sids (trace (fire binary64 0 c sample_far))))
      <$> timers sample_far !! 0%nat
    = Some (1008, Some (inject_Z (2 ^ 53)),
            Rectangle.mk (2 ^ 53 - 1) 0 100 100, [], [0%nat]).
Proof. split_and!; vm_compute; reflexivity. Qed.

(** ** Durations that are not positive *)

Lemma or_else_zero q d : (q == 0)%Q → or_else (Some q) d = d.
Proof. intros E. unfold or_else. by apply Qeq_bool_iff in E as ->. Qed.

Lemma fade_progress_zero e :
  (f_duration e == 0)%Q → fade_progress e (f_startTime e) = JNaN.
Proof.
  intros E. unfold fade_progress, js_div. rewrite Z.sub_diag.
  by apply Qeq_bool_iff in E as ->.
Qed.

(** With a negative duration, as time goes on, the progress stays below 1. *)
Lemma negative_progress_lt_1 el d :
  (0 <= el)%Z → (d < 0)%Q → (progress_at el d < 1)%Q.
Proof.
  intros Hel Hd. eapply Qle_lt_trans; [by apply progress_at_negative|done].
Qed.

(** C2, as amended.  A duration of zero is falsy: [animateWindow],
    [animateWindowBounds] and [animateWindowPosition] then behave exactly as
    with no duration, that is with the default of 300 ms.  [fade] with a
    zero duration on a valid window ends within the call: the last setter
    call applies the exact target opacity, [onComplete] is invoked and
    nothing is scheduled (the progress is the NaN of [0 / 0], which is not
    below 1).  With a negative duration a step run at or after the start
    time on a valid window never finds its progress at 1: it schedules
    itself again and completes nothing. *)
Theorem nonpositive_duration :
  (∀ q win tx ty so oc s, (q == 0)%Q →
     animateWindow win tx ty so oc (Some q) s
     = animateWindow win tx ty so oc None s)
  ∧ (∀ q win tb oc s, (q == 0)%Q →
       animateWindowBounds win tb (Some q) oc s
       = animateWindowBounds win tb None oc s)
  ∧ (∀ q win tx ty oc s, (q == 0)%Q →
       animateWindowPosition win tx ty (Some q) oc s
       = animateWindowPosition win tx ty None oc s)
  ∧ (∀ q w from to oc s, (q == 0)%Q → isDestroyed w s = false →
       getOpacity w (fade (Some w) from to (Some q) oc s) = JNum to
       ∧ (∃ v, trace (fade (Some w) from to (Some q) oc s)
               = completion (nextSession s) oc
                 ++ [SetOpacity (nextSession s) w (JNum to);
                     SetOpacity (nextSession s) w v]
                 ++ trace s)
       ∧ ∀ tid c, pending (fade (Some w) from to (Some q) oc s) tid c →
           pending s tid c)
  ∧ (∀ c s, (closure_duration c < 0)%Q → closure_startTime c ≤ now s →
       isDestroyed (closure_win c) s = false →
       pending (run_closure c s) (nextTimer s) c
       ∧ completed_sids (trace (run_closure c s)) = completed_sids (trace s)).
Proof.
  split_and!.
  - intros q win tx ty so oc s E. unfold animateWindow.
    by rewrite (or_else_zero q _ E).
  - intros q win tb oc s E. unfold animateWindowBounds.
    by rewrite (or_else_zero q _ E).
  - intros q win tx ty oc s E. unfold animateWindowPosition, animateWindowBounds.
    by rewrite (or_else_zero q _ E).
  - intros q w from to oc s E Hv. unfold fade. name_session s s1.
    unfold _isWindowValid. replace (isDestroyed w s1) with false by done.
    set (e := mkFadeEnv _ _ _ _ _ _ _).
    unfold stepFade, _isWindowValid.
    replace (isDestroyed (f_win e) s1) with false by done. cbn [negb].
    change (now s1) with (f_startTime e).
    rewrite (fade_progress_zero e) by done. cbn [js_ltb].
    unfold isDestroyed in Hv.
    destruct (windows s !! w) as [W|] eqn:EW; [|done].
    split_and!.
    + destruct oc; unfold getOpacity; simpl; by rewrite !lookup_alter_eq, EW.
    + destruct oc; simpl; eauto.
    + by destruct oc.
  - intros c s Hd Ht Hv.
    assert (0 ≤ now s - closure_startTime c) as Hel by lia.
    destruct c as [e|e|e]; simpl in *.
    + unfold stepWindow, _isWindowValid. rewrite Hv. cbn [negb].
      destruct (Qlt_le_dec _ _) as [_|Hge].
      * split; [|done]. exists (now s + 8). simpl. by rewrite lookup_insert_eq.
      * exfalso. apply Qle_not_lt in Hge. apply Hge.
        unfold window_progress. rewrite Q.min_comm.
        by apply negative_progress_lt_1.
    + assert (¬ (f_duration e == 0)%Q) as Hnz
        by (intros E; rewrite E in Hd; done).
      unfold stepFade, _isWindowValid. rewrite Hv. cbn [negb].
      rewrite (fade_progress_finite e _ Hnz). cbn [js_ltb].
      destruct (Qlt_le_dec _ _) as [_|Hge].
      * split; [|done]. exists (now s + 8). simpl. by rewrite lookup_insert_eq.
      * exfalso. apply Qle_not_lt in Hge. apply Hge.
        by apply negative_progress_lt_1.
    + unfold stepBounds, _isWindowValid. rewrite Hv. cbn [negb].
      destruct (Qlt_le_dec _ _) as [_|Hge].
      * split; [|done]. exists (now s + 8). simpl. by rewrite lookup_insert_eq.
      * exfalso. apply Qle_not_lt in Hge. apply Hge.
        by apply negative_progress_lt_1.
Qed.

(** C2 fails as stated.  [animateWindowBounds] with a duration of 0: the
    first evaluation, made by the call itself, writes the start bounds and
    not the target [x = 100], schedules a next step and completes nothing. *)
Lemma zero_duration_is_not_instant :
  (λ s, (bounds_written 7 (trace s), pending_list s, completed_sids (trace s)))
    <$> run sample
          [AnimateWindowBounds (Some 7%nat) (only_x 100) (Some 0%Q) (Some 1%nat)]
  = Some ([Rectangle.mk 0 0 100 100], [(0%nat, 1008, 0%nat, 7%nat)], []).
Proof. vm_compute. reflexivity. Qed.

Lemma nonpositive_duration_witness :
  isDestroyed 7 sample = false
  ∧ getOpacity 7 (fade (Some 7%nat) None (1 # 2)%Q (Some 0%Q) (Some 1%nat) sample)
    = JNum (1 # 2)
  ∧ (∃ v, trace (fade (Some 7%nat) None (1 # 2)%Q (Some 0%Q) (Some 1%nat) sample)
          = completion (nextSession sample) (Some 1%nat)
            ++ [SetOpacity (nextSession sample) 7 (JNum (1 # 2));
                SetOpacity (nextSession sample) 7 v]
            ++ trace sample)
  ∧ ∀ tid c,
      pending (fade (Some 7%nat) None (1 # 2)%Q (Some 0%Q) (Some 1%nat) sample)
        tid c →
      pending sample tid c.
Proof.
  split; [reflexivity|].
  destruct nonpositive_duration as (_ & _ & _ & H & _).
  apply (H 0%Q 7%nat None (1 # 2)%Q (Some 1%nat) sample); reflexivity.
Defined.

(** ** Monotone motion *)

Lemma window_progress_eq e t :
  (window_progress e t == progress_at (t - w_startTime e) (w_duration e))%Q.
Proof. apply Q.min_comm. Qed.

Lemma fade_value_finite e a p :
  f_startOpacity e = JNum a →
  fade_value e (fade_eased (JNum p)) = JNum (fade_q a (f_to e) p).
Proof. intros E. unfold fade_value. by rewrite E. Qed.

Lemma fade_valueA_finite A e a p :
  f_startOpacity e = JNum a →
  fade_valueA A e (fade_easedA A (JNum p))
  = JNum (opacityA A a (f_to e) (easedA A p)).
Proof. intros E. unfold fade_valueA. by rewrite E. Qed.

Lemma bounds_writesA_field A (f : Rectangle → Z) e t :
  (∀ x y w h, f (Rectangle.mk x y w h) = x) ∨ (∀ x y w h, f (Rectangle.mk x y w h) = y)
  ∨ (∀ x y w h, f (Rectangle.mk x y w h) = w)
  ∨ (∀ x y w h, f (Rectangle.mk x y w h) = h) →
  f <$> bounds_writesA A e t
  = writesA A (f (b_startBounds e)) (f (b_finalTargetBounds e)) (b_duration e)
      (t - b_startTime e).
Proof.
  intros Hf. unfold bounds_writesA, writesA, newBoundsA, bounds_progressA.
  destruct (b_startBounds e) as [x0 y0 w0 h0].
  destruct (b_finalTargetBounds e) as [x1 y1 w1 h1].
  destruct (Qlt_le_dec _ _); simpl; destruct Hf as [Hf|[Hf|[Hf|Hf]]];
    by rewrite !Hf.
Qed.

Section Motion.
Context (A : Arith) (OK : ArithOK A).

Lemma bounds_field_chainA (f : Rectangle → Z) e t1 t2 :
  (∀ x y w h, f (Rectangle.mk x y w h) = x) ∨ (∀ x y w h, f (Rectangle.mk x y w h) = y)
  ∨ (∀ x y w h, f (Rectangle.mk x y w h) = w)
  ∨ (∀ x y w h, f (Rectangle.mk x y w h) = h) →
  safe (f (b_startBounds e)) → safe (f (b_finalTargetBounds e)) →
  (0 < b_duration e)%Q → b_startTime e ≤ t1 → t1 ≤ t2 →
  chain (f (b_startBounds e)) (f (b_finalTargetBounds e)) (f (b_startBounds e))
    (f <$> (bounds_writesA A e t1 ++ bounds_writesA A e t2)).
Proof.
  intros Hf Hs Ht Hd H1 H2.
  rewrite fmap_app, !(bounds_writesA_field A f) by done.
  apply (writesA_chain A OK); [done..|lia|lia].
Qed.

Lemma coordA_pair s t d el1 el2 :
  safe s → safe t → (0 < d)%Q → 0 ≤ el1 → el1 ≤ el2 →
  chain s t s
    [coordA A s (inject_Z t) (easedA A (progressA A el1 d));
     coordA A s (inject_Z t) (easedA A (progressA A el2 d))].
Proof.
  intros Hs Ht Hd H1 H12.
  pose proof (progressA_nonneg A OK el1 d H1 Hd) as P1.
  pose proof (progressA_le_1 A el1 d) as Q1.
  pose proof (progressA_le_1 A el2 d) as Q2.
  pose proof (progressA_mono A OK el1 el2 d Hd H12) as P12.
  assert (0 <= progressA A el2 d)%Q as P2 by (by eapply Qle_trans).
  destruct (easedA_range A OK _ P1 Q1) as [E1 F1].
  destruct (easedA_range A OK _ P2 Q2) as [E2 F2].
  pose proof (easedA_mono A OK _ _ P12 Q2) as E12.
  simpl. split_and!; [|by apply (coordA_towards A OK)|done].
  pose proof (coordA_towards A OK s t 0 _ Hs Ht (Qle_refl 0) E1 F1) as T.
  by rewrite (coordA_at_0 A OK s (inject_Z t) 0 Hs) in T.
Qed.

Lemma window_field_chainA e t1 t2 s z tq :
  (tq == inject_Z z)%Q → safe s → safe z →
  (0 < w_duration e)%Q → w_startTime e ≤ t1 → t1 ≤ t2 →
  chain s z s
    [coordA A s tq (easedA A (window_progressA A e t1));
     coordA A s tq (easedA A (window_progressA A e t2))].
Proof.
  intros E Hs Hz Hd H1 H2.
  rewrite !(window_coord A OK e _ s z tq E).
  apply coordA_pair; [done..|lia|lia].
Qed.

Lemma fade_chainA e a t1 t2 :
  f_startOpacity e = JNum a → (rnd A a == a)%Q → (0 < f_duration e)%Q →
  f_startTime e ≤ t1 → t1 ≤ t2 →
  js_chain a (opacityA A a (f_to e) 1) (JNum a)
    [fade_valueA A e (fade_easedA A (fade_progressA A e t1));
     fade_valueA A e (fade_easedA A (fade_progressA A e t2))].
Proof.
  intros Ea Ha Hd H1 H2.
  assert (¬ (f_duration e == 0)%Q) as Hnz by (intros E; rewrite E in Hd; done).
  rewrite !(fade_progressA_finite A e _ Hnz), !(fade_valueA_finite A e a _ Ea).
  simpl. split_and!; [|apply (fadeA_towards A OK); [done|done|lia|lia]|done].
  set (el1 := t1 - f_startTime e).
  assert (0 ≤ el1) as Hel by (unfold el1; lia).
  pose proof (progressA_nonneg A OK el1 _ Hel Hd) as P1.
  pose proof (progressA_le_1 A el1 (f_duration e)) as Q1.
  destruct (easedA_range A OK _ P1 Q1) as [E1 F1].
  pose proof (opacityA_towards A OK a (f_to e) 0 _ Ha (Qle_refl 0) E1 F1) as T.
  unfold Qtowards in *.
  by rewrite (opacityA_at_0 A OK a (f_to e) 0 Ha) in T.
Qed.

End Motion.

Lemma stepBoundsA_writes A e s :
  isDestroyed (b_win e) s = false →
  bounds_written (b_win e) (trace (stepBoundsA A e s))
  = rev (bounds_writesA A e (now s)) ++ bounds_written (b_win e) (trace s).
Proof.
  intros Hv. unfold stepBoundsA, _isWindowValid, bounds_writesA.
  rewrite Hv. cbn [negb].
  destruct (Qlt_le_dec _ _); [|case_decide; destruct (b_onComplete e)];
    simpl; by rewrite !decide_True.
Qed.

Lemma stepWindowA_writes A e s :
  isDestroyed (w_win e) s = false →
  bounds_written (w_win e) (trace (stepWindowA A e s))
  = windowBoundsA A e (now s) :: bounds_written (w_win e) (trace s).
Proof.
  intros Hv. unfold stepWindowA, _isWindowValid. rewrite Hv. cbn [negb].
  destruct (Qlt_le_dec _ _); [|destruct (w_onComplete e)];
    simpl; by rewrite !decide_True.
Qed.

Lemma stepFadeA_writes A e s :
  isDestroyed (f_win e) s = false →
  opacity_written (f_win e) (trace (stepFadeA A e s))
  = rev (fade_writesA A e (now s)) ++ opacity_written (f_win e) (trace s).
Proof.
  intros Hv. unfold stepFadeA, _isWindowValid, fade_writesA.
  rewrite Hv. cbn [negb].
  destruct (js_ltb _ _); [|destruct (f_onComplete e)];
    simpl; by rewrite !decide_True.
Qed.

(** C6, as amended.  In every arithmetic that satisfies [ArithOK], double
    precision included, for a session with a positive duration whose step
    is run at a time [t1] at or after the start and then at a later time
    [t2]:
    - the computed ease-out factor never decreases on [[0, 1]], and is 0 at
      0 and 1 at 1;
    - on each of [x], [y], [width], [height] the values that
      [animateWindowBounds] writes, final writes of the exact target
      included, move from the start value towards the target value, never
      back and never past the target, when the start and target values are
      integers of magnitude at most [2 ^ 52];
    - so do the [x] and [y] that [animateWindow] writes, for such start
      values and integer targets;
    - the interpolated opacities that [fade] writes, from a finite start
      opacity, move from the start value towards the opacity [L] computed at
      an eased factor of 1, never back and never past [L]; without rounding
      [L] is the target, so that the final write of the exact target does
      not move the window.
    The last four parts say that these are the values the steps write on a
    valid window, and that without rounding these steps are those of the
    transition system. *)
Theorem monotone_towards_target (A : Arith) :
  ArithOK A →
  ((∀ p q, (0 <= p)%Q → (p <= q)%Q → (q <= 1)%Q →
      (easedA A p <= easedA A q)%Q)
   ∧ (easedA A 0 == 0)%Q ∧ (easedA A 1 == 1)%Q)
  ∧ (∀ e t1 t2, (0 < b_duration e)%Q → b_startTime e ≤ t1 → t1 ≤ t2 →
     safe_rect (b_startBounds e) → safe_rect (b_finalTargetBounds e) →
     chain (Rectangle.x (b_startBounds e)) (Rectangle.x (b_finalTargetBounds e))
       (Rectangle.x (b_startBounds e))
       (Rectangle.x <$> (bounds_writesA A e t1 ++ bounds_writesA A e t2))
     ∧ chain (Rectangle.y (b_startBounds e)) (Rectangle.y (b_finalTargetBounds e))
         (Rectangle.y (b_startBounds e))
         (Rectangle.y <$> (bounds_writesA A e t1 ++ bounds_writesA A e t2))
     ∧ chain (Rectangle.width (b_startBounds e))
         (Rectangle.width (b_finalTargetBounds e))
         (Rectangle.width (b_startBounds e))
         (Rectangle.width <$> (bounds_writesA A e t1 ++ bounds_writesA A e t2))
     ∧ chain (Rectangle.height (b_startBounds e))
         (Rectangle.height (b_finalTargetBounds e))
         (Rectangle.height (b_startBounds e))
         (Rectangle.height <$> (bounds_writesA A e t1 ++ bounds_writesA A e t2)))
  ∧ (∀ e x y t1 t2, (0 < w_duration e)%Q → w_startTime e ≤ t1 → t1 ≤ t2 →
       (w_targetX e == inject_Z x)%Q → (w_targetY e == inject_Z y)%Q →
       safe (Rectangle.x (w_start e)) → safe (Rectangle.y (w_start e)) →
       safe x → safe y →
       chain (Rectangle.x (w_start e)) x (Rectangle.x (w_start e))
         (Rectangle.x <$> [windowBoundsA A e t1; windowBoundsA A e t2])
       ∧ chain (Rectangle.y (w_start e)) y (Rectangle.y (w_start e))
           (Rectangle.y <$> [windowBoundsA A e t1; windowBoundsA A e t2]))
  ∧ (∀ e a t1 t2, f_startOpacity e = JNum a → (rnd A a == a)%Q →
       (0 < f_duration e)%Q → f_startTime e ≤ t1 → t1 ≤ t2 →
       js_chain a (opacityA A a (f_to e) 1) (JNum a)
         [fade_valueA A e (fade_easedA A (fade_progressA A e t1));
          fade_valueA A e (fade_easedA A (fade_progressA A e t2))])
  ∧ (∀ a b, (opacityA exact a b 1 == b)%Q)
  ∧ (∀ e s, isDestroyed (b_win e) s = false →
       bounds_written (b_win e) (trace (stepBoundsA A e s))
       = rev (bounds_writesA A e (now s)) ++ bounds_written (b_win e) (trace s))
  ∧ (∀ e s, isDestroyed (w_win e) s = false →
       bounds_written (w_win e) (trace (stepWindowA A e s))
       = windowBoundsA A e (now s) :: bounds_written (w_win e) (trace s))
  ∧ (∀ e s, isDestroyed (f_win e) s = false →
       opacity_written (f_win e) (trace (stepFadeA A e s))
       = rev (fade_writesA A e (now s)) ++ opacity_written (f_win e) (trace s))
  ∧ (∀ c s, run_closureA exact c s = run_closure c s).
Proof.
  intros OK. split_and!.
  - intros p q _ Hpq Hq. by apply (easedA_mono A OK).
  - by apply (easedA_0 A OK).
  - by apply (easedA_1 A OK).
  - intros e t1 t2 Hd H1 H2 (Sx & Sy & Sw & Sh) (Tx & Ty & Tw & Th).
    split_and!; apply (bounds_field_chainA A OK); try done; auto.
  - intros e x y t1 t2 Hd H1 H2 Ex Ey Sx Sy Tx Ty.
    split; by apply (window_field_chainA A OK).
  - by apply (fade_chainA A OK).
  - intros a b. rewrite opacityA_exact. ring.
  - apply stepBoundsA_writes.
  - apply stepWindowA_writes.
  - apply stepFadeA_writes.
  - apply run_closureA_exact.
Qed.

Lemma monotone_towards_target_witness :
  ArithOK binary64
  ∧ Rectangle.x <$> (bounds_writesA binary64 sample_env500 1030
                     ++ bounds_writesA binary64 sample_env500 1300)
    = [135; 500; 500]
  ∧ chain 0 500 0
      (Rectangle.x <$> (bounds_writesA binary64 sample_env500 1030
                        ++ bounds_writesA binary64 sample_env500 1300)).
Proof.
  split; [exact binary64_ok|]. split; [vm_compute; reflexivity|].
  destruct (monotone_towards_target binary64 binary64_ok) as (_ & H & _).
  destruct (H sample_env500 1030 1300) as (Hx & _).
  - reflexivity.
  - vm_compute. discriminate.
  - vm_compute. discriminate.
  - unfold safe_rect, safe. simpl. lia.
  - unfold safe_rect, safe. simpl. lia.
  - exact Hx.
Defined.

(** C6 fails as stated, in two ways.  [animateWindow] from [x = 0] to
    [x = 100] with a duration of -100 ms: the step run 8 ms after the call
    writes [x = -26], away from the target.  And, in double precision,
    [fade] from 1 to the double nearest to 0.1, over 250 ms: the step that
    completes the session writes the interpolated opacity
    [0.09999999999999998], which is past the target, and then the target,
    which is a step back. *)
Lemma negative_duration_moves_away :
  (λ s, Rectangle.x <$> bounds_written 7 (trace s))
    <$> run sample
          [AnimateWindow (Some 7%nat) 100 0 None None (Some (-100)%Q);
           Elapse 8; Fire 0%nat]
  = Some [-26; 0]
  ∧ (let e := mkFadeEnv 0 7 (JNum 1) 1000 250 (rnd binary64 (1 # 10)) None in
     let L := opacityA binary64 1 (f_to e) 1 in
     opacity_written 7 (trace (stepFadeA binary64 e (set_now 1250 sample)))
     = [JNum (f_to e); JNum L]
     ∧ (f_to e == 3602879701896397 # 36028797018963968)%Q
     ∧ (L == 900719925474099 # 9007199254740992)%Q
     ∧ (L < f_to e)%Q ∧ (f_to e < 1)%Q).
Proof.
  split; [vm_compute; reflexivity|].
  cbv zeta. split_and!; vm_compute; reflexivity.
Qed.

(** ** The batch method *)

(** [animateLayout] is a run of events: one call of [animateWindowBounds]
    or one direct write for each entry with a valid window and a target. *)
Lemma animateLayout_run (windowPool : gmap string nat)
    (layout : list (string * option PartialRectangle)) (animated : bool)
    (s : State) :
  ∃ evs, run s evs = Some (animateLayout windowPool layout animated s).
Proof.
  unfold animateLayout. revert s.
  induction layout as [|[winName targetBounds] layout IH]; intros s; simpl.
  { by exists []. }
  destruct (windowPool !! winName) as [win|]; [|apply IH].
  destruct targetBounds as [tb|]; [|apply IH].
  destruct (isDestroyed win s) eqn:Hv; [apply IH|].
  destruct animated.
  - destruct (IH (animateWindowBounds (Some win) tb None None s)) as [evs Hr].
    by exists (AnimateWindowBounds (Some win) tb None None :: evs).
  - destruct (IH (applyLayout win tb s)) as [evs Hr].
    exists (ApplyLayout win tb :: evs). simpl. by rewrite Hv.
Qed.

(** ** The position wrapper, again *)

(** X1.  [animateWindowPosition(win, { x?, y? }, opts)] does exactly what
    [animateWindowBounds(win, { x?, y? }, opts)] does, on every window
    argument (valid, destroyed or missing) and in every state: the wrapper
    resolves the target against the bounds that [animateWindowBounds] reads
    again as its start, and its own validity check changes nothing that the
    one of [animateWindowBounds] would not change. *)
Theorem animateWindowPosition_is_animateWindowBounds
    (win : option handle) (tx ty : option Z) (d : option Q) (oc : option nat)
    (s : State) :
  animateWindowPosition win tx ty d oc s
  = animateWindowBounds win (PartialRectangle.mk tx ty None None) d oc s.
Proof.
  destruct win as [w|]; [|done].
  destruct (isDestroyed w s) eqn:ED.
  - unfold animateWindowPosition, animateWindowBounds, _isWindowValid.
    rewrite ED. name_session s s1. cbn [mbind option_bind]. subst s1. simpl.
    destruct (animationTimers s !! w) as [tid|] eqn:E; simpl.
    + replace (isDestroyed w _) with true by done. simpl. rewrite E.
      unfold_ops; simpl. by rewrite delete_delete_eq.
    + replace (isDestroyed w _) with true by done. simpl. by rewrite E.
  - unfold animateWindowPosition, _isWindowValid. rewrite ED.
    set (e := mkBoundsEnv (nextSession s) w (getBounds w s)
                (spread_position (getBounds w s) tx ty) (now s)
                (or_else d animationDuration) oc).
    rewrite (animateWindowBounds_valid w _ d oc s e); [|done|].
    + by rewrite (animateWindowBounds_valid w _ d oc s e).
    + simpl. by rewrite spread_as_partial.
Qed.

(** ** The flag, the table and the clock *)

Lemma delete_nonempty (m : gmap nat nat) (k : nat) : delete k m ≠ ∅ → m ≠ ∅.
Proof. intros Hne ->. apply Hne, delete_empty. Qed.

Ltac solve_tidy H :=
  destruct H as [F D S]; unfold_ops; simpl in *;
  split; simpl;
  [ try done;
    try (intros Hne;
         first [ by exfalso; apply Hne, map_size_empty_iff
               | apply delete_nonempty in Hne; auto ])
  | intros ?tid ?due ?c Hp;
    repeat match type of Hp with
    | <[_ := _]> _ !! _ = Some _ =>
        apply lookup_insert_Some in Hp as [[? ?]|[? Hp]]; simplify_eq
    | delete _ _ !! _ = Some _ =>
        apply lookup_delete_Some in Hp as [? Hp]
    end; eauto; try lia ..].

Lemma isWindowValid_tidy win s : tidy s → tidy (_isWindowValid win s).2.
Proof.
  intros H. unfold _isWindowValid. destruct win as [w|]; [|done].
  destruct (isDestroyed w s); [|done].
  destruct (animationTimers s !! w); [|done]. solve_tidy H.
Qed.

Lemma invoke_tidy sid oc s : tidy s → tidy (invoke sid oc s).
Proof. intros H. destruct oc; [|done]. solve_tidy H. Qed.

Lemma new_session_tidy s : tidy s → tidy (new_session s).2.
Proof. intros H. solve_tidy H. Qed.

Lemma run_closure_tidy c s :
  tidy s → closure_startTime c ≤ now s →
  (∀ e, c = StepBounds e → isAnimating s = true) →
  tidy (run_closure c s).
Proof.
  intros H Hst Hb.
  destruct c as [e|e|e]; simpl in *;
    unfold stepWindow, stepFade, stepBounds, _isWindowValid.
  - destruct (isDestroyed _ _); cbn [negb].
    + destruct (animationTimers s !! w_win e); destruct (w_onComplete e);
        solve_tidy H.
    + destruct (Qlt_le_dec _ _); [|destruct (w_onComplete e)]; solve_tidy H.
  - destruct (isDestroyed _ _); cbn [negb].
    + destruct (animationTimers s !! f_win e); destruct (f_onComplete e);
        solve_tidy H.
    + destruct (js_ltb _ _); [|destruct (f_onComplete e)]; solve_tidy H.
  - specialize (Hb e eq_refl).
    destruct (isDestroyed _ _); cbn [negb].
    + destruct (animationTimers s !! b_win e); destruct (b_onComplete e);
        solve_tidy H.
    + destruct (Qlt_le_dec _ _).
      * solve_tidy H.
      * case_decide as Hsz; destruct (b_onComplete e); solve_tidy H.
Qed.

Lemma clearTimeout_tidy tid s : tidy s → tidy (clearTimeout tid s).
Proof. intros H. solve_tidy H. Qed.

Lemma isWindowValid_false_tidy w s s' :
  _isWindowValid (Some w) s = (false, s') → tidy s → tidy s'.
Proof.
  intros EV H. replace s' with (_isWindowValid (Some w) s).2 by by rewrite EV.
  by apply isWindowValid_tidy.
Qed.

Lemma animateWindow_tidy win tx ty so oc d s :
  tidy s → tidy (animateWindow win tx ty so oc d s).
Proof.
  intros H%new_session_tidy. unfold animateWindow. name_session s s1.
  destruct win as [w|]; [|by apply invoke_tidy].
  destruct (_isWindowValid (Some w) s1) as [[] s2] eqn:EV.
  - apply isWindowValid_true in EV as [-> _].
    destruct so as [[wd ht]|]; by apply (run_closure_tidy (StepWindow _)).
  - by eapply invoke_tidy, isWindowValid_false_tidy.
Qed.

Lemma fade_tidy win from to d oc s :
  tidy s → tidy (fade win from to d oc s).
Proof.
  intros H%new_session_tidy. unfold fade. name_session s s1.
  destruct win as [w|]; [|by apply invoke_tidy].
  destruct (_isWindowValid (Some w) s1) as [[] s2] eqn:EV.
  - apply isWindowValid_true in EV as [-> _].
    by apply (run_closure_tidy (StepFade _)).
  - by eapply invoke_tidy, isWindowValid_false_tidy.
Qed.

Lemma animateWindowBounds_tidy win tb d oc s :
  tidy s → tidy (animateWindowBounds win tb d oc s).
Proof.
  intros H%new_session_tidy. unfold animateWindowBounds. name_session s s1.
  destruct win as [w|]; [|by apply invoke_tidy].
  cbn [mbind option_bind].
  set (s2 := match animationTimers s1 !! w with
             | Some tid => clearTimeout tid s1
             | None => s1
             end).
  assert (H2 : tidy s2).
  { subst s2. destruct (animationTimers s1 !! w); [|done].
    by apply clearTimeout_tidy. }
  destruct (_isWindowValid (Some w) s2) as [[] s3] eqn:EV.
  - apply isWindowValid_true in EV as [-> _].
    apply (run_closure_tidy (StepBounds _)); [|done|done].
    destruct H2 as [F D S]. by split.
  - by eapply invoke_tidy, isWindowValid_false_tidy.
Qed.

Lemma animateWindowPosition_tidy win tx ty d oc s :
  tidy s → tidy (animateWindowPosition win tx ty d oc s).
Proof.
  intros H. unfold animateWindowPosition.
  destruct win as [w|]; [|by apply invoke_tidy, new_session_tidy].
  destruct (_isWindowValid (Some w) s) as [[] s2] eqn:EV.
  - apply isWindowValid_true in EV as [-> _]. by apply animateWindowBounds_tidy.
  - by eapply invoke_tidy, new_session_tidy, isWindowValid_false_tidy.
Qed.

Lemma destroy_tidy s : tidy s → tidy (destroy s).
Proof.
  intros [F D S]. unfold destroy.
  destruct (clear_all_spec (animationTimers s) s)
    as (E1 & E2 & E3 & E4 & E5 & E6 & E7 & A & B & C).
  split; simpl; rewrite ?E6; eauto.
Qed.

Lemma step_tidy s ev s' : wf s → tidy s → step s ev = Some s' → tidy s'.
Proof.
  intros [Hi _] H. destruct ev; simpl.
  - intros [= <-]. by apply animateWindow_tidy.
  - intros [= <-]. by apply fade_tidy.
  - intros [= <-]. by apply animateWindowBounds_tidy.
  - intros [= <-]. by apply animateWindowPosition_tidy.
  - intros [= <-]. by apply destroy_tidy.
  - intros [= <-]. by destruct H.
  - case_decide; [|done]. intros [= <-]. destruct H as [F D S].
    split; simpl; [done|..].
    + intros tid due c Hp. specialize (D _ _ _ Hp). lia.
    + intros tid due c Hp. specialize (S _ _ _ Hp). lia.
  - destruct (timers s !! tid) as [[due c]|] eqn:E; [|done].
    case_decide; [|done]. intros [= <-].
    apply run_closure_tidy.
    + by apply clearTimeout_tidy.
    + by apply (tidy_start _ H tid due).
    + intros e ->. apply (tidy_flag _ H).
      assert (animationTimers s !! b_win e = Some tid) as Ht
        by (apply (inv_table_fwd _ Hi); by exists due).
      intros E0. by rewrite E0 in Ht.
  - destruct (isDestroyed w s); [done|]. intros [= <-]. solve_tidy H.
Qed.

Lemma run_tidy evs s s' : wf s → tidy s → run s evs = Some s' → tidy s'.
Proof.
  revert s. induction evs as [|ev evs IH]; simpl; intros s Hwf H.
  - by intros [= <-].
  - destruct (step s ev) as [s1|] eqn:E; [|done]. simpl.
    apply IH; [by eapply step_wf|by eapply step_tidy].
Qed.

Lemma init_tidy ws t0 : tidy (init ws t0).
Proof. by split. Qed.

Lemma reachable_tidy ws t0 evs s :
  run (init ws t0) evs = Some s → wf s ∧ tidy s.
Proof.
  intros Hr. split.
  - by eapply run_wf; [apply init_wf|].
  - by eapply run_tidy; [apply init_wf|apply init_tidy|].
Qed.

(** X2.  In every state the engine can reach, [isAnimating] is [true]
    whenever [animationTimers] holds an entry, hence whenever a step of
    [animateWindowBounds] is pending: the flag never reads [false] while a
    tracked animation is in flight. *)
Theorem isAnimating_while_tracked
    (ws : gmap nat Window) (t0 : Z) (evs : list event) (s : State) :
  run (init ws t0) evs = Some s →
  (∀ w tid, animationTimers s !! w = Some tid → isAnimating s = true)
  ∧ (∀ tid e, pending s tid (StepBounds e) → isAnimating s = true).
Proof.
  intros [[Hi _] H]%reachable_tidy.
  assert (∀ w tid, animationTimers s !! w = Some tid → isAnimating s = true)
    as Hflag.
  { intros w tid Ht. apply (tidy_flag _ H). intros E. by rewrite E in Ht. }
  split; [done|].
  intros tid e Hp. by eapply Hflag, (inv_table_fwd _ Hi).
Qed.

Lemma isAnimating_while_tracked_witness :
  run sample [AnimateWindowBounds (Some 7%nat) (only_x 100) None (Some 1%nat)]
    = Some sample_started
  ∧ (∀ w tid, animationTimers sample_started !! w = Some tid →
       isAnimating sample_started = true)
  ∧ (∀ tid e, pending sample_started tid (StepBounds e) →
       isAnimating sample_started = true).
Proof.
  split; [reflexivity|].
  apply (isAnimating_while_tracked {[ 7%nat := sample_window ]} 1000
           [AnimateWindowBounds (Some 7%nat) (only_x 100) None (Some 1%nat)]).
  reflexivity.
Defined.

(** X3.  With a clock that never goes back, in every state the engine can
    reach a pending step is due at most 8 ms from now, and the start time
    that its session captured is not in the future: the elapsed time that a
    step computes is never negative. *)
Theorem steps_are_timely
    (ws : gmap nat Window) (t0 : Z) (evs : list event) (s : State)
    (tid : nat) (due : Z) (c : closure) :
  run (init ws t0) evs = Some s →
  timers s !! tid = Some (due, c) →
  due ≤ now s + 8 ∧ closure_startTime c ≤ now s.
Proof.
  intros [_ H]%reachable_tidy Hp. split.
  - by apply (tidy_due _ H tid due c).
  - by apply (tidy_start _ H tid due c).
Qed.

Lemma steps_are_timely_witness :
  run sample [AnimateWindowBounds (Some 7%nat) (only_x 100) None (Some 1%nat)]
    = Some sample_started
  ∧ timers sample_started !! 0%nat = Some (1008, StepBounds sample_envA)
  ∧ 1008 ≤ now sample_started + 8
  ∧ closure_startTime (StepBounds sample_envA) ≤ now sample_started.
Proof.
  assert (Ht : timers sample_started !! 0%nat
               = Some (1008, StepBounds sample_envA)) by (vm_compute; reflexivity).
  split; [reflexivity|]. split; [exact Ht|].
  apply (steps_are_timely {[ 7%nat := sample_window ]} 1000
           [AnimateWindowBounds (Some 7%nat) (only_x 100) None (Some 1%nat)]
           sample_started 0%nat 1008 (StepBounds sample_envA)).
  - reflexivity.
  - exact Ht.
Defined.

(** The entries of the table and the pending steps of [animateWindowBounds]
    name each other. *)
Lemma tracked_iff s w :
  wf s →
  (∃ tid, animationTimers s !! w = Some tid)
  ↔ ∃ tid e, pending s tid (StepBounds e) ∧ b_win e = w.
Proof.
  intros [Hi HT]. split.
  - intros [tid Ht]. destruct (HT w tid Logic.I Ht) as (e & ? & ?). eauto.
  - intros (tid & e & Hp & <-). exists tid. by apply (inv_table_fwd _ Hi).
Qed.

(** X4.  When a step of [animateWindowBounds] on a valid window finds its
    progress at 1, it removes the entry of its window from
    [animationTimers], and afterwards [isAnimating] is [true] exactly if a
    step of [animateWindowBounds] is still pending, on another window. *)
Theorem isAnimating_after_completion
    (ws : gmap nat Window) (t0 : Z) (evs : list event) (s : State)
    (tid : nat) (e : BoundsEnv) (s' : State) :
  run (init ws t0) evs = Some s →
  pending s tid (StepBounds e) →
  isDestroyed (b_win e) s = false →
  (1 <= bounds_progress e (now s))%Q →
  step s (Fire tid) = Some s' →
  animationTimers s' = delete (b_win e) (animationTimers s)
  ∧ (isAnimating s' = true ↔
     ∃ tid' e', pending s' tid' (StepBounds e') ∧ b_win e' ≠ b_win e).
Proof.
  intros Hr Hp Hv Hge Hs.
  destruct (reachable_tidy _ _ _ _ Hr) as [Hwf Ht].
  pose proof (step_wf _ _ _ Hwf Hs) as Hwf'.
  assert (Hflag : isAnimating s = true).
  { apply (tidy_flag _ Ht). destruct Hwf as [Hi _].
    pose proof (inv_table_fwd _ Hi _ _ Hp) as E. intros E0. by rewrite E0 in E. }
  assert (Htab : animationTimers s' = delete (b_win e) (animationTimers s)
                 ∧ isAnimating s'
                   = bool_decide (delete (b_win e) (animationTimers s) ≠ ∅)).
  { simpl in Hs. destruct Hp as [due Hp]. rewrite Hp in Hs.
    case_decide; [|done]. injection Hs as <-.
    unfold stepBounds, _isWindowValid.
    replace (isDestroyed (b_win e) (clearTimeout tid s)) with false by done.
    cbn [negb]. destruct (Qlt_le_dec _ _) as [Hlt|_].
    { simpl in Hlt. by apply Qle_not_lt in Hge. }
    case_decide as Hsz; destruct (b_onComplete e); simpl in *.
    all: split; [done|].
    1,2: apply map_size_empty_iff in Hsz; rewrite Hsz; by rewrite bool_decide_false by naive_solver.
    all: rewrite bool_decide_true; [done|]; by intros ?%map_size_empty_iff. }
  destruct Htab as [E1 E2]. split; [done|].
  rewrite E2, bool_decide_eq_true, <- E1. split.
  - intros Hne. apply map_choose in Hne as (w & tid' & Hw).
    destruct (proj1 (tracked_iff s' w Hwf')) as (t & e' & ? & Hw'); [eauto|].
    exists t, e'. split; [done|]. rewrite Hw'. intros ->.
    rewrite E1, lookup_delete_eq in Hw. done.
  - intros (tid' & e' & Hp' & _) E0. destruct Hwf' as [Hi' _].
    pose proof (inv_table_fwd _ Hi' _ _ Hp') as E. by rewrite E0 in E.
Qed.

Lemma isAnimating_after_completion_witness :
  pending sample_late 0%nat (StepBounds sample_envA)
  ∧ (1 <= bounds_progress sample_envA (now sample_late))%Q
  ∧ ∃ s', step sample_late (Fire 0%nat) = Some s'
      ∧ animationTimers s' = delete 7%nat (animationTimers sample_late)
      ∧ (isAnimating s' = true ↔
         ∃ tid' e', pending s' tid' (StepBounds e') ∧ b_win e' ≠ 7%nat).
Proof.
  assert (Hp : pending sample_late 0%nat (StepBounds sample_envA))
    by (exists 1008; vm_compute; reflexivity).
  assert (Hge : (1 <= bounds_progress sample_envA (now sample_late))%Q)
    by (vm_compute; discriminate).
  split; [exact Hp|]. split; [exact Hge|].
  exists (run_closure (StepBounds sample_envA) (clearTimeout 0%nat sample_late)).
  assert (Hs : step sample_late (Fire 0%nat)
               = Some (run_closure (StepBounds sample_envA)
                         (clearTimeout 0%nat sample_late)))
    by (vm_compute; reflexivity).
  split; [exact Hs|].
  apply (isAnimating_after_completion {[ 7%nat := sample_window ]} 1000
           [AnimateWindowBounds (Some 7%nat) (only_x 100) None (Some 1%nat);
            Elapse 300]
           sample_late 0%nat sample_envA).
  - vm_compute. reflexivity.
  - exact Hp.
  - reflexivity.
  - exact Hge.
  - exact Hs.
Defined.

(** ** Windows destroyed under an animation *)

(** The timers left by [_isWindowValid] on a destroyed window, here from a
    state in which the timer [tid0] may already have been taken off the
    table of the host. *)
Lemma isWindowValid_false_pending w s s' :
  wf s → _isWindowValid (Some w) s = (false, s') →
  ∀ tid c, pending s' tid c ↔
    pending s tid c ∧ ∀ e, c = StepBounds e → b_win e ≠ w.
Proof.
  intros [Hi HT]. unfold _isWindowValid.
  destruct (isDestroyed w s); [|done].
  destruct (animationTimers s !! w) as [tid0|] eqn:E0; intros [= <-] tid c.
  - destruct (HT w tid0 Logic.I E0) as (e0 & [d0 Hp0] & Hw0).
    unfold pending; simpl. split.
    + intros [due [Hne Hp]%lookup_delete_Some]. split; [eauto|].
      intros e -> Hw. apply Hne.
      assert (animationTimers s !! b_win e = Some tid) as Ht
        by (apply (inv_table_fwd _ Hi); by exists due).
      congruence.
    + intros [[due Hp] Hnb]. exists due. rewrite lookup_delete_ne; [done|].
      intros <-. assert (c = StepBounds e0) as -> by congruence.
      by apply (Hnb e0).
  - split; [|by intros [? _]].
    intros Hp. split; [done|]. intros e -> Hw.
    pose proof (inv_table_fwd _ Hi _ _ Hp) as Ht. congruence.
Qed.

(** X5.  In a state the engine can reach, [_isWindowValid(w)] returns the
    negation of [w.isDestroyed()]; on a valid window it changes nothing; on
    a destroyed one it removes the entry of [w] from [animationTimers] and
    cancels exactly the pending steps of [animateWindowBounds] on [w],
    leaving [isAnimating], the windows, and every other pending step (those
    of [fade] and [animateWindow] on [w] included) as they were. *)
Theorem isWindowValid_effect
    (ws : gmap nat Window) (t0 : Z) (evs : list event) (s : State)
    (w : handle) :
  run (init ws t0) evs = Some s →
  (_isWindowValid (Some w) s).1 = negb (isDestroyed w s)
  ∧ (isDestroyed w s = false → (_isWindowValid (Some w) s).2 = s)
  ∧ (isDestroyed w s = true →
       let s' := (_isWindowValid (Some w) s).2 in
       animationTimers s' = delete w (animationTimers s)
       ∧ isAnimating s' = isAnimating s
       ∧ windows s' = windows s ∧ trace s' = trace s
       ∧ ∀ tid c, pending s' tid c ↔
           pending s tid c ∧ ∀ e, c = StepBounds e → b_win e ≠ w).
Proof.
  intros Hr. pose proof (run_wf _ _ _ (init_wf ws t0) Hr) as Hwf.
  split_and!.
  - unfold _isWindowValid. by destruct (isDestroyed w s).
  - unfold _isWindowValid. by intros ->.
  - intros Hd s'.
    assert (EV : _isWindowValid (Some w) s = (false, s')).
    { subst s'. unfold _isWindowValid. by rewrite Hd. }
    split_and!; [..|by apply isWindowValid_false_pending].
    all: subst s'; unfold _isWindowValid; rewrite Hd; simpl.
    all: destruct (animationTimers s !! w) eqn:E; simpl; try done.
    by rewrite delete_id.
Qed.

Lemma isWindowValid_effect_witness :
  isDestroyed 7 sample_orphan = true
  ∧ animationTimers (_isWindowValid (Some 7%nat) sample_orphan).2
    = delete 7%nat (animationTimers sample_orphan).
Proof.
  split; [reflexivity|].
  destruct (isWindowValid_effect {[ 7%nat := sample_window ]} 1000
              [AnimateWindowBounds (Some 7%nat) (only_x 100) None (Some 1%nat);
               WindowDestroyed 7%nat; Elapse 8]
              sample_orphan 7%nat) as (_ & _ & H).
  - vm_compute. reflexivity.
  - destruct H as (H & _); [reflexivity|exact H].
Defined.

(** What a step does when it finds its window destroyed. *)
Lemma run_closure_destroyed c s :
  isDestroyed (closure_win c) s = true →
  run_closure c s
  = invoke (closure_sid c) (closure_onComplete c)
      (_isWindowValid (Some (closure_win c)) s).2.
Proof.
  intros Hd. destruct c as [e|e|e]; simpl in *;
    unfold stepWindow, stepFade, stepBounds, _isWindowValid; by rewrite Hd.
Qed.

Lemma invoke_trace sid oc s :
  trace (invoke sid oc s) = completion sid oc ++ trace s.
Proof. by destruct oc. Qed.

(** X6.  In a state the engine can reach, a due step whose window has been
    destroyed runs without calling a setter: it invokes the [onComplete] of
    its session, when supplied, schedules nothing, and removes the entry of
    the window from [animationTimers] without touching [isAnimating].  The
    timers left are those there were, less the one that fired and less the
    steps of [animateWindowBounds] on that window: when the step is one of
    [fade] or [animateWindow], a tracked session on the same window is
    cancelled with it, and its continuation is not invoked. *)
Theorem destroyed_window_ends_session
    (ws : gmap nat Window) (t0 : Z) (evs : list event) (s : State)
    (tid : nat) (due : Z) (c : closure) :
  run (init ws t0) evs = Some s →
  timers s !! tid = Some (due, c) → due ≤ now s →
  isDestroyed (closure_win c) s = true →
  ∃ s', step s (Fire tid) = Some s'
    ∧ trace s' = completion (closure_sid c) (closure_onComplete c) ++ trace s
    ∧ windows s' = windows s
    ∧ animationTimers s' = delete (closure_win c) (animationTimers s)
    ∧ isAnimating s' = isAnimating s
    ∧ ∀ tid' c', pending s' tid' c' ↔
        pending s tid' c' ∧ tid' ≠ tid
        ∧ ∀ e, c' = StepBounds e → b_win e ≠ closure_win c.
Proof.
  intros Hr Ht Hdue Hd.
  pose proof (run_wf _ _ _ (init_wf ws t0) Hr) as [Hi HT].
  eexists. split.
  { simpl. rewrite Ht. by rewrite decide_True. }
  set (w := closure_win c) in *.
  rewrite run_closure_destroyed by done. fold w.
  unfold _isWindowValid.
  replace (isDestroyed w (clearTimeout tid s)) with true by done.
  change (animationTimers (clearTimeout tid s)) with (animationTimers s).
  rewrite invoke_trace.
  assert (∀ s1, windows (invoke (closure_sid c) (closure_onComplete c) s1)
                = windows s1) as EW by (intros; by destruct (closure_onComplete c)).
  assert (∀ s1, animationTimers (invoke (closure_sid c) (closure_onComplete c) s1)
                = animationTimers s1) as EA by (intros; by destruct (closure_onComplete c)).
  assert (∀ s1, isAnimating (invoke (closure_sid c) (closure_onComplete c) s1)
                = isAnimating s1) as EF by (intros; by destruct (closure_onComplete c)).
  assert (∀ s1 tid' c', pending (invoke (closure_sid c) (closure_onComplete c) s1) tid' c'
                ↔ pending s1 tid' c') as EP by (intros; by destruct (closure_onComplete c)).
  rewrite EW, EA, EF. simpl.
  destruct (animationTimers s !! w) as [tid0|] eqn:E0; simpl.
  - split_and!; try done. intros tid' c'. rewrite EP.
    destruct (HT w tid0 Logic.I E0) as (e0 & [d0 Hp0] & Hw0).
    unfold pending; simpl. split.
    + intros [d [Hne0 [Hne Hp]%lookup_delete_Some]%lookup_delete_Some].
      split_and!; [eauto|done|].
      intros e -> Hw. apply Hne0.
      assert (animationTimers s !! b_win e = Some tid') as Ht'
        by (apply (inv_table_fwd _ Hi); by exists d).
      congruence.
    + intros ([d Hp] & Hne & Hnb). exists d.
      rewrite lookup_delete_ne, lookup_delete_ne; [done|done|].
      intros <-. assert (c' = StepBounds e0) as -> by congruence.
      by apply (Hnb e0).
  - split_and!; try done; [by rewrite delete_id|].
    intros tid' c'. rewrite EP. unfold pending; simpl. split.
    + intros [d [Hne Hp]%lookup_delete_Some]. split_and!; [eauto|done|].
      intros e -> Hw.
      assert (animationTimers s !! b_win e = Some tid') as Ht'
        by (apply (inv_table_fwd _ Hi); by exists d).
      congruence.
    + intros ([d Hp] & Hne & _). exists d. by rewrite lookup_delete_ne.
Qed.

Lemma destroyed_window_ends_session_witness :
  timers sample_orphan !! 0%nat = Some (1008, StepBounds sample_envA)
  ∧ isDestroyed 7 sample_orphan = true
  ∧ ∃ s', step sample_orphan (Fire 0%nat) = Some s'
      ∧ trace s' = Completed 0 1 :: trace sample_orphan.
Proof.
  assert (Ht : timers sample_orphan !! 0%nat
               = Some (1008, StepBounds sample_envA)) by (vm_compute; reflexivity).
  split; [exact Ht|]. split; [reflexivity|].
  destruct (destroyed_window_ends_session {[ 7%nat := sample_window ]} 1000
              [AnimateWindowBounds (Some 7%nat) (only_x 100) None (Some 1%nat);
               WindowDestroyed 7%nat; Elapse 8]
              sample_orphan 0%nat 1008 (StepBounds sample_envA))
    as (s' & Hs & T & _).
  - vm_compute. reflexivity.
  - exact Ht.
  - vm_compute. discriminate.
  - reflexivity.
  - exists s'. split; [exact Hs|exact T].
Defined.

Lemma completion_on_valid s sid oc o :
  o ∈ completion sid oc → on_valid_window s o.
Proof.
  destruct oc; simpl; [|by intros ?%elem_of_nil].
  by intros ->%list_elem_of_singleton.
Qed.

(** An event whose callback finds its window destroyed adds to the trace
    the completion of its session and nothing else. *)
Lemma actor_destroyed_trace s ev s' c :
  step s ev = Some s' → actor s ev c →
  isDestroyed (closure_win c) s = true →
  trace s' = completion (closure_sid c) (closure_onComplete c) ++ trace s.
Proof.
  intros Hs Ha Hd.
  destruct ev as [[w|] tx ty so oc d|[w|] from to d oc|[w|] tb d oc
                 |[w|] tx ty d oc| |w|dt|tid|w tb]; simpl in Ha; try done.
  - injection Hs as <-.
    assert (closure_win c = w ∧ closure_sid c = nextSession s
            ∧ closure_onComplete c = oc) as (Ew & -> & ->)
      by (destruct so as [[??]|]; by injection Ha as <-).
    rewrite Ew in Hd.
    by destruct (animateWindow_invalid (Some w) tx ty so oc d s Hd).
  - injection Hs as <-. injection Ha as <-. simpl in *.
    by destruct (fade_invalid (Some w) from to d oc s Hd).
  - injection Hs as <-. injection Ha as <-. simpl in *.
    by destruct (animateWindowBounds_invalid (Some w) tb d oc s Hd).
  - injection Hs as <-. injection Ha as <-. simpl in *.
    by destruct (animateWindowPosition_invalid (Some w) tx ty d oc s Hd).
  - simpl in Hs. destruct Ha as [due Ht]. rewrite Ht in Hs.
    case_decide; [|done]. injection Hs as <-.
    rewrite run_closure_destroyed by done. rewrite invoke_trace.
    f_equal. unfold _isWindowValid.
    replace (isDestroyed (closure_win c) (clearTimeout tid s)) with true by done.
    simpl. by destruct (animationTimers s !! closure_win c).
Qed.

Lemma obs_by_window c t o :
  obs_by c t o →
  match o with
  | SetBounds _ w _ | SetOpacity _ w _ => w = closure_win c
  | Completed _ _ => True
  end.
Proof. destruct o, c; simpl; intros; destruct_and?; done. Qed.

(** X7.  No event makes the engine call [setBounds] or [setOpacity] on a
    window that is destroyed or missing when the event begins: every setter
    call that a method, a step or the loop of [animateLayout] makes is on a
    valid window. *)
Theorem no_setter_on_destroyed_window (s : State) (ev : event) (s' : State) :
  step s ev = Some s' →
  ∃ new, trace s' = new ++ trace s ∧ Forall (on_valid_window s) new.
Proof.
  intros Hs. destruct (actor_dec s ev) as [[c Ha]|Hna].
  - destruct (isDestroyed (closure_win c) s) eqn:Hd.
    + eexists. split; [by eapply actor_destroyed_trace|].
      apply Forall_forall. intros o. apply completion_on_valid.
    + destruct (step_footprint _ _ _ _ Hs Ha) as [(new & T & F) _ _ _ _ _].
      exists new. split; [done|].
      eapply Forall_impl; [exact F|]. intros o Hby%obs_by_window.
      destruct o; simpl in *; by subst.
  - destruct ev as [[w|] tx ty so oc d|[w|] from to d oc|[w|] tb d oc
                   |[w|] tx ty d oc| |w|dt|tid|w tb]; simpl in Hna.
    all: try (exfalso; eapply Hna; done).
    + exfalso. destruct so as [[??]|]; eapply Hna; done.
    + injection Hs as <-.
      destruct (animateWindow_invalid None tx ty so oc d s Logic.I) as [T _ _ _ _].
      eexists. split; [exact T|]. apply Forall_forall. intros o.
      apply completion_on_valid.
    + injection Hs as <-.
      destruct (fade_invalid None from to d oc s Logic.I) as [T _ _ _ _].
      eexists. split; [exact T|]. apply Forall_forall. intros o.
      apply completion_on_valid.
    + injection Hs as <-.
      destruct (animateWindowBounds_invalid None tb d oc s Logic.I) as [T _ _ _ _].
      eexists. split; [exact T|]. apply Forall_forall. intros o.
      apply completion_on_valid.
    + injection Hs as <-.
      destruct (animateWindowPosition_invalid None tx ty d oc s Logic.I)
        as [T _ _ _ _].
      eexists. split; [exact T|]. apply Forall_forall. intros o.
      apply completion_on_valid.
    + injection Hs as <-. exists []. split; [|done]. unfold destroy.
      by destruct (clear_all_spec (animationTimers s) s)
        as (_ & _ & _ & _ & _ & _ & E7 & _).
    + injection Hs as <-. by exists [].
    + simpl in Hs. case_decide; [|done]. injection Hs as <-. by exists [].
    + simpl in Hs. destruct (timers s !! tid) as [[due c]|] eqn:E; [|done].
      exfalso. apply (Hna c). by exists due.
    + simpl in Hs. destruct (isDestroyed w s) eqn:Hv; [done|].
      injection Hs as <-. eexists [_]. split; [done|].
      by repeat constructor.
Qed.

Lemma no_setter_on_destroyed_window_witness :
  ∃ new,
    trace (animateWindowBounds (Some 7%nat) (only_x 100) None (Some 1%nat)
             sample_destroyed)
    = new ++ trace sample_destroyed
    ∧ Forall (on_valid_window sample_destroyed) new.
Proof.
  apply (no_setter_on_destroyed_window sample_destroyed
           (AnimateWindowBounds (Some 7%nat) (only_x 100) None (Some 1%nat))).
  reflexivity.
Defined.

(** ** What a call has done when it returns *)

(** Writing to a window the bounds it already has changes no window. *)
Lemma setBounds_same_windows sid w s :
  windows (setBounds sid w (getBounds w s) s) = windows s.
Proof.
  unfold setBounds, getBounds; simpl. apply alter_id.
  intros W ->. by destruct W.
Qed.

(** The state in which a call of [animateWindowBounds] on a valid window
    returns: the start bounds written again, one step scheduled and
    recorded in the table. *)
Lemma animateWindowBounds_returns w tb d oc s :
  isDestroyed w s = false →
  animateWindowBounds (Some w) tb d oc s
  = set_animationTimers <[w := nextTimer s]>
      (setTimeout
         (StepBounds
            (mkBoundsEnv (nextSession s) w (getBounds w s)
               (spread (getBounds w s) tb) (now s)
               (or_else d animationDuration) oc)) 8
         (setBounds (nextSession s) w (getBounds w s) (bounds_entry w s))).2.
Proof.
  intros Hv.
  set (e := mkBoundsEnv (nextSession s) w (getBounds w s)
              (spread (getBounds w s) tb) (now s)
              (or_else d animationDuration) oc).
  rewrite (animateWindowBounds_valid w tb d oc s e Hv eq_refl).
  assert (En : now (bounds_entry w s) = now s).
  { unfold bounds_entry; simpl. by destruct (animationTimers s !! w). }
  unfold stepBounds, _isWindowValid.
  change (b_win e) with w. change (b_sid e) with (nextSession s).
  rewrite bounds_entry_isDestroyed, Hv. cbn [negb]. rewrite En.
  change (now s) with (b_startTime e) at 1 2.
  rewrite newBounds_at_start by apply or_else_nonzero.
  destruct (Qlt_le_dec _ _) as [_|Hge].
  { unfold bounds_entry; simpl. by destruct (animationTimers s !! w). }
  exfalso. apply Qle_not_lt in Hge. apply Hge.
  unfold bounds_progress. rewrite Z.sub_diag, progress_at_start; [done|].
  apply or_else_nonzero.
Qed.

Lemma bounds_entry_fields w s :
  windows (bounds_entry w s) = windows s
  ∧ isAnimating (bounds_entry w s) = true
  ∧ animationTimers (bounds_entry w s) = animationTimers s
  ∧ timers (bounds_entry w s)
    = match animationTimers s !! w with
      | Some tid => delete tid (timers s)
      | None => timers s
      end
  ∧ nextTimer (bounds_entry w s) = nextTimer s
  ∧ now (bounds_entry w s) = now s
  ∧ trace (bounds_entry w s) = trace s.
Proof.
  unfold bounds_entry; simpl. by destruct (animationTimers s !! w).
Qed.

(** What a call of [animateWindowBounds] on a valid window does before it
    returns. *)
Lemma animateWindowBounds_contract
    (s : State) (w : handle) (tb : PartialRectangle) (d : option Q)
    (oc : option nat) :
  wf s →
  isDestroyed w s = false →
  let e := mkBoundsEnv (nextSession s) w (getBounds w s)
             (spread (getBounds w s) tb) (now s)
             (or_else d animationDuration) oc in
  let s' := animateWindowBounds (Some w) tb d oc s in
  trace s' = SetBounds (nextSession s) w (getBounds w s) :: trace s
  ∧ windows s' = windows s
  ∧ now s' = now s
  ∧ isAnimating s' = true
  ∧ animationTimers s' = <[w := nextTimer s]> (animationTimers s)
  ∧ timers s' !! nextTimer s = Some (now s + 8, StepBounds e)
  ∧ ∀ tid c, pending s' tid c ↔
      (tid = nextTimer s ∧ c = StepBounds e)
      ∨ (pending s tid c ∧ ∀ e', c = StepBounds e' → b_win e' ≠ w).
Proof.
  intros [Hi HT] Hv e s'.
  subst s'. rewrite animateWindowBounds_returns by done. fold e.
  assert (Ew : windows (setBounds (nextSession s) w (getBounds w s)
                          (bounds_entry w s)) = windows s).
  { replace (getBounds w s) with (getBounds w (bounds_entry w s)).
    - rewrite setBounds_same_windows. apply bounds_entry_fields.
    - unfold getBounds. by rewrite (proj1 (bounds_entry_fields w s)). }
  destruct (bounds_entry_fields w s) as (_ & F2 & F3 & F4 & F5 & F6 & F7).
  set (s1 := bounds_entry w s) in *. clearbody s1.
  split_and!.
  - simpl. by rewrite F7.
  - exact Ew.
  - exact F6.
  - exact F2.
  - simpl. by rewrite F3.
  - simpl. by rewrite F5, F6, lookup_insert_eq.
  - intros tid c. unfold pending. simpl. rewrite F4, F5, F6.
    split.
    + intros [due [[<- [= _ <-]]|[Hne Hp]]%lookup_insert_Some]; [by left|right].
      assert (pending s tid c ∧ animationTimers s !! w ≠ Some tid) as [Hp' Hne'].
      { destruct (animationTimers s !! w) as [tid0|] eqn:E0.
        - apply lookup_delete_Some in Hp as [Hne0 Hp].
          split; [by exists due|congruence].
        - split; [by exists due|done]. }
      split; [done|]. intros e' -> Hw.
      pose proof (inv_table_fwd _ Hi _ _ Hp') as Ht'. congruence.
    + intros [[-> ->]|[[due Hp] Hnb]].
      * eexists. by rewrite lookup_insert_eq.
      * exists due. rewrite lookup_insert_ne.
        2:{ intros <-. assert (nextTimer s < nextTimer s)%nat; [|lia].
            apply (inv_tid _ Hi _ c). by exists due. }
        destruct (animationTimers s !! w) as [tid0|] eqn:E0; [|done].
        rewrite lookup_delete_ne; [done|]. intros <-.
        destruct (HT w tid0 Logic.I E0) as (e0 & [d0 Hp0] & Hw0).
        assert (c = StepBounds e0) as -> by congruence. by apply (Hnb e0).
Qed.

(** X8.  What [animateWindowBounds(w, target, opts)] has done when it
    returns, on a valid window, in a state the engine can reach and with the
    clock reading the same value throughout the call: one call of
    [setBounds], with the bounds the window already has, so that no window
    changes; [isAnimating] set; one step scheduled 8 ms ahead and recorded
    for [w] in [animationTimers], with the start bounds, the target resolved
    against them, the start time and the duration ([opts.duration], or 300
    when it is missing or 0) it captured; the pending steps of
    [animateWindowBounds] on [w] cancelled, and every other pending step
    left as it was.  [onComplete] has not been invoked. *)
Theorem animateWindowBounds_call
    (ws : gmap nat Window) (t0 : Z) (evs : list event) (s : State)
    (w : handle) (tb : PartialRectangle) (d : option Q) (oc : option nat) :
  run (init ws t0) evs = Some s →
  isDestroyed w s = false →
  let e := mkBoundsEnv (nextSession s) w (getBounds w s)
             (spread (getBounds w s) tb) (now s)
             (or_else d animationDuration) oc in
  let s' := animateWindowBounds (Some w) tb d oc s in
  trace s' = SetBounds (nextSession s) w (getBounds w s) :: trace s
  ∧ windows s' = windows s
  ∧ now s' = now s
  ∧ isAnimating s' = true
  ∧ animationTimers s' = <[w := nextTimer s]> (animationTimers s)
  ∧ timers s' !! nextTimer s = Some (now s + 8, StepBounds e)
  ∧ ∀ tid c, pending s' tid c ↔
      (tid = nextTimer s ∧ c = StepBounds e)
      ∨ (pending s tid c ∧ ∀ e', c = StepBounds e' → b_win e' ≠ w).
Proof.
  intros Hr Hv. apply animateWindowBounds_contract; [|done].
  by eapply run_wf; [apply init_wf|].
Qed.

Lemma animateWindowBounds_call_witness :
  isDestroyed 7 sample = false
  ∧ animationTimers
      (animateWindowBounds (Some 7%nat) (only_x 100) None (Some 1%nat) sample)
    = <[7%nat := nextTimer sample]> (animationTimers sample).
Proof.
  split; [reflexivity|].
  destruct (animateWindowBounds_call {[ 7%nat := sample_window ]} 1000 [] sample
              7%nat (only_x 100) None (Some 1%nat))
    as (_ & _ & _ & _ & H & _).
  - reflexivity.
  - reflexivity.
  - exact H.
Defined.

(** The state in which a call of [animateWindow] on a valid window
    returns. *)
Lemma animateWindow_returns w tx ty so oc d s :
  isDestroyed w s = false →
  let start := getBounds w s in
  let wh := default (Rectangle.width start, Rectangle.height start) so in
  animateWindow (Some w) tx ty so oc d s
  = (setTimeout
       (StepWindow
          (mkWindowEnv (nextSession s) w start (now s)
             (or_else d animationDuration) tx ty wh.1 wh.2 oc)) 8
       (setBounds (nextSession s) w
          (Rectangle.mk (Rectangle.x start) (Rectangle.y start) wh.1 wh.2)
          (new_session s).2)).2.
Proof.
  intros Hv start wh.
  set (e := mkWindowEnv (nextSession s) w start (now s)
              (or_else d animationDuration) tx ty wh.1 wh.2 oc).
  rewrite (animateWindow_valid w tx ty so oc d s e Hv).
  2:{ subst e wh start. by destruct so as [[??]|]. }
  unfold stepWindow, _isWindowValid.
  change (w_win e) with w. change (w_sid e) with (nextSession s).
  replace (isDestroyed w (new_session s).2) with false by done.
  cbn [negb].
  assert (Ep : (window_progress e (now (new_session s).2) == 0)%Q).
  { rewrite window_progress_eq. simpl. rewrite Z.sub_diag.
    apply progress_at_start, or_else_nonzero. }
  assert (Ee : (easeOutCubic (window_progress e (now (new_session s).2)) == 0)%Q).
  { rewrite <- easeOutCubic_0. by apply easeOutCubic_comp. }
  assert (Eb : windowBounds e (now (new_session s).2)
               = Rectangle.mk (Rectangle.x start) (Rectangle.y start) wh.1 wh.2).
  { unfold windowBounds. by rewrite !lerp_round_to_0. }
  rewrite Eb.
  destruct (Qlt_le_dec _ _) as [_|Hge]; [done|].
  exfalso. apply Qle_not_lt in Hge. apply Hge. by rewrite Ep.
Qed.

(** X9.  What [animateWindow(w, x, y, opts)] has done when it returns, on a
    valid window and with the clock reading the same value throughout the
    call: one call of [setBounds], with the position the window already has
    and the size of [opts.sizeOverride] (the size the window has, if there
    is none), so that a size override applies at once and is not animated;
    one step scheduled 8 ms ahead.  No timer is cancelled, and neither
    [animationTimers] nor [isAnimating] changes: the flag does not cover
    this method. *)
Theorem animateWindow_call
    (w : handle) (tx ty : Q) (so : option (Z * Z)) (oc : option nat)
    (d : option Q) (s : State) :
  isDestroyed w s = false →
  let start := getBounds w s in
  let wh := default (Rectangle.width start, Rectangle.height start) so in
  let first := Rectangle.mk (Rectangle.x start) (Rectangle.y start) wh.1 wh.2 in
  let e := mkWindowEnv (nextSession s) w start (now s)
             (or_else d animationDuration) tx ty wh.1 wh.2 oc in
  let s' := animateWindow (Some w) tx ty so oc d s in
  trace s' = SetBounds (nextSession s) w first :: trace s
  ∧ getBounds w s' = first
  ∧ (∀ w', w' ≠ w → windows s' !! w' = windows s !! w')
  ∧ timers s' = <[nextTimer s := (now s + 8, StepWindow e)]> (timers s)
  ∧ animationTimers s' = animationTimers s
  ∧ isAnimating s' = isAnimating s.
Proof.
  intros Hv start wh first e s'. subst s'.
  rewrite animateWindow_returns by done. fold start wh first e.
  split_and!; try done.
  - unfold getBounds, isDestroyed in *; simpl. rewrite lookup_alter_eq.
    by destruct (windows s !! w).
  - intros w' Hne. simpl. by rewrite lookup_alter_ne.
Qed.

Lemma animateWindow_call_witness :
  isDestroyed 7 sample = false
  ∧ trace (animateWindow (Some 7%nat) 100 0 (Some (50, 60)) None None sample)
    = SetBounds 0 7 (Rectangle.mk 0 0 50 60) :: trace sample.
Proof.
  split; [reflexivity|].
  destruct (animateWindow_call 7%nat 100 0 (Some (50, 60)) None None sample)
    as (H & _).
  - reflexivity.
  - exact H.
Defined.

Lemma fade_value_start e a :
  f_startOpacity e = JNum a → ¬ (f_duration e == 0)%Q →
  js_eq (fade_value e (fade_eased (fade_progress e (f_startTime e)))) a
  ∧ js_ltb (fade_progress e (f_startTime e)) (JNum 1) = true.
Proof.
  intros Ea Hd. rewrite fade_progress_finite by done.
  rewrite Z.sub_diag.
  pose proof (progress_at_start (f_duration e) Hd) as Ep.
  rewrite (fade_value_finite e a _ Ea). split.
  - unfold js_eq, fade_q.
    assert (Ee : (easeOutCubic (progress_at 0 (f_duration e)) == 0)%Q).
    { rewrite <- easeOutCubic_0. by apply easeOutCubic_comp. }
    rewrite Ee. ring.
  - unfold js_ltb.
    destruct (Qlt_le_dec (progress_at 0 (f_duration e)) 1) as [_|Hge]; [done|].
    exfalso. apply Qle_not_lt in Hge. apply Hge. by rewrite Ep.
Qed.

(** X10.  What [fade(w, { from, to, duration })] has done when it returns,
    on a valid window, with a duration other than 0, a finite start opacity
    ([from], be it 0, or the opacity of the window if there is none) and the
    clock reading the same value throughout the call: one call of [setOpacity],
    with the start opacity, so that the window jumps to [from] at once; one
    step scheduled 8 ms ahead.  No bounds change, no timer is cancelled, and
    neither [animationTimers] nor [isAnimating] changes. *)
Theorem fade_call
    (w : handle) (from : option Q) (to : Q) (d : option Q) (oc : option nat)
    (a : Q) (s : State) :
  isDestroyed w s = false →
  match from with Some o => JNum o | None => getOpacity w s end = JNum a →
  ¬ (default 250%Q d == 0)%Q →
  let e := mkFadeEnv (nextSession s) w (JNum a) (now s) (default 250%Q d)
             to oc in
  let s' := fade (Some w) from to d oc s in
  (∃ v, js_eq v a
     ∧ trace s' = SetOpacity (nextSession s) w v :: trace s
     ∧ getOpacity w s' = v)
  ∧ (∀ w', w' ≠ w → windows s' !! w' = windows s !! w')
  ∧ (∀ w', getBounds w' s' = getBounds w' s)
  ∧ timers s' = <[nextTimer s := (now s + 8, StepFade e)]> (timers s)
  ∧ animationTimers s' = animationTimers s
  ∧ isAnimating s' = isAnimating s.
Proof.
  intros Hv Ea Hd e s'. subst s'.
  rewrite (fade_valid w from to d oc s e Hv).
  2:{ simpl. subst e. by rewrite Ea. }
  unfold stepFade, _isWindowValid.
  change (f_win e) with w. change (f_sid e) with (nextSession s).
  replace (isDestroyed w (new_session s).2) with false by done.
  cbn [negb].
  destruct (fade_value_start e a eq_refl Hd) as [Hq Hlt].
  change (now (new_session s).2) with (f_startTime e). rewrite Hlt.
  unfold isDestroyed, getBounds, getOpacity in *.
  split_and!; simpl; try done.
  - eexists. split; [exact Hq|]. split; [done|].
    rewrite lookup_alter_eq. by destruct (windows s !! w).
  - intros w' Hne. by rewrite lookup_alter_ne.
  - intros w'. destruct (decide (w' = w)) as [->|Hne].
    + rewrite lookup_alter_eq. by destruct (windows s !! w).
    + by rewrite lookup_alter_ne.
Qed.

Lemma fade_call_witness :
  isDestroyed 7 sample = false
  ∧ ¬ (default 250%Q None == 0)%Q
  ∧ isAnimating (fade (Some 7%nat) (Some (1 # 2)%Q) 1%Q None None sample)
    = isAnimating sample.
Proof.
  assert (Hd : ¬ (default 250%Q None == 0)%Q) by (intros E; discriminate E).
  split; [reflexivity|]. split; [exact Hd|].
  destruct (fade_call 7%nat (Some (1 # 2)%Q) 1%Q None None (1 # 2)%Q sample)
    as (_ & _ & _ & _ & _ & H).
  - reflexivity.
  - reflexivity.
  - exact Hd.
  - exact H.
Defined.

(** ** Steps along the way *)




(** X12.  In every state the engine can reach, a session (one call of
    [animateWindow], [fade], [animateWindowBounds] or
    [animateWindowPosition]) has at most one pending step: each chain of
    steps is linear, although a window may have several chains. *)
Theorem one_pending_step_per_session
    (ws : gmap nat Window) (t0 : Z) (evs : list event) (s : State)
    (tid tid' : nat) (c c' : closure) :
  run (init ws t0) evs = Some s →
  pending s tid c → pending s tid' c' →
  closure_sid c = closure_sid c' →
  tid = tid' ∧ c = c'.
Proof.
  intros Hr Hp Hp' E.
  pose proof (run_wf _ _ _ (init_wf ws t0) Hr) as [Hi _].
  assert (tid = tid') as <- by by eapply (inv_one_timer _ Hi).
  split; [done|]. destruct Hp as [d1 H1], Hp' as [d2 H2]. congruence.
Qed.

Lemma one_pending_step_per_session_witness :
  pending sample_started 0%nat (StepBounds sample_envA)
  ∧ 0%nat = 0%nat ∧ StepBounds sample_envA = StepBounds sample_envA.
Proof.
  assert (Hp : pending sample_started 0%nat (StepBounds sample_envA))
    by (exists 1008; vm_compute; reflexivity).
  split; [exact Hp|].
  apply (one_pending_step_per_session {[ 7%nat := sample_window ]} 1000
           [AnimateWindowBounds (Some 7%nat) (only_x 100) None (Some 1%nat)]
           sample_started).
  - reflexivity.
  - exact Hp.
  - exact Hp.
  - reflexivity.
Defined.

(** X14.  After [animateWindow(w, x, y, opts)] on a valid window, every
    rectangle that the session gives to [setBounds], at any step and
    whatever else happens, is for [w] and has the width and height of
    [opts.sizeOverride], or those the window had at the call if there is no
    override: [animateWindow] never interpolates the size. *)
Theorem animateWindow_keeps_size
    (ws : gmap nat Window) (t0 : Z) (evs0 : list event) (s0 : State)
    (w : handle) (tx ty : Q) (so : option (Z * Z)) (oc : option nat)
    (d : option Q) (evs : list event) (s' : State) :
  run (init ws t0) evs0 = Some s0 →
  isDestroyed w s0 = false →
  run (animateWindow (Some w) tx ty so oc d s0) evs = Some s' →
  ∃ new, trace s' = new ++ trace s0
    ∧ ∀ w' r, SetBounds (nextSession s0) w' r ∈ new →
        w' = w
        ∧ (Rectangle.width r, Rectangle.height r)
          = default (Rectangle.width (getBounds w s0),
                     Rectangle.height (getBounds w s0)) so.
Proof.
  intros Hr0 Hv Hr.
  pose proof (run_wf _ _ _ (init_wf ws t0) Hr0) as Hwf0.
  set (wh := default (Rectangle.width (getBounds w s0),
                      Rectangle.height (getBounds w s0)) so).
  set (e0 := mkWindowEnv (nextSession s0) w (getBounds w s0) (now s0)
               (or_else d animationDuration) tx ty wh.1 wh.2 oc).
  assert (Hc : call_closure (AnimateWindow (Some w) tx ty so oc d) s0
               = Some (StepWindow e0)).
  { subst e0 wh. simpl. by destruct so as [[??]|]. }
  assert (Hstep : step s0 (AnimateWindow (Some w) tx ty so oc d)
                  = Some (animateWindow (Some w) tx ty so oc d s0)) by done.
  destruct (call_owns _ _ _ _ Hwf0 Hc Hstep) as [Ho1 (new1 & T1 & O1)].
  destruct (run_owns _ _ _ _ Hr Ho1) as [_ (new2 & T2 & O2)].
  rewrite Forall_forall in O1.
  exists (new2 ++ new1). split; [by rewrite T2, T1, app_assoc|].
  intros w' r Hin.
  assert (∃ t, obs_by (StepWindow e0) t (SetBounds (nextSession s0) w' r))
    as [t (_ & -> & ->)].
  { apply elem_of_app in Hin as [Hin|Hin]; eauto. }
  split; [done|]. simpl. by destruct wh.
Qed.

Lemma animateWindow_keeps_size_witness :
  isDestroyed 7 sample = false
  ∧ ∃ s',
      run (animateWindow (Some 7%nat) 100 0 (Some (50, 60)) None None sample)
        [Elapse 8; Fire 0%nat] = Some s'
      ∧ ∃ new, trace s' = new ++ trace sample
          ∧ ∀ w' r, SetBounds (nextSession sample) w' r ∈ new →
              w' = 7%nat
              ∧ (Rectangle.width r, Rectangle.height r)
                = default (Rectangle.width (getBounds 7 sample),
                           Rectangle.height (getBounds 7 sample))
                    (Some (50, 60)).
Proof.
  split; [reflexivity|].
  exists (default sample
            (run (animateWindow (Some 7%nat) 100 0 (Some (50, 60)) None None
                    sample) [Elapse 8; Fire 0%nat])).
  assert (Hr : run (animateWindow (Some 7%nat) 100 0 (Some (50, 60)) None None
                      sample) [Elapse 8; Fire 0%nat]
               = Some (default sample
                         (run (animateWindow (Some 7%nat) 100 0 (Some (50, 60))
                                 None None sample) [Elapse 8; Fire 0%nat])))
    by (vm_compute; reflexivity).
  split; [exact Hr|].
  apply (animateWindow_keeps_size {[ 7%nat := sample_window ]} 1000 [] sample
           7%nat 100 0 (Some (50, 60)) None None [Elapse 8; Fire 0%nat]).
  - reflexivity.
  - reflexivity.
  - exact Hr.
Defined.

Lemma newBounds_same e t :
  b_finalTargetBounds e = b_startBounds e → newBounds e t = b_startBounds e.
Proof.
  intros E. unfold newBounds. rewrite E, !lerp_round_const.
  by destruct (b_startBounds e).
Qed.

(** X15.  After [animateWindowBounds(w, target, opts)] on a valid window
    whose bounds the target resolves to (an empty target, for one), every
    rectangle that the session gives to [setBounds], at any step and
    whatever else happens, is the bounds the window had at the call: the
    session never moves the window. *)
Theorem animation_to_current_bounds
    (ws : gmap nat Window) (t0 : Z) (evs0 : list event) (s0 : State)
    (w : handle) (tb : PartialRectangle) (d : option Q) (oc : option nat)
    (evs : list event) (s' : State) :
  run (init ws t0) evs0 = Some s0 →
  isDestroyed w s0 = false →
  spread (getBounds w s0) tb = getBounds w s0 →
  run (animateWindowBounds (Some w) tb d oc s0) evs = Some s' →
  ∃ new, trace s' = new ++ trace s0
    ∧ ∀ w' r, SetBounds (nextSession s0) w' r ∈ new →
        w' = w ∧ r = getBounds w s0.
Proof.
  intros Hr0 Hv Hsame Hr.
  pose proof (run_wf _ _ _ (init_wf ws t0) Hr0) as Hwf0.
  set (e0 := mkBoundsEnv (nextSession s0) w (getBounds w s0)
               (spread (getBounds w s0) tb) (now s0)
               (or_else d animationDuration) oc).
  assert (Hc : call_closure (AnimateWindowBounds (Some w) tb d oc) s0
               = Some (StepBounds e0)) by done.
  assert (Hstep : step s0 (AnimateWindowBounds (Some w) tb d oc)
                  = Some (animateWindowBounds (Some w) tb d oc s0)) by done.
  destruct (call_owns _ _ _ _ Hwf0 Hc Hstep) as [Ho1 (new1 & T1 & O1)].
  destruct (run_owns _ _ _ _ Hr Ho1) as [_ (new2 & T2 & O2)].
  rewrite Forall_forall in O1.
  exists (new2 ++ new1). split; [by rewrite T2, T1, app_assoc|].
  intros w' r Hin.
  assert (∃ t, obs_by (StepBounds e0) t (SetBounds (nextSession s0) w' r))
    as [t (_ & -> & Hrect)].
  { apply elem_of_app in Hin as [Hin|Hin]; eauto. }
  split; [done|]. destruct Hrect as [-> | ->]; [|done].
  by apply newBounds_same.
Qed.

Lemma animation_to_current_bounds_witness :
  spread (getBounds 7 sample) no_field = getBounds 7 sample
  ∧ ∃ s',
      run (animateWindowBounds (Some 7%nat) no_field None None sample)
        [Elapse 8; Fire 0%nat] = Some s'
      ∧ ∃ new, trace s' = new ++ trace sample
          ∧ ∀ w' r, SetBounds (nextSession sample) w' r ∈ new →
              w' = 7%nat ∧ r = getBounds 7 sample.
Proof.
  split; [reflexivity|].
  exists (default sample
            (run (animateWindowBounds (Some 7%nat) no_field None None sample)
               [Elapse 8; Fire 0%nat])).
  assert (Hr : run (animateWindowBounds (Some 7%nat) no_field None None sample)
                 [Elapse 8; Fire 0%nat]
               = Some (default sample
                         (run (animateWindowBounds (Some 7%nat) no_field None
                                 None sample) [Elapse 8; Fire 0%nat])))
    by (vm_compute; reflexivity).
  split; [exact Hr|].
  apply (animation_to_current_bounds {[ 7%nat := sample_window ]} 1000 [] sample
           7%nat no_field None None [Elapse 8; Fire 0%nat]).
  - reflexivity.
  - reflexivity.
  - reflexivity.
  - exact Hr.
Defined.

(** ** What an event may change *)

(** An event that runs no callback changes no window, unless it is the
    destruction of a window or a direct write of [animateLayout]. *)
Lemma step_no_actor_windows s ev s' :
  step s ev = Some s' → (∀ c, ¬ actor s ev c) →
  windows s' = windows s
  ∨ (∃ w, ev = WindowDestroyed w ∧ s' = destroy_window w s)
  ∨ (∃ w tb, ev = ApplyLayout w tb ∧ s' = applyLayout w tb s).
Proof.
  intros Hs Ha.
  destruct ev as [[w|] tx ty so oc d|[w|] from to d oc|[w|] tb d oc
                 |[w|] tx ty d oc| |w|dt|tid|w tb]; simpl in Ha.
  all: try (exfalso; eapply Ha; done).
  - exfalso. destruct so as [[??]|]; eapply Ha; done.
  - injection Hs as <-. left.
    by destruct (animateWindow_invalid None tx ty so oc d s Logic.I).
  - injection Hs as <-. left.
    by destruct (fade_invalid None from to d oc s Logic.I).
  - injection Hs as <-. left.
    by destruct (animateWindowBounds_invalid None tb d oc s Logic.I).
  - injection Hs as <-. left.
    by destruct (animateWindowPosition_invalid None tx ty d oc s Logic.I).
  - injection Hs as <-. left. unfold destroy.
    by destruct (clear_all_spec (animationTimers s) s) as (E1 & _).
  - injection Hs as <-. right. left. eauto.
  - simpl in Hs. case_decide; [|done]. injection Hs as <-. by left.
  - simpl in Hs. destruct (timers s !! tid) as [[due c]|] eqn:E; [|done].
    exfalso. apply (Ha c). by exists due.
  - simpl in Hs. destruct (isDestroyed w s); [done|]. injection Hs as <-.
    right. right. eauto.
Qed.

(** X16.  What an event may change of a window [w].  Its bounds change only
    if the event runs a method or a step of [animateWindow],
    [animateWindowBounds] or [animateWindowPosition] on [w], or is a direct
    write of [animateLayout] to [w]; its opacity only if the event runs
    [fade] or a step of [fade] on [w]; and only the destruction of [w]
    itself changes what [w.isDestroyed()] returns.  So an animation of one
    window never touches another, a fade never moves a window and a move
    never changes an opacity. *)
Theorem event_frame (s : State) (ev : event) (s' : State) (w : handle) :
  step s ev = Some s' →
  ((∀ tb, ev ≠ ApplyLayout w tb) →
   (∀ c, actor s ev c → closure_win c ≠ w ∨ is_fade c = true) →
   getBounds w s' = getBounds w s)
  ∧ ((∀ c, actor s ev c → closure_win c ≠ w ∨ is_fade c = false) →
     getOpacity w s' = getOpacity w s)
  ∧ (ev ≠ WindowDestroyed w → isDestroyed w s' = isDestroyed w s).
Proof.
  intros Hs. destruct (actor_dec s ev) as [[c Ha]|Hna].
  - destruct (step_footprint _ _ _ _ Hs Ha) as [_ _ FD FB FO _].
    split_and!; [intros _ H|intros H|intros _]; eauto.
  - destruct (step_no_actor_windows _ _ _ Hs Hna)
      as [E|[(w0 & -> & ->)|(w0 & tb & -> & ->)]].
    + unfold getBounds, getOpacity, isDestroyed. by rewrite E.
    + split_and!; [intros _ _|intros _|intros Hne].
      * unfold getBounds; simpl. destruct (decide (w0 = w)) as [->|?].
        -- rewrite lookup_alter_eq. by destruct (windows s !! w).
        -- by rewrite lookup_alter_ne.
      * unfold getOpacity; simpl. destruct (decide (w0 = w)) as [->|?].
        -- rewrite lookup_alter_eq. by destruct (windows s !! w).
        -- by rewrite lookup_alter_ne.
      * unfold isDestroyed; simpl. rewrite lookup_alter_ne; [done|congruence].
    + split_and!; [intros Hne _|intros _|intros _].
      * unfold getBounds; simpl. rewrite lookup_alter_ne; [done|].
        intros <-. by apply (Hne tb).
      * unfold getOpacity; simpl. destruct (decide (w0 = w)) as [->|?].
        -- rewrite lookup_alter_eq. by destruct (windows s !! w).
        -- by rewrite lookup_alter_ne.
      * unfold isDestroyed; simpl. destruct (decide (w0 = w)) as [->|?].
        -- rewrite lookup_alter_eq. by destruct (windows s !! w).
        -- by rewrite lookup_alter_ne.
Qed.

Lemma event_frame_witness :
  step sample (Fade (Some 7%nat) None (1 # 2)%Q None None)
    = Some (fade (Some 7%nat) None (1 # 2)%Q None None sample)
  ∧ getBounds 7 (fade (Some 7%nat) None (1 # 2)%Q None None sample)
    = getBounds 7 sample.
Proof.
  split; [reflexivity|].
  destruct (event_frame sample (Fade (Some 7%nat) None (1 # 2)%Q None None)
              (fade (Some 7%nat) None (1 # 2)%Q None None sample) 7%nat)
    as (H & _).
  - reflexivity.
  - apply H.
    + intros tb E. discriminate E.
    + intros c E. injection E as <-. right. reflexivity.
Defined.

(** X17.  [destroy()] called twice leaves the state that one call leaves. *)
Theorem destroy_idempotent (s : State) : destroy (destroy s) = destroy s.
Proof.
  unfold destroy at 1 3. simpl. unfold clear_all. by rewrite map_fold_empty.
Qed.

(** ** The batch method, entry by entry *)

Lemma animateLayout_cons pool entry layout animated s :
  animateLayout pool (entry :: layout) animated s
  = animateLayout pool layout animated (layout_turn pool animated s entry).
Proof. by destruct entry. Qed.

Lemma animateLayout_snoc pool layout entry animated s :
  animateLayout pool (layout ++ [entry]) animated s
  = layout_turn pool animated (animateLayout pool layout animated s) entry.
Proof. unfold animateLayout. rewrite foldl_snoc. by destruct entry. Qed.

(** X18.  [animateLayout(layout, animated)] changes nothing when every
    entry of the layout names a window that the pool does not have or that
    is destroyed, or has no target; so for an empty layout.  In particular
    the entry that [animationTimers] may hold for a destroyed window is left
    in place, where [animateWindowBounds] called on that window would
    remove it. *)
Theorem animateLayout_skips
    (windowPool : gmap string nat)
    (layout : list (string * option PartialRectangle)) (animated : bool)
    (s : State) :
  Forall (λ entry, ∀ win, windowPool !! entry.1 = Some win →
            entry.2 = None ∨ isDestroyed win s = true) layout →
  animateLayout windowPool layout animated s = s.
Proof.
  induction 1 as [|entry layout Hskip _ IH]; [done|].
  rewrite animateLayout_cons.
  replace (layout_turn windowPool animated s entry) with s; [done|].
  unfold layout_turn.
  destruct (windowPool !! entry.1) as [win|] eqn:E; [|done].
  destruct (Hskip win eq_refl) as [-> | ->]; [done|].
  by destruct entry.2.
Qed.

Lemma animateLayout_skips_witness :
  animateLayout {[ "main" := 7%nat ]}
    [("ghost", Some (only_x 5)); ("main", None)] true sample = sample.
Proof.
  apply animateLayout_skips.
  apply Forall_cons; split; [|apply Forall_cons; split; [|by apply Forall_nil]].
  - intros win. vm_compute. discriminate.
  - intros win _. by left.
Defined.

Lemma applyLayout_window w tb s w' :
  isDestroyed w s = false →
  getOpacity w' (applyLayout w tb s) = getOpacity w' s
  ∧ isDestroyed w' (applyLayout w tb s) = isDestroyed w' s
  ∧ getBounds w' (applyLayout w tb s)
    = if decide (w = w') then spread (getBounds w s) tb else getBounds w' s.
Proof.
  intros Hv. unfold applyLayout; simpl.
  unfold isDestroyed, getOpacity, getBounds in *; simpl.
  destruct (decide (w = w')) as [->|Hne].
  - rewrite lookup_alter_eq. by destruct (windows s !! w').
  - by rewrite lookup_alter_ne.
Qed.

(** X19.  [animateLayout(layout, false)] schedules and cancels nothing: the
    timers, [animationTimers] and [isAnimating] are left as they were (an
    animation in flight on a window of the layout goes on), no continuation
    is invoked, no opacity changes.  The bounds of a valid window become its
    bounds overridden by the targets that the layout holds for it, taken in
    the order of the loop; a destroyed window keeps its bounds. *)
Theorem animateLayout_direct
    (windowPool : gmap string nat)
    (layout : list (string * option PartialRectangle)) (s : State) :
  let s' := animateLayout windowPool layout false s in
  timers s' = timers s
  ∧ animationTimers s' = animationTimers s
  ∧ isAnimating s' = isAnimating s
  ∧ now s' = now s
  ∧ completed_sids (trace s') = completed_sids (trace s)
  ∧ ∀ w, getOpacity w s' = getOpacity w s
      ∧ isDestroyed w s' = isDestroyed w s
      ∧ getBounds w s'
        = if isDestroyed w s then getBounds w s
          else foldl spread (getBounds w s)
                 (layout_targets windowPool w layout).
Proof.
  revert s. induction layout as [|entry layout IH]; intros s.
  { simpl. split_and!; try done. intros w. by destruct (isDestroyed w s). }
  cbv zeta. rewrite animateLayout_cons.
  set (s1 := layout_turn windowPool false s entry).
  destruct (IH s1) as (E1 & E2 & E3 & E4 & E5 & EW).
  assert (timers s1 = timers s ∧ animationTimers s1 = animationTimers s
          ∧ isAnimating s1 = isAnimating s ∧ now s1 = now s
          ∧ completed_sids (trace s1) = completed_sids (trace s)
          ∧ ∀ w, getOpacity w s1 = getOpacity w s
              ∧ isDestroyed w s1 = isDestroyed w s
              ∧ getBounds w s1
                = if isDestroyed w s then getBounds w s
                  else foldl spread (getBounds w s)
                         (layout_targets windowPool w [entry]))
    as (F1 & F2 & F3 & F4 & F5 & FW).
  { subst s1. unfold layout_turn, layout_targets. simpl.
    destruct (windowPool !! entry.1) as [win|] eqn:E.
    2:{ split_and!; try done. intros w. rewrite decide_False by done.
        by destruct (isDestroyed w s). }
    destruct entry.2 as [tb|] eqn:Etb.
    2:{ split_and!; try done. intros w. case_decide; by destruct (isDestroyed w s). }
    destruct (isDestroyed win s) eqn:Hv.
    { split_and!; try done. intros w. case_decide as Hw; [|by destruct (isDestroyed w s)].
      injection Hw as <-. by rewrite Hv. }
    split_and!; try done. intros w.
    destruct (applyLayout_window win tb s w Hv) as (G1 & G2 & G3).
    split_and!; [done|done|]. rewrite G3.
    destruct (decide (win = w)) as [->|Hne].
    - rewrite decide_True by done. by rewrite Hv.
    - rewrite decide_False by congruence. by destruct (isDestroyed w s). }
  split_and!; try congruence.
  intros w. destruct (EW w) as (G1 & G2 & G3), (FW w) as (K1 & K2 & K3).
  split_and!; [congruence|congruence|].
  rewrite G3, K2, K3.
  destruct (isDestroyed w s); [done|].
  change (entry :: layout) with ([entry] ++ layout).
  unfold layout_targets. by rewrite omap_app, foldl_app.
Qed.

Lemma animateLayout_wf pool layout animated s :
  wf s → wf (animateLayout pool layout animated s).
Proof.
  intros H. destruct (animateLayout_run pool layout animated s) as [evs Hr].
  by eapply run_wf.
Qed.

Lemma layout_targets_snoc pool w layout entry :
  layout_targets pool w (layout ++ [entry])
  = layout_targets pool w layout
    ++ if decide (pool !! entry.1 = Some w) then option_list entry.2 else [].
Proof.
  unfold layout_targets. rewrite omap_app. f_equal. simpl.
  case_decide; [|done]. by destruct entry.2.
Qed.

(** What [animateLayout(layout, true)] leaves behind. *)
Lemma animateLayout_animated_wf pool layout s :
  wf s →
  let s' := animateLayout pool layout true s in
  windows s' = windows s
  ∧ now s' = now s
  ∧ (∀ w tb,
       isDestroyed w s = false →
       last (layout_targets pool w layout) = Some tb →
       isAnimating s' = true
       ∧ ∃ tid e, pending s' tid (StepBounds e)
           ∧ b_win e = w
           ∧ b_startBounds e = getBounds w s
           ∧ b_finalTargetBounds e = spread (getBounds w s) tb
           ∧ b_startTime e = now s
           ∧ b_duration e = animationDuration
           ∧ b_onComplete e = None)
  ∧ (∀ tid c,
       pending s tid c →
       (∀ e, c = StepBounds e →
          isDestroyed (b_win e) s = true
          ∨ layout_targets pool (b_win e) layout = []) →
       pending s' tid c).
Proof.
  intros Hwf. induction layout as [|entry layout IH] using rev_ind.
  { simpl. split_and!; try done. }
  cbv zeta in *. rewrite animateLayout_snoc.
  pose proof (animateLayout_wf pool layout true s Hwf) as Hwf1.
  set (s1 := animateLayout pool layout true s) in *.
  destruct IH as (W1 & N1 & A1 & P1).
  assert (Hd : ∀ w, isDestroyed w s1 = isDestroyed w s)
    by (intros; unfold isDestroyed; by rewrite W1).
  assert (Hb : ∀ w, getBounds w s1 = getBounds w s)
    by (intros; unfold getBounds; by rewrite W1).
  assert (Hskip :
    (∀ w, isDestroyed w s = false → pool !! entry.1 = Some w → entry.2 = None) →
    windows s1 = windows s ∧ now s1 = now s
    ∧ (∀ w tb, isDestroyed w s = false →
         last (layout_targets pool w (layout ++ [entry])) = Some tb →
         isAnimating s1 = true
         ∧ ∃ tid e, pending s1 tid (StepBounds e) ∧ b_win e = w
             ∧ b_startBounds e = getBounds w s
             ∧ b_finalTargetBounds e = spread (getBounds w s) tb
             ∧ b_startTime e = now s ∧ b_duration e = animationDuration
             ∧ b_onComplete e = None)
    ∧ (∀ tid c, pending s tid c →
         (∀ e, c = StepBounds e →
            isDestroyed (b_win e) s = true
            ∨ layout_targets pool (b_win e) (layout ++ [entry]) = []) →
         pending s1 tid c)).
  { intros Hno. split_and!; [done|done|..].
    - intros w tb Hv Hl. apply A1; [done|].
      rewrite layout_targets_snoc in Hl.
      case_decide as Hw; [|by rewrite app_nil_r in Hl].
      rewrite (Hno w Hv Hw) in Hl. by rewrite app_nil_r in Hl.
    - intros tid c Hp Hc. apply P1; [done|].
      intros e He. destruct (Hc e He) as [?|Hn]; [by left|right].
      rewrite layout_targets_snoc in Hn. by apply app_eq_nil in Hn as [? _]. }
  unfold layout_turn.
  destruct (pool !! entry.1) as [win|] eqn:Ewin; [|by apply Hskip].
  destruct entry.2 as [tbx|] eqn:Etb; [|by apply Hskip].
  destruct (isDestroyed win s1) eqn:Hv1.
  { apply Hskip. intros w Hv [= <-]. rewrite Hd in Hv1. congruence. }
  destruct (animateWindowBounds_contract s1 win tbx None None Hwf1 Hv1)
    as (_ & W & N & F & _ & TM & P).
  split_and!; [congruence|congruence|..].
  - intros w tb Hv Hl. split; [done|].
    rewrite layout_targets_snoc in Hl.
    destruct (decide (pool !! entry.1 = Some w)) as [Hw|Hw].
    + assert (win = w) as <- by congruence.
      rewrite Etb in Hl. simpl in Hl. rewrite last_snoc in Hl.
      injection Hl as <-.
      eexists _, _. split; [apply P; left; done|].
      simpl. by rewrite Hb, N1.
    + rewrite app_nil_r in Hl.
      destruct (A1 w tb Hv Hl) as (_ & tid & e & Hp & He & Hrest).
      exists tid, e. split; [|done].
      apply P. right. split; [done|]. intros e' [= <-]. congruence.
  - intros tid c Hp Hc. apply P. right. split.
    + apply P1; [done|]. intros e He.
      destruct (Hc e He) as [?|Hn]; [by left|right].
      rewrite layout_targets_snoc in Hn. by apply app_eq_nil in Hn as [? _].
    + intros e He Hw. destruct (Hc e He) as [Hx|Hn].
      * rewrite Hw, <- Hd in Hx. congruence.
      * rewrite layout_targets_snoc, Hw, decide_True, Etb in Hn by done.
        by apply app_eq_nil in Hn as [_ ?].
Qed.

(** X20.  What [animateLayout(layout, true)] has done when it returns, in a
    state the engine can reach and with the clock reading the same value
    throughout the call.  No window has changed.  For each valid window
    that the layout names with a target, [isAnimating] is set and a step of
    [animateWindowBounds] is pending on it, started now from its current
    bounds, with the default duration and no continuation, towards those
    bounds overridden by the last target that the layout holds for it.
    Every pending step of [animateWindow] and [fade], and every pending
    step of [animateWindowBounds] on a window that is destroyed or that the
    layout does not name with a target, is left as it was. *)
Theorem animateLayout_animated
    (ws : gmap nat Window) (t0 : Z) (evs : list event) (s : State)
    (windowPool : gmap string nat)
    (layout : list (string * option PartialRectangle)) :
  run (init ws t0) evs = Some s →
  let s' := animateLayout windowPool layout true s in
  windows s' = windows s
  ∧ now s' = now s
  ∧ (∀ w tb,
       isDestroyed w s = false →
       last (layout_targets windowPool w layout) = Some tb →
       isAnimating s' = true
       ∧ ∃ tid e, pending s' tid (StepBounds e)
           ∧ b_win e = w
           ∧ b_startBounds e = getBounds w s
           ∧ b_finalTargetBounds e = spread (getBounds w s) tb
           ∧ b_startTime e = now s
           ∧ b_duration e = animationDuration
           ∧ b_onComplete e = None)
  ∧ (∀ tid c,
       pending s tid c →
       (∀ e, c = StepBounds e →
          isDestroyed (b_win e) s = true
          ∨ layout_targets windowPool (b_win e) layout = []) →
       pending s' tid c).
Proof.
  intros Hr. apply animateLayout_animated_wf.
  by eapply run_wf; [apply init_wf|].
Qed.

Lemma animateLayout_animated_witness :
  isDestroyed 7 sample = false
  ∧ last (layout_targets {[ "main" := 7%nat ]} 7
            [("main", Some (only_x 100))]) = Some (only_x 100)
  ∧ isAnimating
      (animateLayout {[ "main" := 7%nat ]} [("main", Some (only_x 100))] true
         sample) = true.
Proof.
  assert (Hl : last (layout_targets {[ "main" := 7%nat ]} 7
                       [("main", Some (only_x 100))]) = Some (only_x 100))
    by (vm_compute; reflexivity).
  split; [reflexivity|]. split; [exact Hl|].
  destruct (animateLayout_animated {[ 7%nat := sample_window ]} 1000 [] sample
              {[ "main" := 7%nat ]} [("main", Some (only_x 100))])
    as (_ & _ & H & _).
  - reflexivity.
  - destruct (H 7%nat (only_x 100)) as (Hflag & _).
    + reflexivity.
    + exact Hl.
    + exact Hflag.
Defined.
